(** * Huffman codec ([huffman.hpp]): a shallow embedding and its properties

    The header defines, in namespace [hf], the primitive conversions
    [to_bytes], [from_bytes], [to_bits], [from_bits], the file framing
    [write_data] / [read_data], and the Huffman [encode] / [decode].

    Conventions of the embedding:
    - [std::vector<bool>] is [list bool], [std::vector<uint8_t>] is [list Z]
      with entries in [0, 256), [size_t] is [Z] reduced modulo [2^64];
    - a scalar type [T] is given by its width in bytes and its signedness; a
      value of type [T] is the integer it denotes, and its object
      representation (what [(uint8_t* )&value] reads) is a list of [sizeof T]
      bytes whose order depends on the host ([little_endian]);
    - a call either returns ([Ok]), throws [std::runtime_error] ([Throw],
      carrying [what()]), or has undefined behaviour ([Undefined]: an index
      past the end of a vector, an iterator moved before [begin()] or
      dereferenced at [end()], a null pointer dereferenced);
    - the merge loop of [encode] and the recursive constructor of [decode]'s
      nodes are not structural and carry fuel; [encode] and [decode] give
      them enough of it ([encode_fuel], [decode_fuel]), so [OutOfFuel] is
      never an outcome of either. *)

From Stdlib Require Import ZArith List Lia ZifyNat Permutation Sorted.
From stdpp Require Import base option list gmap strings.

Local Open Scope Z_scope.

Module hf.

(** ** Outcomes of a call *)

Inductive ub : Set :=
| OutOfBounds   (* operator[] past the end of a vector *)
| BadIterator   (* std::prev(begin()) or *end() on a std::list *)
| NullDeref.    (* member access through a null pointer *)

Inductive result (A : Type) : Type :=
| Ok (a : A)
| Throw (what : string)
| Undefined (why : ub)
| OutOfFuel.

Arguments Ok {A} a.
Arguments Throw {A} what.
Arguments Undefined {A} why.
Arguments OutOfFuel {A}.

Definition bind {A B : Type} (r : result A) (k : A -> result B) : result B :=
  match r with
  | Ok a => k a
  | Throw w => Throw w
  | Undefined u => Undefined u
  | OutOfFuel => OutOfFuel
  end.

#[global] Instance result_ret : MRet result := fun A a => Ok a.
#[global] Instance result_bind : MBind result := fun A B k r => bind r k.

(** Monadic left fold: a [for] loop whose body may fail. *)
Fixpoint foldM {S I : Type} (body : S -> I -> result S) (s : S) (l : list I)
  : result S :=
  match l with
  | [] => Ok s
  | i :: l' => s' ← body s i; foldM body s' l'
  end.

(** ** [size_t] and vectors *)

Definition wrap64 (x : Z) : Z := x mod 2 ^ 64.

Definition vec_size {A : Type} (v : list A) : Z := Z.of_nat (length v).

(** [v[i]]: no bounds check in the source, so an index past the end is
    undefined behaviour. *)
Definition vec_at {A : Type} (v : list A) (i : Z) : result A :=
  match v !! Z.to_nat i with
  | Some x => Ok x
  | None => Undefined OutOfBounds
  end.

(** ** Scalar types *)

Record scalar : Set := { sizeof : nat; is_signed : bool }.

Definition uint8_t : scalar := {| sizeof := 1; is_signed := false |}.
Definition uint16_t : scalar := {| sizeof := 2; is_signed := false |}.
Definition uint64_t : scalar := {| sizeof := 8; is_signed := false |}.
Definition char : scalar := {| sizeof := 1; is_signed := true |}.

Definition bits_of_type (T : scalar) : Z := 8 * Z.of_nat (sizeof T).

(** The values of type [T]. *)
Definition in_range (T : scalar) (v : Z) : Prop :=
  if is_signed T
  then - 2 ^ (bits_of_type T - 1) <= v < 2 ^ (bits_of_type T - 1)
  else 0 <= v < 2 ^ bits_of_type T.

(** Bytes of [v], least significant first, and the number they spell. *)
Definition le_bytes (n : nat) (v : Z) : list Z :=
  map (fun i => Z.land (Z.shiftr v (8 * Z.of_nat i)) 255) (seq 0 n).

Fixpoint le_value (m : list Z) : Z :=
  match m with
  | [] => 0
  | b :: m' => b + 256 * le_value m'
  end.

(** The value of type [T] whose bits spell the unsigned number [u]. *)
Definition interpret (T : scalar) (u : Z) : Z :=
  if is_signed T && (2 ^ (bits_of_type T - 1) <=? u)
  then u - 2 ^ bits_of_type T
  else u.

Section Host.

(** [constexpr bool little_endian = std::endian::native == std::endian::little] *)
Variable little_endian : bool.

(** The object representation of a value: the bytes at [&value], in address
    order. *)
Definition object_bytes (T : scalar) (v : Z) : list Z :=
  if little_endian then le_bytes (sizeof T) v else rev (le_bytes (sizeof T) v).

(** The value held by an object whose bytes are [m]. *)
Definition object_value (T : scalar) (m : list Z) : Z :=
  interpret T (le_value (if little_endian then m else rev m)).

(** ** [to_bytes] and [from_bytes] *)

Definition to_bytes (T : scalar) (value : Z) : list Z :=
  let mem := object_bytes T value in
  if little_endian
  then fold_left (fun out i => out ++ [nth i mem 0]) (seq 0 (sizeof T)) []
  else fold_left (fun out i => out ++ [nth i mem 0]) (rev (seq 0 (sizeof T))) [].

(** Body of the copy loops: [((uint8_t* )&out)[i] = data[start + i]]. *)
Definition from_bytes_body (data : list Z) (start : Z) (out : list Z) (i : nat)
  : result (list Z) :=
  b ← vec_at data (wrap64 (start + Z.of_nat i));
  Ok (<[i := b]> out).

Definition from_bytes (T : scalar) (data : list Z) (start : Z) : result Z :=
  if wrap64 (vec_size data - start) <? Z.of_nat (sizeof T)
  then Throw "from_bytes: input data too small."
  else
    out ← (if little_endian
           then foldM (from_bytes_body data start)
                  (replicate (sizeof T) 0) (seq 0 (sizeof T))
           else foldM (from_bytes_body data start)
                  (replicate (sizeof T) 0) (rev (seq 0 (sizeof T))));
    Ok (object_value T out).

(** ** [to_bits] and [from_bits] *)

Definition bool_of_int (x : Z) : bool := negb (x =? 0).

Definition to_bits (T : scalar) (value : Z) : list bool :=
  let mem := object_bytes T value in
  fold_left
    (fun out i =>
       let byte := if little_endian then nth i mem 0
                   else nth (sizeof T - i - 1)%nat mem 0 in
       fold_left
         (fun out j => out ++ [bool_of_int (Z.land (Z.shiftr byte (7 - Z.of_nat j)) 1)])
         (seq 0 8) out)
    (seq 0 (sizeof T)) [].

(** Body of the inner loop: byte [k] of [out] receives bit [j] from
    [data[start++]]. *)
Definition from_bits_bit (data : list bool) (k : nat) (st : list Z * Z) (j : nat)
  : result (list Z * Z) :=
  let '(out, start) := st in
  let bit := Z.shiftr 128 (Z.of_nat j) in
  b ← vec_at data start;
  let byte := nth k out 0 in
  let byte' := if b : bool then Z.lor byte bit else Z.land byte (Z.lnot bit) in
  Ok (<[k := byte']> out, wrap64 (start + 1)).

(** Body of the outer loop. *)
Definition from_bits_byte (T : scalar) (data : list bool) (st : list Z * Z)
    (i : nat) : result (list Z * Z) :=
  let k := if little_endian then i else (sizeof T - i - 1)%nat in
  foldM (from_bits_bit data k) st (seq 0 8).

Definition from_bits (T : scalar) (data : list bool) (start : Z) : result Z :=
  if wrap64 (vec_size data - start) <? Z.of_nat (sizeof T) * 8
  then Throw "from_bits: input data too small."
  else
    st ← foldM (from_bits_byte T data) (replicate (sizeof T) 0, start)
           (seq 0 (sizeof T));
    Ok (object_value T st.1).

(** ** [write_data] and [read_data]

    An output file is the list of bytes written so far; an input file is the
    list of bytes not yet read.  [std::istream::read] of [n] bytes sets
    [eofbit] exactly when fewer than [n] bytes are left. *)

Fixpoint write_loop (data : list bool) (i : Z) (byte : Z) (pad : bool)
    (out_file : list Z) : list Z :=
  match data with
  | [] => if pad then out_file ++ [byte] else out_file
  | b :: data' =>
      let bit := i mod 8 in
      let byte := if b then Z.lor byte (Z.shiftr 128 bit) else byte in
      if bit =? 7
      then write_loop data' (i + 1) 0 false (out_file ++ [byte])
      else write_loop data' (i + 1) byte true out_file
  end.

Definition write_data (data : list bool) : list Z :=
  let size := to_bytes uint64_t (vec_size data) in
  let out_file := take (sizeof uint64_t) size in
  write_loop data 0 0 false out_file.

Fixpoint read_loop (n : nat) (i : Z) (byte : Z) (in_file : list Z)
    (out : list bool) : result (list bool) :=
  match n with
  | O => Ok out
  | S n' =>
      let bit := i mod 8 in
      let push (byte : Z) (in_file : list Z) :=
        read_loop n' (i + 1) byte in_file
          (out ++ [bool_of_int (Z.land byte (Z.shiftr 128 (i mod 8)))]) in
      if bit =? 0
      then match in_file with
           | [] => Throw "read_data: premature end of file."
           | byte' :: in_file' => push byte' in_file'
           end
      else push byte in_file
  end.

Definition read_data (in_file : list Z) : result (list bool) :=
  if (length in_file <? sizeof uint64_t)%nat
  then Throw "read_data: premature end of file."
  else
    let size_bytes := take (sizeof uint64_t) in_file in
    let in_file := drop (sizeof uint64_t) in_file in
    size ← from_bytes uint64_t size_bytes 0;
    read_loop (Z.to_nat size) 0 0 in_file [].

End Host.

(** ** Containers used by [encode] *)

(** [std::map<T, size_t>]: iterated in key order, so it is kept as an
    association list sorted by key.  [map_incr k m] is [m[k] += 1]. *)
Fixpoint map_incr (k : Z) (m : list (Z * Z)) : list (Z * Z) :=
  match m with
  | [] => [(k, wrap64 (0 + 1))]
  | (k', c) :: m' =>
      if k <? k' then (k, wrap64 (0 + 1)) :: m
      else if k' <? k then (k', c) :: map_incr k m'
      else (k', wrap64 (c + 1)) :: m'
  end.

(** [std::list::sort(comp)]: a stable sort; an element stays behind exactly
    those elements that [comp] puts strictly before it. *)
Fixpoint sort_insert {A : Type} (comp : A -> A -> bool) (x : A) (l : list A)
  : list A :=
  match l with
  | [] => [x]
  | y :: l' => if comp y x then y :: sort_insert comp x l' else x :: y :: l'
  end.

Definition list_sort {A : Type} (comp : A -> A -> bool) (l : list A) : list A :=
  foldr (sort_insert comp) [] l.

(** The last element of a list and what is before it. *)
Definition pop_back {A : Type} (l : list A) : option (list A * A) :=
  match rev l with
  | [] => None
  | x :: r => Some (rev r, x)
  end.

(** ** [encode] *)

Module Enc.

#[local] Unset Elimination Schemes.

(** [struct Node] local to [encode].  A [Node*] field is [None] when null. *)
Inductive Node : Type :=
  mkNode { end_ : bool;
           values : list Z;
           freq : Z;
           first : option Node;      (* sub_nodes.first *)
           second : option Node }.   (* sub_nodes.second *)

(** [Node(T value, size_t freq)] *)
Definition Node_leaf (value : Z) (freq : Z) : Node :=
  mkNode true [value] freq None None.

(** [Node(Node* l, Node* r)] *)
Definition Node_merge (l r : Node) : Node :=
  mkNode false (values l ++ values r) (wrap64 (freq l + freq r)) (Some l) (Some r).

End Enc.

Section Encode.

Variable little_endian : bool.
Variable T : scalar.

Import Enc.

Fixpoint encode_tree (n : Node) : result (list bool) :=
  match n with
  | mkNode true vs _ _ _ =>
      v ← vec_at vs 0;
      Ok ([true] ++ to_bits little_endian T v)
  | mkNode false _ _ (Some l) (Some r) =>
      bits_l ← encode_tree l;
      bits_r ← encode_tree r;
      Ok ([false] ++ bits_l ++ bits_r)
  | mkNode false _ _ _ _ => Undefined NullDeref
  end.

Definition freq_table (data : list Z) : list (Z * Z) :=
  fold_left (fun m x => map_incr x m) data [].

Definition initial_nodes (data : list Z) : list Node :=
  list_sort (fun l r => freq r <? freq l)
    (map (fun it => Node_leaf it.1 it.2) (freq_table data)).

(** [encoding_lut[value].push_back(b)] *)
Definition lut_push (b : bool) (lut : gmap Z (list bool)) (value : Z)
  : gmap Z (list bool) :=
  <[value := lut !!! value ++ [b]]> lut.

(** Lines 246-253: put [parent] in front of the first node whose frequency
    does not exceed its own. *)
Fixpoint reinsert (parent : Node) (nodes : list Node) : list Node :=
  match nodes with
  | [] => [parent]
  | it :: rest =>
      if freq it <=? freq parent then parent :: it :: rest
      else it :: reinsert parent rest
  end.

(** One turn of the [while (true)] loop; [None] is [break]. *)
Definition merge_step (nodes : list Node) (lut : gmap Z (list bool))
  : result (option (list Node * gmap Z (list bool))) :=
  match pop_back nodes with
  | None => Undefined BadIterator
  | Some (rest, l) =>
      match pop_back rest with
      | None => Ok None
      | Some (rest', r) =>
          let lut := fold_left (lut_push false) (values l) lut in
          let lut := fold_left (lut_push true) (values r) lut in
          let parent := Node_merge l r in
          Ok (Some (reinsert parent rest', lut))
      end
  end.

Fixpoint merge_loop (fuel : nat) (nodes : list Node) (lut : gmap Z (list bool))
  : result (list Node * gmap Z (list bool)) :=
  match fuel with
  | O => OutOfFuel
  | S fuel' =>
      r ← merge_step nodes lut;
      match r with
      | None => Ok (nodes, lut)
      | Some (nodes', lut') => merge_loop fuel' nodes' lut'
      end
  end.

(** Lines 214-256: the tree and the code table (codes stored leaf to root). *)
Definition build (data : list Z) : result (Node * gmap Z (list bool)) :=
  let nodes := initial_nodes data in
  '(nodes, lut) ← merge_loop (S (length nodes)) nodes ∅;
  match nodes with
  | [] => Undefined BadIterator
  | tree :: _ => Ok (tree, lut)
  end.

(** Lines 258-265: the code of each symbol, last pushed bit first. *)
Definition emit (lut : gmap Z (list bool)) (out : list bool) (x : Z) : list bool :=
  let sequence := lut !!! x in
  fold_left (fun out j => out ++ [nth j sequence false])
    (rev (seq 0 (length sequence))) out.

Definition encode (data : list Z) : result (list bool) :=
  '(tree, lut) ← build data;
  out ← encode_tree tree;
  Ok (fold_left (emit lut) data out).

End Encode.

(** ** [decode] *)

Module Dec.

#[local] Unset Elimination Schemes.

(** [struct Node] local to [decode]. *)
Inductive Node : Type :=
  mkNode { end_ : bool;
           values : list Z;
           first : option Node;
           second : option Node }.

End Dec.

Section Decode.

Variable little_endian : bool.
Variable T : scalar.

Import Dec.

(** [Node(const std::vector<bool>& data, size_t& start)]: the node and the
    cursor after it. *)
Fixpoint Node_parse (fuel : nat) (data : list bool) (start : Z)
  : result (Node * Z) :=
  match fuel with
  | O => OutOfFuel
  | S fuel' =>
      e ← vec_at data start;
      let start := wrap64 (start + 1) in
      if e : bool
      then
        v ← from_bits little_endian T data start;
        Ok (mkNode true [v] None None, wrap64 (start + Z.of_nat (sizeof T) * 8))
      else
        '(l, start) ← Node_parse fuel' data start;
        '(r, start) ← Node_parse fuel' data start;
        Ok (mkNode false [] (Some l) (Some r), start)
  end.

(** Lines 308-319; [bits] is [data[start..]]. *)
Fixpoint decode_loop (tree current : Node) (bits : list bool) (out : list Z)
  : result (list Z) :=
  match bits with
  | [] => Ok out
  | b :: bits' =>
      match (if b then second current else first current) with
      | None => Undefined NullDeref
      | Some next =>
          if end_ next
          then v ← vec_at (values next) 0;
               decode_loop tree tree bits' (out ++ [v])
          else decode_loop tree next bits' out
      end
  end.

Definition decode (data : list bool) : result (list Z) :=
  '(tree, start) ← Node_parse (S (length data)) data 0;
  decode_loop tree tree (drop (Z.to_nat start) data) [].

End Decode.

End hf.

Import hf.


(** * The command-line driver ([demo.cpp])

    [main] is a function of the arguments after [argv[0]] and of the file
    system, a finite map from file names to contents.  Opening a file for
    reading succeeds when the name is not empty and the map has it.  Whether
    a file can be opened for writing is a parameter, [can_write]: [main]
    never tests its output stream, so when the file cannot be opened nothing
    is written and the run goes on as if it had been.  What [main] prints is
    kept as a list of lines: fixed texts, the decoded characters, and the
    closing report "Successfully ... bits to ... bits", kept as its two bit
    counts (the rest of that line is the quotes and the percentage, computed
    from the two counts, and the time, a clock value).  An uncaught
    [std::runtime_error] ends the program: it is the [Throw] outcome. *)

Module demo.

Definition endl : string := String (Ascii.ascii_of_nat 10) EmptyString.

(** ** [float]

    The values of type [float] that [main] computes, taken to be IEEE 754
    binary32 with conversions and division rounding to nearest, ties to
    even.  None is negative; [Finite m e] is the number [m * 2^e], with
    24 significant bits. *)
Inductive float : Set :=
| Finite (m e : Z)
| Infinity
| NaN.

(** The [float] nearest to [n / d], for [0 <= n] and [0 < d].  The quotients
    of two [size_t] values are within the range of normal numbers. *)
Definition f32_round (n d : Z) : float :=
  if n =? 0 then Finite 0 0 else
  let k := Z.log2 n - Z.log2 d in
  (* floor (log2 (n / d)) *)
  let lg := if n * 2 ^ Z.max 0 (- k) <? d * 2 ^ Z.max 0 k then k - 1 else k in
  let e := lg - 23 in
  let N := n * 2 ^ Z.max 0 (- e) in
  let D := d * 2 ^ Z.max 0 e in
  let q := N / D in
  let r2 := 2 * (N mod D) in
  Finite (if (D <? r2) || ((D =? r2) && Z.odd q) then q + 1 else q) e.

(** [(float)n] for a [size_t] [n]. *)
Definition f32_of_size (n : Z) : float := f32_round n 1.

(** [a / b] *)
Definition f32_div (a b : float) : float :=
  match a, b with
  | Finite ma ea, Finite mb eb =>
      if mb =? 0 then (if ma =? 0 then NaN else Infinity)
      else f32_round (ma * 2 ^ Z.max 0 (ea - eb)) (mb * 2 ^ Z.max 0 (eb - ea))
  | Finite _ _, Infinity => Finite 0 0
  | Infinity, Finite _ _ => Infinity
  | _, _ => NaN
  end.

(** [a >= b] *)
Definition f32_ge (a b : float) : bool :=
  match a, b with
  | Finite ma ea, Finite mb eb =>
      mb * 2 ^ Z.max 0 (eb - ea) <=? ma * 2 ^ Z.max 0 (ea - eb)
  | Infinity, Finite _ _ | Infinity, Infinity => true
  | _, _ => false
  end.

(** The literal [0.95f]. *)
Definition f32_0_95 : float := f32_round 95 100.

Definition warning_text : string :=
  "Warning: dataset is either small or incompressible." ++ endl.

Inductive output : Set :=
| Text (s : string)
| Chars (bytes : list Z)
| Report (in_bits out_bits : Z).

Record options : Set :=
  { input_filename : string;
    output_filename : string;
    expect : Z;        (* 0: nothing, 1: input_filename, 2: output_filename *)
    operation : Z }.   (* 0: none, 1: encode, 2: decode *)

Definition no_options : options :=
  {| input_filename := ""; output_filename := ""; expect := 0; operation := 0 |}.

(** Body of the loop over [argv] (lines 15-38). *)
Definition parse_arg (o : options) (arg : string) : options :=
  if (arg =? "-i")%string then
    {| input_filename := input_filename o; output_filename := output_filename o;
       expect := 1; operation := operation o |}
  else if (arg =? "-o")%string then
    {| input_filename := input_filename o; output_filename := output_filename o;
       expect := 2; operation := operation o |}
  else if (arg =? "-e")%string || (arg =? "--encode")%string then
    {| input_filename := input_filename o; output_filename := output_filename o;
       expect := expect o; operation := 1 |}
  else if (arg =? "-d")%string || (arg =? "--decode")%string then
    {| input_filename := input_filename o; output_filename := output_filename o;
       expect := expect o; operation := 2 |}
  else
    {| input_filename := if expect o =? 1 then arg else input_filename o;
       output_filename := if expect o =? 2 then arg else output_filename o;
       expect := 0; operation := operation o |}.

Definition parse_args (args : list string) : options :=
  fold_left parse_arg args no_options.

(** [std::ifstream input_file(name, ...)], then the whole contents. *)
Definition open_in (fs : gmap string (list Z)) (name : string)
  : option (list Z) :=
  if (name =? "")%string then None else fs !! name.

Section Main.

Variable little_endian : bool.

(** Whether plain [char] is signed on the host. *)
Variable char_signed : bool.

(** Whether a file of that name can be opened for writing. *)
Variable can_write : string -> bool.

Definition char_t : scalar := {| sizeof := 1; is_signed := char_signed |}.

(** The bytes of a file as [char]s, and back. *)
Definition chars_of_bytes (bytes : list Z) : list Z := map (interpret char_t) bytes.
Definition bytes_of_chars (chars : list Z) : list Z := map (fun c => c mod 256) chars.

Definition could_not_open (name : string) : output :=
  Text ("Error: could not open " ++ name ++ "." ++ endl).

(** Lines 71 and 76-79: the warning that follows the report of an encoding
    when [(float)out_bits / (float)in_bits >= 0.95f]. *)
Definition warning (in_bits out_bits : Z) : list output :=
  let ratio := f32_div (f32_of_size out_bits) (f32_of_size in_bits) in
  if f32_ge ratio f32_0_95 then [Text warning_text] else [].

(** [std::ofstream out_file(name, std::ios::binary)], the writes and
    [close]: they do nothing when the file could not be opened. *)
Definition write_file (fs : gmap string (list Z)) (name : string)
    (bytes : list Z) : gmap string (list Z) :=
  if can_write name then <[name := bytes]> fs else fs.

Definition main (args : list string) (fs : gmap string (list Z))
  : result (Z * list output * gmap string (list Z)) :=
  let o := parse_args args in
  if operation o =? 0 then
    Ok (1, [Text ("Error: no operation specified." ++ endl)], fs)
  else if operation o =? 1 then
    if (output_filename o =? "")%string then
      Ok (1, [Text ("Error: no output file specified." ++ endl)], fs)
    else
      match open_in fs (input_filename o) with
      | None => Ok (1, [could_not_open (input_filename o)], fs)
      | Some bytes =>
          let input_data := chars_of_bytes bytes in
          output_data ← encode little_endian char_t input_data;
          let fs := write_file fs (output_filename o)
                      (write_data little_endian output_data) in
          let in_bits := wrap64 (vec_size input_data * 8) in
          let out_bits := vec_size output_data in
          Ok (0, Report in_bits out_bits :: warning in_bits out_bits, fs)
      end
  else if operation o =? 2 then
    match open_in fs (input_filename o) with
    | None => Ok (1, [could_not_open (input_filename o)], fs)
    | Some bytes =>
        match read_data little_endian bytes with
        | Throw what =>
            Ok (1, [Text ("Error: failed to read input data (" ++ what ++ ")."
                          ++ endl)], fs)
        | Undefined why => Undefined why
        | OutOfFuel => OutOfFuel
        | Ok input_data =>
            output_data ← decode little_endian char_t input_data;
            if (output_filename o =? "")%string then
              Ok (0, [Chars (bytes_of_chars output_data); Text endl], fs)
            else
              let fs := write_file fs (output_filename o)
                          (bytes_of_chars output_data) in
              Ok (0, [Report (vec_size input_data)
                        (wrap64 (vec_size output_data * 8))], fs)
        end
    end
  else Ok (0, [], fs).

End Main.

End demo.

Import demo.

(** * Vocabulary of the statements *)

(** The eight bits [to_bits] emits for one byte, most significant first. *)
Definition byte_bits (byte : Z) : list bool :=
  map (fun j => bool_of_int (Z.land (Z.shiftr byte (7 - Z.of_nat j)) 1)) (seq 0 8).

(** What the inner loop of [from_bits] does to one byte. *)
Definition set_bit (byte : Z) (j : nat) (b : bool) : Z :=
  if b then Z.lor byte (Z.shiftr 128 (Z.of_nat j))
  else Z.land byte (Z.lnot (Z.shiftr 128 (Z.of_nat j))).

Fixpoint set_bits (byte : Z) (js : list nat) (bs : list bool) : Z :=
  match js, bs with
  | j :: js', b :: bs' => set_bits (set_bit byte j b) js' bs'
  | _, _ => byte
  end.

(** The byte of the object that the outer loops of [to_bits] and
    [from_bits] touch at step [i]. *)
Definition byte_index (le : bool) (T : scalar) (i : nat) : nat :=
  if le then i else (sizeof T - i - 1)%nat.

(** ** Trees built by [encode] *)

(** Every internal node has its two children, and a leaf has none. *)
Inductive full : Enc.Node -> Prop :=
| full_leaf vs f : full (Enc.mkNode true vs f None None)
| full_internal vs f l r :
    full l -> full r -> full (Enc.mkNode false vs f (Some l) (Some r)).

(** A tree as the two constructors of [Node] make it: a leaf holds one
    symbol, an internal node holds the symbols of its children. *)
Inductive proper : Enc.Node -> Prop :=
| proper_leaf v f : proper (Enc.Node_leaf v f)
| proper_internal l r :
    proper l -> proper r -> proper (Enc.Node_merge l r).

(** [leads_to n p v]: from [n], taking [sub_nodes.first] on [false] and
    [sub_nodes.second] on [true] along [p], one arrives at the leaf of [v]. *)
Inductive leads_to : Enc.Node -> list bool -> Z -> Prop :=
| leads_here v vs f l r : leads_to (Enc.mkNode true (v :: vs) f l r) [] v
| leads_first vs f l r p v :
    leads_to l p v -> leads_to (Enc.mkNode false vs f (Some l) r) (false :: p) v
| leads_second vs f l r p v :
    leads_to r p v -> leads_to (Enc.mkNode false vs f l (Some r)) (true :: p) v.

(** The code of a symbol as [encode] transmits it: the entry of the table
    read backwards. *)
Definition code (lut : gmap Z (list bool)) (x : Z) : list bool :=
  rev (lut !!! x).

(** The working collection is ordered by frequency, descending. *)
Definition by_freq_desc (a b : Enc.Node) : Prop := Enc.freq b <= Enc.freq a.

Definition ordered (nodes : list Enc.Node) : Prop :=
  StronglySorted by_freq_desc nodes.

(** [parent] sits after every node of greater or equal frequency. *)
Definition placed_after_ties (parent : Enc.Node) (nodes : list Enc.Node) : Prop :=
  exists pre post,
    nodes = pre ++ parent :: post
    /\ Forall (fun n => Enc.freq parent <= Enc.freq n) pre
    /\ Forall (fun n => Enc.freq n < Enc.freq parent) post.

(** [parent] sits before every node of smaller or equal frequency. *)
Definition placed_before_ties (parent : Enc.Node) (nodes : list Enc.Node) : Prop :=
  exists pre post,
    nodes = pre ++ parent :: post
    /\ Forall (fun n => Enc.freq parent < Enc.freq n) pre
    /\ Forall (fun n => Enc.freq n <= Enc.freq parent) post.

(** What the merge loop keeps true of the nodes and the code table. *)
Record merge_inv (nodes : list Enc.Node) (lut : gmap Z (list bool)) : Prop :=
  { inv_proper : Forall proper nodes;
    inv_nodup : NoDup (flat_map Enc.values nodes);
    inv_codes : forall n v, n ∈ nodes -> v ∈ Enc.values n ->
                            leads_to n (code lut v) v }.

(** ** The frequency table and the run of the merge loop *)

(** [m[x]] for a key that need not be there ([0] when it is not). *)
Fixpoint table_get (m : list (Z * Z)) (x : Z) : Z :=
  match m with
  | [] => 0
  | (k, c) :: m' => if x =? k then c else table_get m' x
  end.

(** The states of [encode]'s [while (true)] loop at the top of its turns:
    the sorted list of leaves with an empty table, and what a turn that
    does not [break] makes of a state. *)
Inductive loop_state (data : list Z)
  : list Enc.Node -> gmap Z (list bool) -> Prop :=
| loop_start : loop_state data (initial_nodes data) ∅
| loop_turn nodes lut nodes' lut' :
    loop_state data nodes lut ->
    merge_step nodes lut = Ok (Some (nodes', lut')) ->
    loop_state data nodes' lut'.

(** ** Evaluations of [encode]

    What an evaluation of [encode] may do, in the words of the claim of
    determinism: the frequency table is iterated in symbol key order, the
    node sort is stable, and the new node of a turn of the merge loop is
    re-inserted in front of the first node whose frequency does not exceed
    its own.  The three are stated as relations, so that any library meeting
    them is an evaluation. *)

(** A table iterated in key order: the distinct symbols, ascending, each
    with the number of its occurrences (a [size_t]). *)
Definition key_ordered_table (data : list Z) (table : list (Z * Z)) : Prop :=
  StronglySorted Z.lt (map fst table)
  /\ forall x c, (x, c) ∈ table
       <-> In x data /\ c = wrap64 (Z.of_nat (count_occ Z.eq_dec data x)).

(** A stable sort by frequency, descending: the result is ordered, and the
    nodes of one frequency are those of the list, in the order they had. *)
Definition stable_sort_of (l sorted : list Enc.Node) : Prop :=
  ordered sorted
  /\ forall f, filter (fun n => Enc.freq n = f) sorted
              = filter (fun n => Enc.freq n = f) l.

(** [nodes'] is [nodes] with [parent] in front of the first node whose
    frequency does not exceed its own, at the end when there is none. *)
Definition reinserted (parent : Enc.Node) (nodes nodes' : list Enc.Node) : Prop :=
  exists pre post,
    nodes = pre ++ post
    /\ nodes' = pre ++ parent :: post
    /\ Forall (fun n => Enc.freq parent < Enc.freq n) pre
    /\ match post with
       | [] => True
       | it :: _ => Enc.freq it <= Enc.freq parent
       end.

(** Turns of the merge loop down to one node: the last two nodes [r], [l]
    give their symbols one more bit and are replaced by their parent. *)
Inductive merges
  : list Enc.Node -> gmap Z (list bool) -> Enc.Node -> gmap Z (list bool)
    -> Prop :=
| merges_done tree lut : merges [tree] lut tree lut
| merges_turn rest r l lut nodes' tree lut' :
    reinserted (Enc.Node_merge l r) rest nodes' ->
    merges nodes'
      (fold_left (lut_push true) (Enc.values r)
         (fold_left (lut_push false) (Enc.values l) lut))
      tree lut' ->
    merges (rest ++ [r; l]) lut tree lut'.

(** An evaluation of [encode] on [data] that returns [out]. *)
Definition evaluation (le : bool) (T : scalar) (data : list Z)
    (out : list bool) : Prop :=
  exists table sorted tree lut bits,
    key_ordered_table data table
    /\ stable_sort_of (map (fun it => Enc.Node_leaf it.1 it.2) table) sorted
    /\ merges sorted ∅ tree lut
    /\ encode_tree le T tree = Ok bits
    /\ out = bits ++ concat (map (code lut) data).

(** ** Trees rebuilt by [decode] *)

(** The pointer [decode] follows on bit [b]. *)
Definition child (n : Dec.Node) (b : bool) : option Dec.Node :=
  if b then Dec.second n else Dec.first n.

(** [descends n p m]: the non-empty path [p] leads from [n] to [m] and
    passes only through internal nodes on the way. *)
Inductive descends : Dec.Node -> list bool -> Dec.Node -> Prop :=
| descends_one n b c : child n b = Some c -> descends n [b] c
| descends_step n b c p m :
    child n b = Some c -> Dec.end_ c = false -> descends c p m ->
    descends n (b :: p) m.

(** [c] is the code of symbol [v] in [tree]. *)
Definition decodes_to (tree : Dec.Node) (c : list bool) (v : Z) : Prop :=
  exists m vs, descends tree c m /\ Dec.end_ m = true /\ Dec.values m = v :: vs.

(** [d] is a dangling partial code: it stops at an internal node. *)
Definition dangling (tree : Dec.Node) (d : list bool) : Prop :=
  exists m, descends tree d m /\ Dec.end_ m = false.

(** The tree [decode] rebuilds from the serialization of a tree of [encode]. *)
Fixpoint to_dec (n : Enc.Node) : Dec.Node :=
  match n with
  | Enc.mkNode e vs _ l r =>
      Dec.mkNode e (if e then vs else [])
        (match l with Some l' => Some (to_dec l') | None => None end)
        (match r with Some r' => Some (to_dec r') | None => None end)
  end.

(** ** Framing *)

(** The byte under construction in [write_data] has nothing yet in the
    positions of the bits still to come, [k] being the bits already in. *)
Definition low_zero (byte k : Z) : Prop :=
  forall j, 0 <= j < 8 - k -> Z.testbit byte j = false.

Definition eof_message : string := "read_data: premature end of file.".

(** ** Concrete inputs *)

(** The text "aabc" as [char]s, and the collection [encode] starts with. *)
Definition aabc : list Z := [97; 97; 98; 99].

Definition leaf_a : Enc.Node := Enc.Node_leaf 97 2.
Definition leaf_b : Enc.Node := Enc.Node_leaf 98 1.
Definition leaf_c : Enc.Node := Enc.Node_leaf 99 1.

(** The serialized tree of "aabc": root (a, (c, b)). *)
Definition aabc_tree_bits : list bool :=
  [false;
   true; false; true; true; false; false; false; false; true;
   false;
   true; false; true; true; false; false; false; true; true;
   true; false; true; true; false; false; false; true; false].

Definition aabc_tree : Dec.Node :=
  Dec.mkNode false []
    (Some (Dec.mkNode true [97] None None))
    (Some (Dec.mkNode false []
             (Some (Dec.mkNode true [99] None None))
             (Some (Dec.mkNode true [98] None None)))).

(** That tree, the code of "a", and one more bit that stops at the internal
    node (c, b). *)
Definition dangling_stream : list bool := aabc_tree_bits ++ [false] ++ [true].

(** The text "ab". *)
Definition ab : list Z := [97; 98].

(** ** Arguments of the driver *)

Definition encode_flags : list string := ["-e"; "--encode"].
Definition decode_flags : list string := ["-d"; "--decode"].

(** The arguments [main] does not take for a file name. *)
Definition flags : list string :=
  ["-i"; "-o"] ++ encode_flags ++ decode_flags.

(** A file of two bytes, the command lines that compress and restore it,
    and the frame of its encoding: the count 21, then the tree [0 1 b 1 a]
    and the codes [1 0], padded to three bytes. *)
Definition ab_files : gmap string (list Z) := {[ "in"%string := ab ]}.
Definition ab_encode_args : list string := ["-e"; "-i"; "in"; "-o"; "out"]%string.
Definition ab_decode_args : list string := ["-d"; "-i"; "out"; "-o"; "back"]%string.
Definition ab_frame : list Z := [21; 0; 0; 0; 0; 0; 0; 0; 88; 172; 48].

(** What a file holds. *)
Definition is_byte (b : Z) : Prop := 0 <= b < 256.

(** A file system where every file can be opened for writing. *)
Definition all_writable (name : string) : bool := true.

(** * Properties *)

(** Reduce the [bind] of an outcome that is known. *)
Ltac run_bind := cbn [mbind result_bind bind].


(** ** Arithmetic of the primitive conversions *)

Lemma wrap64_small (x : Z) : 0 <= x < 2 ^ 64 -> wrap64 x = x.
Proof. intros H. unfold wrap64. apply Z.mod_small. exact H. Qed.

Lemma le_bytes_length (n : nat) (v : Z) : length (le_bytes n v) = n.
Proof. unfold le_bytes. rewrite length_map, length_seq. reflexivity. Qed.

Lemma le_bytes_S (n : nat) (v : Z) :
  le_bytes (S n) v = Z.land v 255 :: le_bytes n (Z.shiftr v 8).
Proof.
  unfold le_bytes. cbn [seq map]. f_equal.
  rewrite <- seq_shift, map_map. apply map_ext. intros i.
  rewrite Z.shiftr_shiftr by lia. do 2 f_equal. lia.
Qed.

Lemma le_value_le_bytes (n : nat) (v : Z) :
  le_value (le_bytes n v) = v mod 2 ^ (8 * Z.of_nat n).
Proof.
  revert v. induction n as [|n IH]; intros v.
  - cbn. rewrite Z.mod_1_r. reflexivity.
  - rewrite le_bytes_S. cbn [le_value]. rewrite IH.
    change 255 with (Z.ones 8). rewrite Z.land_ones by lia.
    rewrite Z.shiftr_div_pow2 by lia.
    replace (8 * Z.of_nat (S n)) with (8 + 8 * Z.of_nat n) by lia.
    rewrite Z.pow_add_r by lia.
    rewrite Z.rem_mul_r by lia. reflexivity.
Qed.

Lemma le_bytes_bounded (n : nat) (v b : Z) :
  In b (le_bytes n v) -> 0 <= b < 256.
Proof.
  unfold le_bytes. rewrite in_map_iff. intros (i & <- & _).
  change 255 with (Z.ones 8). rewrite Z.land_ones by lia.
  apply Z.mod_pos_bound. lia.
Qed.

Lemma fold_left_push {A B : Type} (f : B -> A) (l : list B) (acc : list A) :
  fold_left (fun out i => out ++ [f i]) l acc = acc ++ map f l.
Proof.
  revert acc. induction l as [|x l IH]; intros acc; cbn.
  - rewrite app_nil_r. reflexivity.
  - rewrite IH, <- app_assoc. reflexivity.
Qed.

Lemma map_nth_seq {A : Type} (l : list A) (d : A) :
  map (fun i => nth i l d) (seq 0 (length l)) = l.
Proof.
  apply nth_ext with (d := d) (d' := d).
  - rewrite length_map, length_seq. reflexivity.
  - intros n Hn. rewrite length_map, length_seq in Hn.
    rewrite (nth_indep _ d (nth 0 l d)) by (rewrite length_map, length_seq; exact Hn).
    rewrite map_nth with (f := fun i => nth i l d).
    rewrite seq_nth by exact Hn. reflexivity.
Qed.

(** On either host [to_bytes] writes the value least significant byte first. *)
Lemma to_bytes_le_bytes (le : bool) (T : scalar) (v : Z) :
  to_bytes le T v = le_bytes (sizeof T) v.
Proof.
  unfold to_bytes, object_bytes. destruct le; rewrite fold_left_push; cbn [app].
  - pose proof (map_nth_seq (le_bytes (sizeof T) v) 0) as H.
    rewrite le_bytes_length in H. exact H.
  - pose proof (map_nth_seq (rev (le_bytes (sizeof T) v)) 0) as H.
    rewrite length_rev, le_bytes_length in H.
    rewrite map_rev, H. apply rev_involutive.
Qed.

Lemma fold_left_append {A B : Type} (g : B -> list A) (l : list B) (acc : list A) :
  fold_left (fun out i => out ++ g i) l acc = acc ++ flat_map g l.
Proof.
  revert acc. induction l as [|x l IH]; intros acc; cbn.
  - rewrite app_nil_r. reflexivity.
  - rewrite IH, <- app_assoc. reflexivity.
Qed.

Lemma fold_left_ext_in {A B : Type} (f g : A -> B -> A) (l : list B) (a : A) :
  (forall a x, In x l -> f a x = g a x) -> fold_left f l a = fold_left g l a.
Proof.
  revert a. induction l as [|x l IH]; intros a H; cbn; [reflexivity|].
  rewrite H by (left; reflexivity). apply IH.
  intros a' y Hy. apply H. right. exact Hy.
Qed.

Lemma nth_rev_mirror {A : Type} (l : list A) (d : A) (i : nat) :
  (i < length l)%nat -> nth (length l - i - 1) (rev l) d = nth i l d.
Proof.
  intros Hi. rewrite rev_nth by lia. f_equal. lia.
Qed.

(** On either host [to_bits] emits the bytes least significant first, each
    byte most significant bit first. *)
Lemma to_bits_flat_map (le : bool) (T : scalar) (v : Z) :
  to_bits le T v = flat_map byte_bits (le_bytes (sizeof T) v).
Proof.
  unfold to_bits.
  rewrite fold_left_ext_in with
    (g := fun out i => out ++ byte_bits (nth i (le_bytes (sizeof T) v) 0)).
  - rewrite fold_left_append. cbn [app].
    pose proof (map_nth_seq (le_bytes (sizeof T) v) 0) as H.
    rewrite le_bytes_length in H.
    replace (flat_map byte_bits (le_bytes (sizeof T) v)) with
      (flat_map byte_bits
         (map (fun i => nth i (le_bytes (sizeof T) v) 0) (seq 0 (sizeof T))))
      by (rewrite H; reflexivity).
    rewrite !flat_map_concat_map, map_map. reflexivity.
  - intros out i Hi. apply in_seq in Hi. rewrite fold_left_push.
    unfold byte_bits, object_bytes. destruct le; [reflexivity|].
    pose proof (nth_rev_mirror (le_bytes (sizeof T) v) 0 i) as H.
    rewrite le_bytes_length in H. rewrite H by lia. reflexivity.
Qed.

Lemma interpret_mod (T : scalar) (v : Z) :
  in_range T v -> interpret T (v mod 2 ^ bits_of_type T) = v.
Proof.
  unfold in_range, interpret, bits_of_type.
  destruct (is_signed T); cbn [andb]; intros H.
  - destruct (sizeof T) as [|n]; [cbn in H; lia|].
    set (w := 8 * Z.of_nat (S n)) in *.
    assert (Hw : 2 ^ w = 2 * 2 ^ (w - 1)).
    { rewrite <- Z.pow_succ_r by lia. f_equal. lia. }
    assert (Hp : 0 < 2 ^ (w - 1)) by (apply Z.pow_pos_nonneg; lia).
    destruct (Z.lt_ge_cases v 0) as [Hv|Hv].
    + assert (Hm : v + 2 ^ w = v mod 2 ^ w)
        by (apply (Z.mod_unique_pos v (2 ^ w) (-1)); lia).
      rewrite <- Hm.
      destruct (Z.leb_spec (2 ^ (w - 1)) (v + 2 ^ w)); lia.
    + rewrite Z.mod_small by lia.
      destruct (Z.leb_spec (2 ^ (w - 1)) v); lia.
  - apply Z.mod_small. exact H.
Qed.

Lemma vec_at_middle {A : Type} (pre post : list A) (x : A) :
  vec_at (pre ++ x :: post) (Z.of_nat (length pre)) = Ok x.
Proof.
  unfold vec_at. rewrite Nat2Z.id, list_lookup_middle by reflexivity. reflexivity.
Qed.

Lemma nth_insert_eq {A : Type} (l : list A) (k : nat) (x d : A) :
  (k < length l)%nat -> nth k (<[k := x]> l) d = x.
Proof.
  intros Hk. rewrite nth_lookup, list_lookup_insert_eq by exact Hk. reflexivity.
Qed.

Lemma nth_insert_ne {A : Type} (l : list A) (k j : nat) (x d : A) :
  k <> j -> nth j (<[k := x]> l) d = nth j l d.
Proof.
  intros Hk. rewrite !nth_lookup, list_lookup_insert_ne by exact Hk. reflexivity.
Qed.

Lemma insert_nth_id {A : Type} (l : list A) (k : nat) (d : A) :
  <[k := nth k l d]> l = l.
Proof.
  destruct (Nat.lt_ge_cases k (length l)) as [Hk|Hk].
  - apply list_insert_id. rewrite nth_lookup.
    destruct (lookup_lt_is_Some_2 l k Hk) as [x ->]. reflexivity.
  - apply list_insert_ge. exact Hk.
Qed.

Lemma byte_bits_length (B : Z) : length (byte_bits B) = 8%nat.
Proof. reflexivity. Qed.

Lemma flat_map_byte_bits_length (bytes : list Z) :
  length (flat_map byte_bits bytes) = (8 * length bytes)%nat.
Proof.
  induction bytes as [|B bytes IH]; [reflexivity|].
  cbn [flat_map]. rewrite length_app, IH, byte_bits_length. cbn [length]. lia.
Qed.

Lemma set_bits_byte_bits (B : Z) :
  0 <= B < 256 -> set_bits 0 (seq 0 8) (byte_bits B) = B.
Proof.
  intros HB.
  assert (Hall : forallb
            (fun n => set_bits 0 (seq 0 8) (byte_bits (Z.of_nat n)) =? Z.of_nat n)
            (seq 0 256) = true) by (vm_compute; reflexivity).
  rewrite forallb_forall in Hall.
  specialize (Hall (Z.to_nat B)). rewrite Z2Nat.id in Hall by lia.
  apply Z.eqb_eq, Hall, in_seq. lia.
Qed.

Lemma from_bits_bit_step (pre post : list bool) (b : bool) (k j : nat)
    (out : list Z) :
  from_bits_bit (pre ++ b :: post) k (out, Z.of_nat (length pre)) j
  = Ok (<[k := set_bit (nth k out 0) j b]> out, wrap64 (Z.of_nat (length pre) + 1)).
Proof.
  unfold from_bits_bit. rewrite vec_at_middle. destruct b; reflexivity.
Qed.

(** The inner loop of [from_bits] reads the bits [bs] that follow [pre]. *)
Lemma from_bits_bit_run (k : nat) (js : list nat) :
  forall (bs pre post : list bool) (out : list Z),
    vec_size (pre ++ bs ++ post) < 2 ^ 64 ->
    length bs = length js ->
    (k < length out)%nat ->
    foldM (from_bits_bit (pre ++ bs ++ post) k) (out, Z.of_nat (length pre)) js
    = Ok (<[k := set_bits (nth k out 0) js bs]> out,
          Z.of_nat (length pre + length bs)).
Proof.
  induction js as [|j js IH]; intros bs pre post out Hsize Hlen Hk.
  - destruct bs; [|discriminate]. cbn [foldM set_bits length].
    rewrite insert_nth_id, Nat.add_0_r. reflexivity.
  - destruct bs as [|b bs]; [discriminate|]. cbn [foldM set_bits app].
    rewrite from_bits_bit_step. run_bind.
    assert (Hpre : wrap64 (Z.of_nat (length pre) + 1)
                   = Z.of_nat (length (pre ++ [b]))).
    { rewrite length_app. cbn [length]. rewrite wrap64_small; [lia|].
      unfold vec_size in Hsize. rewrite !length_app in Hsize.
      cbn [length] in Hsize. lia. }
    rewrite Hpre.
    replace (pre ++ b :: bs ++ post) with ((pre ++ [b]) ++ bs ++ post) in *
      by (rewrite <- app_assoc; reflexivity).
    rewrite (IH bs (pre ++ [b]) post).
    + rewrite list_insert_insert_eq, nth_insert_eq by exact Hk.
      rewrite length_app. cbn [length]. do 2 f_equal. lia.
    + rewrite <- app_assoc. exact Hsize.
    + cbn [length] in Hlen. lia.
    + rewrite length_insert. exact Hk.
Qed.

(** The outer loop of [from_bits] stores the bytes spelled by the bits that
    follow [pre], byte [i] of the stream at [byte_index i] of the object. *)
Lemma from_bits_byte_run (le : bool) (T : scalar) (bytes : list Z) :
  forall (data : list bool) (a : nat) (pre post : list bool) (out : list Z),
    data = pre ++ flat_map byte_bits bytes ++ post ->
    vec_size data < 2 ^ 64 ->
    length out = sizeof T ->
    (a + length bytes = sizeof T)%nat ->
    Forall (fun B => 0 <= B < 256) bytes ->
    (forall i, (a <= i < sizeof T)%nat -> nth (byte_index le T i) out 0 = 0) ->
    exists out',
      foldM (from_bits_byte le T data) (out, Z.of_nat (length pre))
        (seq a (length bytes))
      = Ok (out', Z.of_nat (length pre + 8 * length bytes))
      /\ length out' = sizeof T
      /\ (forall i, (i < a)%nat ->
            nth (byte_index le T i) out' 0 = nth (byte_index le T i) out 0)
      /\ (forall i, (a <= i < sizeof T)%nat ->
            nth (byte_index le T i) out' 0 = nth (i - a) bytes 0).
Proof.
  induction bytes as [|B bytes IH];
    intros data a pre post out Hdata Hsize Hout Ha Hrange Hzero.
  - exists out. cbn [length seq foldM]. rewrite Nat.mul_0_r, Nat.add_0_r.
    repeat split; try assumption; try reflexivity.
    cbn [length] in Ha. intros i Hi. lia.
  - cbn [length] in Ha. cbn [length seq foldM].
    assert (Hka : (byte_index le T a < length out)%nat)
      by (unfold byte_index; destruct le; lia).
    assert (Hstep : from_bits_byte le T data (out, Z.of_nat (length pre)) a
              = Ok (<[byte_index le T a := B]> out,
                    Z.of_nat (length (pre ++ byte_bits B)))).
    { unfold from_bits_byte. fold (byte_index le T a).
      cbn [flat_map] in Hdata. rewrite <- app_assoc in Hdata.
      rewrite Hdata. rewrite from_bits_bit_run.
      - rewrite Hzero by lia. rewrite set_bits_byte_bits.
        + rewrite length_app. reflexivity.
        + inversion Hrange; assumption.
      - rewrite <- Hdata. exact Hsize.
      - reflexivity.
      - exact Hka. }
    rewrite Hstep. run_bind.
    destruct (IH data (S a) (pre ++ byte_bits B) post
                (<[byte_index le T a := B]> out))
      as (out' & Hrun & Hlen & Hold & Hnew).
    + rewrite Hdata. cbn [flat_map]. rewrite <- !app_assoc. reflexivity.
    + exact Hsize.
    + rewrite length_insert. exact Hout.
    + lia.
    + inversion Hrange; assumption.
    + intros i Hi. rewrite nth_insert_ne.
      * apply Hzero. lia.
      * unfold byte_index. destruct le; lia.
    + exists out'. split; [|split; [exact Hlen|split]].
      * rewrite Hrun. rewrite length_app, byte_bits_length.
        do 2 f_equal. lia.
      * intros i Hi. rewrite Hold by lia. apply nth_insert_ne.
        unfold byte_index. destruct le; lia.
      * intros i Hi. destruct (Nat.eq_dec i a) as [->|Hne].
        -- rewrite Hold by lia. rewrite nth_insert_eq by exact Hka.
           rewrite Nat.sub_diag. reflexivity.
        -- rewrite Hnew by lia.
           replace (i - a)%nat with (S (i - S a)) by lia. reflexivity.
Qed.

(** [from_bits] reads back the number spelled by the bytes in the stream. *)
Lemma from_bits_decodes (le : bool) (T : scalar) (bytes : list Z)
    (pre post : list bool) :
  vec_size (pre ++ flat_map byte_bits bytes ++ post) < 2 ^ 64 ->
  length bytes = sizeof T ->
  Forall (fun B => 0 <= B < 256) bytes ->
  from_bits le T (pre ++ flat_map byte_bits bytes ++ post) (Z.of_nat (length pre))
  = Ok (interpret T (le_value bytes)).
Proof.
  intros Hsize Hlen Hrange. unfold from_bits.
  set (data := pre ++ flat_map byte_bits bytes ++ post) in *.
  assert (Hlendata : vec_size data
            = Z.of_nat (length pre) + 8 * Z.of_nat (sizeof T)
              + Z.of_nat (length post)).
  { unfold vec_size, data.
    rewrite !length_app, flat_map_byte_bits_length, Hlen. lia. }
  rewrite wrap64_small by lia.
  destruct (Z.ltb_spec (vec_size data - Z.of_nat (length pre))
              (Z.of_nat (sizeof T) * 8)) as [Hlt|_]; [lia|].
  destruct (from_bits_byte_run le T bytes data 0 pre post
              (replicate (sizeof T) 0))
    as (out' & Hrun & Hlen' & _ & Hnew).
  - reflexivity.
  - exact Hsize.
  - apply length_replicate.
  - lia.
  - exact Hrange.
  - intros i Hi. rewrite nth_lookup, lookup_replicate_2; [reflexivity|].
    unfold byte_index. destruct le; lia.
  - rewrite Hlen in Hrun. rewrite Hrun. cbn [mbind result_bind bind fst].
    f_equal. unfold object_value. do 2 f_equal.
    apply nth_ext with (d := 0) (d' := 0).
    + destruct le; rewrite ?length_rev; lia.
    + intros i Hi.
      assert (Hi' : (i < sizeof T)%nat) by (destruct le; rewrite ?length_rev in Hi; lia).
      rewrite <- (Nat.sub_0_r i) at 2. rewrite <- Hnew by lia.
      unfold byte_index. destruct le; [reflexivity|].
      rewrite rev_nth by lia. f_equal. lia.
Qed.

Lemma vec_at_inside {A : Type} (pre mid post : list A) (i : nat) (d : A) :
  (i < length mid)%nat ->
  vec_at (pre ++ mid ++ post) (Z.of_nat (length pre + i)) = Ok (nth i mid d).
Proof.
  intros Hi. unfold vec_at. rewrite Nat2Z.id.
  rewrite lookup_app_r by lia. rewrite lookup_app_l by lia.
  replace (length pre + i - length pre)%nat with i by lia.
  rewrite nth_lookup. destruct (lookup_lt_is_Some_2 mid i Hi) as [x ->].
  reflexivity.
Qed.

(** Both copy loops of [from_bytes] store byte [start + i] of the input at
    offset [i] of the object, whatever the order of the indices. *)
Lemma from_bytes_body_run (pre bytes post : list Z) (idxs : list nat) :
  forall out : list Z,
    vec_size (pre ++ bytes ++ post) < 2 ^ 64 ->
    length out = length bytes ->
    Forall (fun i => (i < length bytes)%nat) idxs ->
    exists out',
      foldM (from_bytes_body (pre ++ bytes ++ post) (Z.of_nat (length pre)))
        out idxs = Ok out'
      /\ length out' = length bytes
      /\ (forall j, In j idxs -> nth j out' 0 = nth j bytes 0)
      /\ (forall j, ~ In j idxs -> nth j out' 0 = nth j out 0).
Proof.
  induction idxs as [|i idxs IH]; intros out Hsize Hout Hidx.
  - exists out. cbn [foldM]. repeat split; try assumption.
    intros j [].
  - inversion Hidx as [|? ? Hi Hidx']; subst. cbn [foldM].
    assert (Hstep : from_bytes_body (pre ++ bytes ++ post)
                      (Z.of_nat (length pre)) out i
                    = Ok (<[i := nth i bytes 0]> out)).
    { unfold from_bytes_body. rewrite wrap64_small.
      - rewrite <- Nat2Z.inj_add, (vec_at_inside pre bytes post i 0) by exact Hi.
        reflexivity.
      - unfold vec_size in Hsize. rewrite !length_app in Hsize. lia. }
    rewrite Hstep. run_bind.
    destruct (IH (<[i := nth i bytes 0]> out)) as (out' & Hrun & Hlen & Hin & Hout');
      [exact Hsize | rewrite length_insert; exact Hout | exact Hidx' |].
    exists out'. split; [exact Hrun|]. split; [exact Hlen|]. split.
    + intros j Hj. destruct (in_dec Nat.eq_dec j idxs) as [Hjin|Hjout].
      * apply Hin. exact Hjin.
      * destruct Hj as [->|Hj]; [|contradiction].
        rewrite Hout' by exact Hjout. apply nth_insert_eq. lia.
    + intros j Hj. rewrite Hout'.
      * apply nth_insert_ne. intros ->. apply Hj. left. reflexivity.
      * intros Hjin. apply Hj. right. exact Hjin.
Qed.

(** [from_bytes] copies [sizeof T] bytes into the object unchanged, on either
    host, and returns the value the host reads from that object. *)
Lemma from_bytes_reads (le : bool) (T : scalar) (pre bytes post : list Z) :
  vec_size (pre ++ bytes ++ post) < 2 ^ 64 ->
  length bytes = sizeof T ->
  from_bytes le T (pre ++ bytes ++ post) (Z.of_nat (length pre))
  = Ok (object_value le T bytes).
Proof.
  intros Hsize Hlen. unfold from_bytes.
  assert (Hlendata : vec_size (pre ++ bytes ++ post)
            = Z.of_nat (length pre) + Z.of_nat (sizeof T)
              + Z.of_nat (length post)).
  { unfold vec_size. rewrite !length_app, Hlen. lia. }
  rewrite wrap64_small by lia.
  destruct (Z.ltb_spec (vec_size (pre ++ bytes ++ post) - Z.of_nat (length pre))
              (Z.of_nat (sizeof T))) as [Hlt|_]; [lia|].
  assert (Hseq : Forall (fun i => (i < length bytes)%nat) (seq 0 (sizeof T))).
  { apply Stdlib.Lists.List.Forall_forall. intros i Hi. apply in_seq in Hi. lia. }
  assert (Hrev : Forall (fun i => (i < length bytes)%nat) (rev (seq 0 (sizeof T)))).
  { apply Stdlib.Lists.List.Forall_forall. intros i Hi. apply in_rev, in_seq in Hi. lia. }
  assert (Hfin : forall idxs out',
             (forall j, (j < sizeof T)%nat -> In j idxs) ->
             length out' = length bytes ->
             (forall j, In j idxs -> nth j out' 0 = nth j bytes 0) ->
             out' = bytes).
  { intros idxs out' Hall Hlen' Hin. apply nth_ext with (d := 0) (d' := 0).
    - exact Hlen'.
    - intros j Hj. apply Hin, Hall. lia. }
  destruct le.
  - destruct (from_bytes_body_run pre bytes post (seq 0 (sizeof T))
                (replicate (sizeof T) 0) Hsize)
      as (out' & -> & Hlen' & Hin & _);
      [rewrite length_replicate; lia | exact Hseq |].
    run_bind. do 2 f_equal.
    apply (Hfin (seq 0 (sizeof T))); try assumption.
    intros j Hj. apply in_seq. lia.
  - destruct (from_bytes_body_run pre bytes post (rev (seq 0 (sizeof T)))
                (replicate (sizeof T) 0) Hsize)
      as (out' & -> & Hlen' & Hin & _);
      [rewrite length_replicate; lia | exact Hrev |].
    run_bind. do 2 f_equal.
    apply (Hfin (rev (seq 0 (sizeof T)))); try assumption.
    intros j Hj. apply -> in_rev. apply in_seq. lia.
Qed.

(** ** Primitive round trips *)

(** [from_bits] inverts [to_bits] on either host. *)
Lemma from_bits_to_bits (le : bool) (T : scalar) (v : Z) :
  in_range T v ->
  bits_of_type T < 2 ^ 64 ->
  from_bits le T (to_bits le T v) 0 = Ok v.
Proof.
  intros Hv Hw. rewrite to_bits_flat_map.
  pose proof (from_bits_decodes le T (le_bytes (sizeof T) v) [] []) as H.
  cbn [app length] in H. change (Z.of_nat 0) with 0 in H.
  rewrite app_nil_r in H. rewrite H.
  - rewrite le_value_le_bytes. f_equal. apply interpret_mod. exact Hv.
  - unfold vec_size. rewrite flat_map_byte_bits_length, le_bytes_length.
    unfold bits_of_type in Hw. lia.
  - apply le_bytes_length.
  - apply Stdlib.Lists.List.Forall_forall. intros b Hb. eapply le_bytes_bounded. exact Hb.
Qed.

(** On a little-endian host [from_bytes] inverts [to_bytes]. *)
Lemma from_bytes_to_bytes_little_endian (T : scalar) (v : Z) :
  in_range T v ->
  Z.of_nat (sizeof T) < 2 ^ 64 ->
  from_bytes true T (to_bytes true T v) 0 = Ok v.
Proof.
  intros Hv Hw. rewrite to_bytes_le_bytes.
  pose proof (from_bytes_reads true T [] (le_bytes (sizeof T) v) []) as H.
  cbn [app length] in H. change (Z.of_nat 0) with 0 in H.
  rewrite app_nil_r in H. rewrite H.
  - unfold object_value. rewrite le_value_le_bytes. f_equal.
    apply interpret_mod. exact Hv.
  - unfold vec_size. rewrite le_bytes_length. exact Hw.
  - apply le_bytes_length.
Qed.

(** ** The working collection of [encode] *)

Lemma reinsert_split (parent : Enc.Node) (nodes : list Enc.Node) :
  exists pre post,
    nodes = pre ++ post
    /\ reinsert parent nodes = pre ++ parent :: post
    /\ Forall (fun n => Enc.freq parent < Enc.freq n) pre
    /\ match post with
       | [] => True
       | it :: _ => Enc.freq it <= Enc.freq parent
       end.
Proof.
  induction nodes as [|it rest IH]; cbn [reinsert].
  - exists [], []. repeat split. constructor.
  - destruct (Z.leb_spec (Enc.freq it) (Enc.freq parent)) as [Hle|Hgt].
    + exists [], (it :: rest). repeat split; [constructor | exact Hle].
    + destruct IH as (pre & post & Hnodes & Hre & Hpre & Hpost).
      exists (it :: pre), post. rewrite Hre, Hnodes.
      repeat split; [constructor; assumption | exact Hpost].
Qed.

Lemma reinsert_perm (parent : Enc.Node) (nodes : list Enc.Node) :
  Permutation (parent :: nodes) (reinsert parent nodes).
Proof.
  destruct (reinsert_split parent nodes) as (pre & post & -> & -> & _).
  apply Permutation_middle.
Qed.

Lemma ordered_app_inv (l1 l2 : list Enc.Node) :
  ordered (l1 ++ l2) -> ordered l1 /\ ordered l2.
Proof.
  unfold ordered. induction l1 as [|x l1 IH]; cbn [app]; intros H.
  - split; [constructor | exact H].
  - inversion H as [|? ? Hs Hall]; subst. destruct (IH Hs) as [H1 H2].
    split; [|exact H2]. constructor; [exact H1|].
    rewrite Forall_app in Hall. apply Hall.
Qed.

Lemma reinsert_ordered (parent : Enc.Node) (nodes : list Enc.Node) :
  ordered nodes ->
  placed_before_ties parent (reinsert parent nodes)
  /\ ordered (reinsert parent nodes).
Proof.
  intros Hord.
  destruct (reinsert_split parent nodes) as (pre & post & Hn & Hre & Hpre & Hpost).
  assert (Hpost' : Forall (fun n => Enc.freq n <= Enc.freq parent) post).
  { subst nodes. apply ordered_app_inv in Hord as [_ Hord].
    destruct post as [|it post]; [constructor|].
    inversion Hord as [|? ? _ Hall]; subst. constructor; [exact Hpost|].
    eapply Forall_impl; [exact Hall|]. unfold by_freq_desc. intros x Hx. lia. }
  split.
  - exists pre, post. repeat split; assumption.
  - rewrite Hre. subst nodes. clear Hre Hpost.
    unfold ordered in *. induction pre as [|x pre IH]; cbn [app] in *.
    + constructor; [exact Hord|]. exact Hpost'.
    + inversion Hord as [|? ? Hs Hall]; subst.
      inversion Hpre as [|? ? Hx Hpre']; subst.
      constructor; [apply IH; assumption|].
      rewrite Forall_app in Hall. destruct Hall as [Hall1 Hall2].
      rewrite Forall_app. split; [exact Hall1|].
      constructor; [unfold by_freq_desc; lia | exact Hall2].
Qed.

Lemma pop_back_snoc {A : Type} (l : list A) (x : A) :
  pop_back (l ++ [x]) = Some (l, x).
Proof.
  unfold pop_back. rewrite rev_app_distr. cbn [rev app].
  rewrite rev_involutive. reflexivity.
Qed.

Lemma pop_back_Some {A : Type} (l rest : list A) (x : A) :
  pop_back l = Some (rest, x) -> l = rest ++ [x].
Proof.
  unfold pop_back. destruct (rev l) as [|y r] eqn:Hrev; [discriminate|].
  intros [= <- <-]. rewrite <- (rev_involutive l), Hrev. reflexivity.
Qed.

Lemma pop_back_None {A : Type} (l : list A) : pop_back l = None -> l = [].
Proof.
  unfold pop_back. destruct (rev l) as [|y r] eqn:Hrev; [|discriminate].
  intros _. rewrite <- (rev_involutive l), Hrev. reflexivity.
Qed.

(** One turn of the loop takes the last node as [l] and the one before it
    as [r]. *)
Lemma merge_step_merges (rest : list Enc.Node) (r l : Enc.Node)
    (lut : gmap Z (list bool)) :
  merge_step (rest ++ [r; l]) lut
  = Ok (Some (reinsert (Enc.Node_merge l r) rest,
              fold_left (lut_push true) (Enc.values r)
                (fold_left (lut_push false) (Enc.values l) lut))).
Proof.
  unfold merge_step.
  change (rest ++ [r; l]) with (rest ++ [r] ++ [l]).
  rewrite app_assoc, pop_back_snoc, pop_back_snoc. reflexivity.
Qed.

Lemma merge_step_inv (nodes nodes' : list Enc.Node) (lut lut' : gmap Z (list bool)) :
  merge_step nodes lut = Ok (Some (nodes', lut')) ->
  exists rest r l,
    nodes = rest ++ [r; l]
    /\ nodes' = reinsert (Enc.Node_merge l r) rest
    /\ lut' = fold_left (lut_push true) (Enc.values r)
                (fold_left (lut_push false) (Enc.values l) lut).
Proof.
  unfold merge_step.
  destruct (pop_back nodes) as [[rest1 l]|] eqn:H1; [|discriminate].
  destruct (pop_back rest1) as [[rest r]|] eqn:H2; [|discriminate].
  intros [= <- <-]. exists rest, r, l.
  apply pop_back_Some in H1, H2. subst.
  rewrite <- app_assoc. repeat split.
Qed.

Lemma merge_step_break (nodes : list Enc.Node) (lut : gmap Z (list bool)) :
  merge_step nodes lut = Ok None -> exists root, nodes = [root].
Proof.
  unfold merge_step.
  destruct (pop_back nodes) as [[rest1 l]|] eqn:H1; [|discriminate].
  destruct (pop_back rest1) as [[rest r]|] eqn:H2; [discriminate|].
  intros _. apply pop_back_Some in H1. apply pop_back_None in H2.
  subst. exists l. reflexivity.
Qed.

(** The insertion step of the sort and the re-insertion of the merge loop
    are one and the same walk. *)
Lemma sort_insert_reinsert (x : Enc.Node) (l : list Enc.Node) :
  sort_insert (fun l r => Enc.freq r <? Enc.freq l) x l = reinsert x l.
Proof.
  induction l as [|y l IH]; cbn [sort_insert reinsert]; [reflexivity|].
  rewrite Z.ltb_antisym.
  destruct (Enc.freq y <=? Enc.freq x); cbn [negb]; [reflexivity|].
  rewrite IH. reflexivity.
Qed.

Lemma list_sort_ordered (l : list Enc.Node) :
  ordered (list_sort (fun l r => Enc.freq r <? Enc.freq l) l).
Proof.
  unfold list_sort. induction l as [|x l IH]; cbn [foldr].
  - constructor.
  - rewrite sort_insert_reinsert. apply reinsert_ordered. exact IH.
Qed.

Lemma list_sort_perm (l : list Enc.Node) :
  Permutation l (list_sort (fun l r => Enc.freq r <? Enc.freq l) l).
Proof.
  unfold list_sort. induction l as [|x l IH]; cbn [foldr].
  - constructor.
  - rewrite sort_insert_reinsert. rewrite <- reinsert_perm.
    constructor. exact IH.
Qed.

(** The collection [encode] starts its merge loop with is ordered. *)
Lemma initial_nodes_ordered (data : list Z) : ordered (initial_nodes data).
Proof. apply list_sort_ordered. Qed.

(** ** The code table *)

Lemma lut_push_same (b : bool) (lut : gmap Z (list bool)) (v : Z) :
  lut_push b lut v !!! v = lut !!! v ++ [b].
Proof. unfold lut_push. apply lookup_total_insert_eq. Qed.

Lemma lut_push_other (b : bool) (lut : gmap Z (list bool)) (v x : Z) :
  v <> x -> lut_push b lut v !!! x = lut !!! x.
Proof. intros H. unfold lut_push. apply lookup_total_insert_ne. exact H. Qed.

Lemma fold_lut_push_notin (b : bool) (x : Z) (vs : list Z) :
  forall lut : gmap Z (list bool),
    x ∉ vs -> fold_left (lut_push b) vs lut !!! x = lut !!! x.
Proof.
  induction vs as [|v vs IH]; intros lut Hx; cbn [fold_left]; [reflexivity|].
  apply not_elem_of_cons in Hx as [Hne Hx].
  rewrite IH by exact Hx. apply lut_push_other. congruence.
Qed.

Lemma fold_lut_push_in (b : bool) (x : Z) (vs : list Z) :
  forall lut : gmap Z (list bool),
    NoDup vs -> x ∈ vs ->
    fold_left (lut_push b) vs lut !!! x = lut !!! x ++ [b].
Proof.
  induction vs as [|v vs IH]; intros lut Hnd Hx; [inversion Hx|].
  cbn [fold_left]. apply NoDup_cons in Hnd as [Hv Hnd].
  apply elem_of_cons in Hx as [->|Hx].
  - rewrite fold_lut_push_notin by exact Hv. apply lut_push_same.
  - rewrite IH by assumption. f_equal. apply lut_push_other.
    intros ->. contradiction.
Qed.

(** ** The frequency table *)

Lemma map_incr_keys (k : Z) (m : list (Z * Z)) :
  StronglySorted Z.lt (map fst m) ->
  StronglySorted Z.lt (map fst (map_incr k m))
  /\ (forall x, In x (map fst (map_incr k m)) <-> x = k \/ In x (map fst m)).
Proof.
  induction m as [|[k' c] m IH]; cbn [map_incr map fst]; intros Hs.
  - split.
    + repeat constructor.
    + intros x. cbn. intuition.
  - inversion Hs as [|? ? Hs' Hall]; subst.
    destruct (Z.ltb_spec k k') as [Hlt|Hge].
    + split.
      * cbn [map fst]. constructor; [exact Hs|].
        constructor; [exact Hlt|].
        eapply Forall_impl; [exact Hall|]. intros y Hy. lia.
      * intros x. cbn. intuition.
    + destruct (Z.ltb_spec k' k) as [Hlt'|Hge'].
      * destruct (IH Hs') as [IHs IHin]. split.
        -- cbn [map fst]. constructor; [exact IHs|].
           apply Stdlib.Lists.List.Forall_forall. intros y Hy.
           apply IHin in Hy as [->|Hy]; [exact Hlt'|].
           rewrite Stdlib.Lists.List.Forall_forall in Hall. apply Hall, Hy.
        -- intros x. cbn [map fst In]. rewrite IHin. intuition.
      * assert (k = k') by lia. subst k'. split.
        -- cbn [map fst]. exact Hs.
        -- intros x. cbn. intuition.
Qed.

Lemma freq_table_keys_from (data : list Z) :
  forall m : list (Z * Z),
    StronglySorted Z.lt (map fst m) ->
    StronglySorted Z.lt (map fst (fold_left (fun m x => map_incr x m) data m))
    /\ (forall x, In x (map fst (fold_left (fun m x => map_incr x m) data m))
                  <-> In x data \/ In x (map fst m)).
Proof.
  induction data as [|d data IH]; intros m Hs; cbn [fold_left].
  - split; [exact Hs|]. intros x. cbn. intuition.
  - destruct (map_incr_keys d m Hs) as [Hs1 Hin1].
    destruct (IH _ Hs1) as [Hs2 Hin2]. split; [exact Hs2|].
    intros x. rewrite Hin2, Hin1. cbn [In]. intuition.
Qed.

Lemma sorted_lt_NoDup (l : list Z) : StronglySorted Z.lt l -> NoDup l.
Proof.
  induction 1 as [|x l Hs IH Hall]; constructor; [|exact IH].
  intros Hx. rewrite Forall_forall in Hall. specialize (Hall x Hx). lia.
Qed.

(** The table has one entry per distinct symbol of the input, in key order. *)
Lemma freq_table_keys (data : list Z) :
  StronglySorted Z.lt (map fst (freq_table data))
  /\ (forall x, In x (map fst (freq_table data)) <-> In x data).
Proof.
  destruct (freq_table_keys_from data []) as [Hs Hin]; [constructor|].
  split; [exact Hs|]. intros x. unfold freq_table. rewrite Hin. cbn. intuition.
Qed.

(** ** The invariant of the merge loop *)

Lemma proper_full (n : Enc.Node) : proper n -> full n.
Proof. induction 1; constructor; assumption. Qed.

Lemma merge_inv_perm (nodes nodes' : list Enc.Node) (lut : gmap Z (list bool)) :
  nodes ≡ₚ nodes' -> merge_inv nodes lut -> merge_inv nodes' lut.
Proof.
  intros Hp [H1 H2 H3]. split.
  - rewrite <- Hp. exact H1.
  - rewrite <- (Permutation_flat_map Enc.values Hp). exact H2.
  - intros n v Hn. apply H3. rewrite Hp. exact Hn.
Qed.

Lemma flat_map_values_leaves (m : list (Z * Z)) :
  flat_map Enc.values (map (fun it => Enc.Node_leaf it.1 it.2) m) = map fst m.
Proof.
  induction m as [|[k c] m IH]; [reflexivity|].
  cbn [map flat_map Enc.values Enc.Node_leaf fst app]. rewrite IH. reflexivity.
Qed.

Lemma merge_inv_initial (data : list Z) : merge_inv (initial_nodes data) ∅.
Proof.
  unfold initial_nodes.
  eapply merge_inv_perm; [apply list_sort_perm|]. split.
  - apply Forall_forall. intros n Hn. apply list_elem_of_In, in_map_iff in Hn.
    destruct Hn as ([k c] & <- & _). constructor.
  - rewrite flat_map_values_leaves. apply sorted_lt_NoDup, freq_table_keys.
  - intros n v Hn Hv. apply list_elem_of_In, in_map_iff in Hn.
    destruct Hn as ([k c] & <- & _). cbn in Hv.
    apply list_elem_of_singleton in Hv. subst v.
    unfold code. rewrite lookup_total_empty. constructor.
Qed.

Lemma merge_inv_step (rest : list Enc.Node) (r l : Enc.Node)
    (lut : gmap Z (list bool)) :
  merge_inv (rest ++ [r; l]) lut ->
  merge_inv (reinsert (Enc.Node_merge l r) rest)
    (fold_left (lut_push true) (Enc.values r)
       (fold_left (lut_push false) (Enc.values l) lut)).
Proof.
  intros [H1 H2 H3].
  eapply merge_inv_perm; [apply reinsert_perm|].
  rewrite Forall_app in H1. destruct H1 as [Hrest Hrl].
  inversion Hrl as [|? ? Hr Hl']; subst. inversion Hl' as [|? ? Hl _]; subst.
  rewrite flat_map_app in H2. cbn [flat_map] in H2. rewrite app_nil_r in H2.
  apply NoDup_app in H2 as (Hnd_rest & Hdisj & Hnd_rl).
  apply NoDup_app in Hnd_rl as (Hnd_r & Hdisj_rl & Hnd_l).
  set (lut' := fold_left (lut_push true) (Enc.values r)
                 (fold_left (lut_push false) (Enc.values l) lut)).
  assert (Hcode_l : forall v, v ∈ Enc.values l -> code lut' v = false :: code lut v).
  { intros v Hv. unfold code, lut'.
    rewrite fold_lut_push_notin by (intros Hvr; exact (Hdisj_rl v Hvr Hv)).
    rewrite fold_lut_push_in by assumption.
    rewrite rev_app_distr. reflexivity. }
  assert (Hcode_r : forall v, v ∈ Enc.values r -> code lut' v = true :: code lut v).
  { intros v Hv. unfold code, lut'.
    rewrite fold_lut_push_in by assumption.
    rewrite fold_lut_push_notin by (exact (Hdisj_rl v Hv)).
    rewrite rev_app_distr. reflexivity. }
  assert (Hcode_rest : forall n v, n ∈ rest -> v ∈ Enc.values n ->
                                   code lut' v = code lut v).
  { intros n v Hn Hv. unfold code, lut'.
    assert (Hin : v ∈ flat_map Enc.values rest).
    { apply list_elem_of_In, in_flat_map. exists n.
      split; apply list_elem_of_In; assumption. }
    specialize (Hdisj v Hin).
    rewrite !fold_lut_push_notin; [reflexivity| |];
      intros Hv'; apply Hdisj, elem_of_app; [right|left]; exact Hv'. }
  split.
  - constructor; [constructor; assumption | exact Hrest].
  - cbn [flat_map Enc.values Enc.Node_merge].
    apply NoDup_app. split; [|split; [|exact Hnd_rest]].
    + apply NoDup_app. split; [exact Hnd_l|]. split; [|exact Hnd_r].
      intros v Hvl Hvr. exact (Hdisj_rl v Hvr Hvl).
    + intros v Hv Hin. apply (Hdisj v Hin).
      apply elem_of_app in Hv. apply elem_of_app. tauto.
  - intros n v Hn Hv. apply elem_of_cons in Hn as [->|Hn].
    + cbn [Enc.values Enc.Node_merge] in Hv. unfold Enc.Node_merge.
      apply elem_of_app in Hv as [Hv|Hv].
      * rewrite Hcode_l by exact Hv. apply leads_first.
        apply H3; [|exact Hv]. apply elem_of_app. right. repeat constructor.
      * rewrite Hcode_r by exact Hv. apply leads_second.
        apply H3; [|exact Hv]. apply elem_of_app. right. repeat constructor.
    + rewrite (Hcode_rest n v Hn Hv).
      apply H3; [|exact Hv]. apply elem_of_app. left. exact Hn.
Qed.

Lemma nodes_shape (nodes : list Enc.Node) :
  nodes <> [] ->
  (exists root, nodes = [root]) \/ (exists rest r l, nodes = rest ++ [r; l]).
Proof.
  intros Hne. destruct (rev nodes) as [|l [|r rest]] eqn:Hrev.
  - apply (f_equal (@rev _)) in Hrev. rewrite rev_involutive in Hrev. contradiction.
  - left. exists l. rewrite <- (rev_involutive nodes), Hrev. reflexivity.
  - right. exists (rev rest), r, l.
    rewrite <- (rev_involutive nodes), Hrev. cbn [rev].
    rewrite <- app_assoc. reflexivity.
Qed.

(** With a turn of fuel per node the loop leaves through its [break], with
    a single node that holds every symbol the collection held. *)
Lemma merge_loop_total (fuel : nat) :
  forall (nodes : list Enc.Node) (lut : gmap Z (list bool)),
    merge_inv nodes lut ->
    nodes <> [] ->
    (length nodes <= fuel)%nat ->
    exists root lut',
      merge_loop fuel nodes lut = Ok ([root], lut')
      /\ merge_inv [root] lut'
      /\ Enc.values root ≡ₚ flat_map Enc.values nodes.
Proof.
  induction fuel as [|fuel IH]; intros nodes lut Hinv Hne Hfuel.
  - destruct nodes; [contradiction | cbn [length] in Hfuel; lia].
  - cbn [merge_loop]. destruct (nodes_shape nodes Hne) as [[root ->]|(rest & r & l & ->)].
    + exists root, lut. cbn. rewrite app_nil_r. repeat split; [apply Hinv..|].
      reflexivity.
    + rewrite merge_step_merges. run_bind.
      pose proof (merge_inv_step rest r l lut Hinv) as Hinv'.
      pose proof (reinsert_perm (Enc.Node_merge l r) rest) as Hperm.
      destruct (IH _ _ Hinv') as (root & lut' & Hrun & Hroot & Hvals).
      * intros Hnil. rewrite Hnil in Hperm.
        apply Permutation_nil_r in Hperm. discriminate.
      * rewrite <- (Permutation_length Hperm). cbn [length].
        rewrite length_app in Hfuel. cbn [length] in Hfuel. lia.
      * exists root, lut'. split; [exact Hrun|]. split; [exact Hroot|].
        rewrite Hvals, <- (Permutation_flat_map Enc.values Hperm).
        cbn [flat_map Enc.values Enc.Node_merge].
        rewrite flat_map_app. cbn [flat_map]. rewrite app_nil_r.
        rewrite (Permutation_app_comm (Enc.values l) (Enc.values r)).
        apply Permutation_app_comm.
Qed.

Lemma initial_nodes_values (data : list Z) (x : Z) :
  x ∈ flat_map Enc.values (initial_nodes data) <-> x ∈ data.
Proof.
  unfold initial_nodes.
  rewrite <- (Permutation_flat_map Enc.values (list_sort_perm _)).
  rewrite flat_map_values_leaves. rewrite !list_elem_of_In.
  apply freq_table_keys.
Qed.

(** [build] returns for every non-empty input; the root holds the symbols of
    the input and the table holds their paths. *)
Lemma build_ok (data : list Z) :
  data <> [] ->
  exists tree lut,
    build data = Ok (tree, lut)
    /\ merge_inv [tree] lut
    /\ (forall x, x ∈ Enc.values tree <-> x ∈ data).
Proof.
  intros Hne. unfold build.
  assert (Hnodes : initial_nodes data <> []).
  { intros Hnil. destruct data as [|d data]; [contradiction|].
    assert (Hd : d ∈ flat_map Enc.values (initial_nodes (d :: data)))
      by (apply initial_nodes_values; left).
    rewrite Hnil in Hd. inversion Hd. }
  destruct (merge_loop_total (S (length (initial_nodes data)))
              (initial_nodes data) ∅ (merge_inv_initial data) Hnodes)
    as (root & lut & Hrun & Hinv & Hvals); [lia|].
  exists root, lut. rewrite Hrun. run_bind.
  split; [reflexivity|]. split; [exact Hinv|].
  intros x. rewrite Hvals. apply initial_nodes_values.
Qed.

(** ** Codes are paths, and paths to leaves are prefix-free *)

Lemma leads_to_prefix (n : Enc.Node) (p q : list bool) (v w : Z) :
  leads_to n p v -> leads_to n (p ++ q) w -> q = [] /\ v = w.
Proof.
  intros H. revert q w.
  induction H as [v vs f l r | vs f l r p v H IH | vs f l r p v H IH];
    intros q w Hw; cbn [app] in Hw.
  - inversion Hw; subst. split; reflexivity.
  - inversion Hw; subst. apply IH. assumption.
  - inversion Hw; subst. apply IH. assumption.
Qed.

(** ** The payload loop of [decode] *)

Lemma decode_loop_code (tree cur m : Dec.Node) (p rest : list bool)
    (out : list Z) (v : Z) (vs : list Z) :
  descends cur p m -> Dec.end_ m = true -> Dec.values m = v :: vs ->
  decode_loop tree cur (p ++ rest) out = decode_loop tree tree rest (out ++ [v]).
Proof.
  intros Hd Hend Hvs. induction Hd as [n b c Hc | n b c p m Hc Hint Hd IH];
    cbn [app decode_loop]; fold (child n b); rewrite Hc.
  - rewrite Hend, Hvs. reflexivity.
  - rewrite Hint. apply IH; assumption.
Qed.

Lemma decode_loop_dangling (tree cur m : Dec.Node) (p : list bool) (out : list Z) :
  descends cur p m -> Dec.end_ m = false ->
  decode_loop tree cur p out = Ok out.
Proof.
  intros Hd Hend. induction Hd as [n b c Hc | n b c p m Hc Hint Hd IH];
    cbn [decode_loop]; fold (child n b); rewrite Hc.
  - rewrite Hend. reflexivity.
  - rewrite Hint. apply IH. exact Hend.
Qed.

Lemma decode_loop_codes (tree : Dec.Node) (codes : list (list bool))
    (syms : list Z) :
  Forall2 (decodes_to tree) codes syms ->
  forall (rest : list bool) (out : list Z),
    decode_loop tree tree (concat codes ++ rest) out
    = decode_loop tree tree rest (out ++ syms).
Proof.
  induction 1 as [|c v codes syms (m & vs & Hd & Hend & Hvs) _ IH];
    intros rest out; cbn [concat app].
  - rewrite app_nil_r. reflexivity.
  - rewrite <- app_assoc.
    rewrite (decode_loop_code tree tree m c _ out v vs Hd Hend Hvs).
    rewrite IH, <- app_assoc. reflexivity.
Qed.

(** ** Serialized trees are read back *)

Lemma parse_serialized (le : bool) (T : scalar) (n : Enc.Node) :
  proper n ->
  Forall (in_range T) (Enc.values n) ->
  exists bits,
    encode_tree le T n = Ok bits
    /\ forall (pre post : list bool) (fuel : nat),
         vec_size (pre ++ bits ++ post) < 2 ^ 64 ->
         (length bits <= fuel)%nat ->
         Node_parse le T fuel (pre ++ bits ++ post) (Z.of_nat (length pre))
         = Ok (to_dec n, Z.of_nat (length pre + length bits)).
Proof.
  induction 1 as [v f | l r Hl IHl Hr IHr]; intros Hrange.
  - exists ([true] ++ to_bits le T v). split; [reflexivity|].
    intros pre post fuel Hsize Hfuel.
    destruct fuel as [|fuel]; [cbn [length app] in Hfuel; lia|].
    cbn [Node_parse]. cbn [app]. rewrite vec_at_middle.
    run_bind.
    assert (Hlen : length (to_bits le T v) = (8 * sizeof T)%nat)
      by (rewrite to_bits_flat_map, flat_map_byte_bits_length, le_bytes_length;
          reflexivity).
    unfold vec_size in Hsize. rewrite !length_app in Hsize.
    cbn [length] in Hsize. rewrite Hlen in Hsize.
    assert (Hstart : wrap64 (Z.of_nat (length pre) + 1)
                     = Z.of_nat (length (pre ++ [true]))).
    { rewrite length_app. cbn [length]. rewrite wrap64_small; lia. }
    rewrite Hstart.
    replace (pre ++ true :: to_bits le T v ++ post)
      with ((pre ++ [true]) ++ to_bits le T v ++ post)
      by (rewrite <- app_assoc; reflexivity).
    rewrite to_bits_flat_map, from_bits_decodes.
    + run_bind. rewrite le_value_le_bytes, interpret_mod.
      * unfold Enc.Node_leaf. cbn [to_dec]. do 2 f_equal.
        rewrite <- to_bits_flat_map with (le := le).
        rewrite length_app. cbn [length]. rewrite Hlen.
        rewrite wrap64_small; lia.
      * inversion Hrange; assumption.
    + unfold vec_size. rewrite !length_app, flat_map_byte_bits_length,
        le_bytes_length. cbn [length]. lia.
    + apply le_bytes_length.
    + apply Stdlib.Lists.List.Forall_forall. intros b Hb.
      eapply le_bytes_bounded. exact Hb.
  - cbn [Enc.values Enc.Node_merge] in Hrange. apply Forall_app in Hrange as [Hrl Hrr].
    destruct (IHl Hrl) as (bl & Hbl & Hpl). destruct (IHr Hrr) as (br & Hbr & Hpr).
    exists ([false] ++ bl ++ br). split.
    { unfold Enc.Node_merge. cbn [encode_tree]. rewrite Hbl, Hbr. reflexivity. }
    intros pre post fuel Hsize Hfuel.
    destruct fuel as [|fuel]; [cbn [length app] in Hfuel; lia|].
    cbn [Node_parse]. cbn [app]. rewrite vec_at_middle.
    run_bind.
    unfold vec_size in Hsize. rewrite !length_app in Hsize.
    cbn [length] in Hsize. rewrite ?length_app in Hsize.
    cbn [length app] in Hfuel. rewrite length_app in Hfuel.
    assert (Hstart : wrap64 (Z.of_nat (length pre) + 1)
                     = Z.of_nat (length (pre ++ [false]))).
    { rewrite length_app. cbn [length]. rewrite wrap64_small; lia. }
    rewrite Hstart.
    replace (pre ++ false :: (bl ++ br) ++ post)
      with ((pre ++ [false]) ++ bl ++ (br ++ post))
      by (rewrite <- !app_assoc; reflexivity).
    rewrite Hpl.
    2:{ unfold vec_size. rewrite !length_app. cbn [length]. lia. }
    2:{ lia. }
    run_bind.
    replace ((pre ++ [false]) ++ bl ++ br ++ post)
      with (((pre ++ [false]) ++ bl) ++ br ++ post)
      by (rewrite <- !app_assoc; reflexivity).
    rewrite <- length_app. rewrite Hpr.
    2:{ unfold vec_size. rewrite !length_app. cbn [length]. lia. }
    2:{ lia. }
    run_bind. unfold Enc.Node_merge. cbn [to_dec].
    do 2 f_equal. rewrite !length_app. cbn [length]. rewrite length_app. lia.
Qed.

(** ** Paths of [encode]'s tree are codes in [decode]'s tree *)

Lemma leads_to_leaf (n : Enc.Node) (p : list bool) (v : Z) :
  leads_to n p v -> Enc.end_ n = true ->
  p = [] /\ exists vs, Enc.values n = v :: vs.
Proof.
  intros H Hend. inversion H; subst; try discriminate.
  split; [reflexivity|]. eexists. reflexivity.
Qed.

Lemma leads_to_decodes (n : Enc.Node) (p : list bool) (v : Z) :
  leads_to n p v -> Enc.end_ n = false -> decodes_to (to_dec n) p v.
Proof.
  induction 1 as [v vs f l r | vs f l r p v H IH | vs f l r p v H IH];
    intros Hend; [discriminate| |].
  - destruct (Enc.end_ l) eqn:Hl.
    + destruct (leads_to_leaf l p v H Hl) as [-> [ws Hws]].
      exists (to_dec l), ws. split; [|split].
      * apply descends_one. reflexivity.
      * destruct l. cbn in *. exact Hl.
      * destruct l. cbn in *. subst. reflexivity.
    + destruct (IH eq_refl) as (m & ws & Hd & Hm & Hws).
      exists m, ws. split; [|split; assumption].
      eapply descends_step; [reflexivity | | exact Hd].
      destruct l. cbn in *. exact Hl.
  - destruct (Enc.end_ r) eqn:Hr.
    + destruct (leads_to_leaf r p v H Hr) as [-> [ws Hws]].
      exists (to_dec r), ws. split; [|split].
      * apply descends_one. reflexivity.
      * destruct r. cbn in *. exact Hr.
      * destruct r. cbn in *. subst. reflexivity.
    + destruct (IH eq_refl) as (m & ws & Hd & Hm & Hws).
      exists m, ws. split; [|split; assumption].
      eapply descends_step; [reflexivity | | exact Hd].
      destruct r. cbn in *. exact Hr.
Qed.

(** ** The payload written by [encode] *)

Lemma emit_code (lut : gmap Z (list bool)) (out : list bool) (x : Z) :
  emit lut out x = out ++ code lut x.
Proof.
  unfold emit, code. rewrite fold_left_push. f_equal.
  rewrite map_rev, map_nth_seq. reflexivity.
Qed.

Lemma fold_emit (lut : gmap Z (list bool)) (data : list Z) :
  forall out : list bool,
    fold_left (emit lut) data out = out ++ concat (map (code lut) data).
Proof.
  induction data as [|x data IH]; intros out; cbn [fold_left map concat].
  - rewrite app_nil_r. reflexivity.
  - rewrite IH, emit_code, <- app_assoc. reflexivity.
Qed.

(** ** What [encode] returns *)

Lemma proper_leaf_values (n : Enc.Node) :
  proper n -> Enc.end_ n = true -> exists v, Enc.values n = [v].
Proof.
  intros [v f | l r _ _] Hend; [|discriminate]. exists v. reflexivity.
Qed.

(** For a non-empty input of symbols of type [T], [encode] returns the
    serialized tree followed by the codes of the symbols, in input order. *)
Lemma encode_ok (le : bool) (T : scalar) (data : list Z) :
  data <> [] ->
  Forall (in_range T) data ->
  exists tree lut bits,
    build data = Ok (tree, lut)
    /\ merge_inv [tree] lut
    /\ (forall x, x ∈ Enc.values tree <-> x ∈ data)
    /\ encode_tree le T tree = Ok bits
    /\ encode le T data = Ok (bits ++ concat (map (code lut) data))
    /\ forall (pre post : list bool) (fuel : nat),
         vec_size (pre ++ bits ++ post) < 2 ^ 64 ->
         (length bits <= fuel)%nat ->
         Node_parse le T fuel (pre ++ bits ++ post) (Z.of_nat (length pre))
         = Ok (to_dec tree, Z.of_nat (length pre + length bits)).
Proof.
  intros Hne Hrange.
  destruct (build_ok data Hne) as (tree & lut & Hbuild & Hinv & Hvals).
  assert (Hproper : proper tree).
  { pose proof (inv_proper _ _ Hinv) as H. inversion H; assumption. }
  assert (Hr : Forall (in_range T) (Enc.values tree)).
  { apply Forall_forall. intros x Hx. rewrite Forall_forall in Hrange.
    apply Hrange, Hvals, Hx. }
  destruct (parse_serialized le T tree Hproper Hr) as (bits & Hbits & Hparse).
  exists tree, lut, bits.
  split; [exact Hbuild|]. split; [exact Hinv|]. split; [exact Hvals|].
  split; [exact Hbits|]. split; [|exact Hparse].
  unfold encode. rewrite Hbuild. run_bind.
  rewrite Hbits. run_bind. rewrite fold_emit. reflexivity.
Qed.

(** Decoding inverts encoding on every input with at least two distinct
    symbols. *)
Theorem decode_encode_two_symbols (le : bool) (T : scalar) (data : list Z) :
  Forall (in_range T) data ->
  (exists x y, x ∈ data /\ y ∈ data /\ x <> y) ->
  exists out,
    encode le T data = Ok out
    /\ (vec_size out < 2 ^ 64 -> decode le T out = Ok data).
Proof.
  intros Hrange (x & y & Hx & Hy & Hxy).
  assert (Hne : data <> []) by (intros ->; inversion Hx).
  destruct (encode_ok le T data Hne Hrange)
    as (tree & lut & bits & Hbuild & Hinv & Hvals & Hbits & Henc & Hparse).
  exists (bits ++ concat (map (code lut) data)). split; [exact Henc|].
  intros Hsize. unfold decode.
  specialize (Hparse [] (concat (map (code lut) data))
                (S (length (bits ++ concat (map (code lut) data))))).
  cbn [app length Nat.add] in Hparse. change (Z.of_nat 0) with 0 in Hparse.
  rewrite Hparse; [|exact Hsize | rewrite length_app; lia].
  run_bind. rewrite Nat2Z.id, drop_app_length.
  assert (Hproper : proper tree).
  { pose proof (inv_proper _ _ Hinv) as H. inversion H; assumption. }
  assert (Hroot : Enc.end_ tree = false).
  { destruct (Enc.end_ tree) eqn:Hend; [|reflexivity].
    destruct (proper_leaf_values tree Hproper Hend) as [v Hv].
    apply Hvals in Hx, Hy. rewrite Hv in Hx, Hy.
    apply list_elem_of_singleton in Hx, Hy. congruence. }
  assert (Hcodes : Forall2 (decodes_to (to_dec tree)) (map (code lut) data) data).
  { assert (Hall : forall z, z ∈ data -> decodes_to (to_dec tree) (code lut z) z).
    { intros z Hz. apply leads_to_decodes; [|exact Hroot].
      apply (inv_codes _ _ Hinv); [left | apply Hvals; exact Hz]. }
    clear -Hall. induction data as [|d data IH]; cbn [map]; constructor.
    - apply Hall. left.
    - apply IH. intros z Hz. apply Hall. right. exact Hz. }
  pose proof (decode_loop_codes _ _ _ Hcodes [] []) as Hloop.
  rewrite app_nil_r in Hloop. rewrite Hloop. reflexivity.
Qed.

(** ** Framing: [write_data] and [read_data] *)

Lemma shiftr_128 (k : Z) : 0 <= k <= 7 -> Z.shiftr 128 k = 2 ^ (7 - k).
Proof.
  intros Hk. rewrite Z.shiftr_div_pow2 by lia. change 128 with (2 ^ 7).
  rewrite <- Z.pow_sub_r by lia. reflexivity.
Qed.

Lemma land_pow2_testbit (a m : Z) :
  0 <= m -> bool_of_int (Z.land a (2 ^ m)) = Z.testbit a m.
Proof.
  intros Hm. unfold bool_of_int. destruct (Z.testbit a m) eqn:Ha.
  - destruct (Z.eqb_spec (Z.land a (2 ^ m)) 0) as [H0|]; [|reflexivity].
    apply (f_equal (fun x => Z.testbit x m)) in H0.
    rewrite Z.land_spec, Ha, Z.pow2_bits_true, Z.bits_0 in H0 by lia.
    discriminate.
  - destruct (Z.eqb_spec (Z.land a (2 ^ m)) 0) as [|Hne]; [reflexivity|].
    exfalso. apply Hne. apply Z.bits_inj'. intros j Hj.
    rewrite Z.land_spec, Z.bits_0, Z.pow2_bits_eqb by lia.
    destruct (Z.eqb_spec m j) as [->|]; [rewrite Ha; reflexivity|].
    apply andb_false_r.
Qed.

Lemma write_loop_acc (data : list bool) :
  forall (i byte : Z) (pad : bool) (acc : list Z),
    write_loop data i byte pad acc = acc ++ write_loop data i byte pad [].
Proof.
  induction data as [|b data IH]; intros i byte pad acc; cbn [write_loop].
  - destruct pad; [reflexivity | rewrite app_nil_r; reflexivity].
  - destruct (i mod 8 =? 7).
    + rewrite IH, (IH _ _ _ ([] ++ _)). rewrite <- app_assoc. reflexivity.
    + apply IH.
Qed.

(** The reader, started where the writer is, reads back what the writer
    goes on to write. *)
Lemma read_write_loops (data : list bool) :
  forall (i byte_w : Z) (out : list bool),
    0 <= i ->
    low_zero byte_w (i mod 8) ->
    (i mod 8 = 0 ->
     forall byte_r,
       read_loop (length data) i byte_r (write_loop data i byte_w false []) out
       = Ok (out ++ data))
    /\ (i mod 8 <> 0 ->
        exists byte_f file,
          write_loop data i byte_w true [] = byte_f :: file
          /\ (forall j, 8 - i mod 8 <= j ->
                        Z.testbit byte_f j = Z.testbit byte_w j)
          /\ read_loop (length data) i byte_f file out = Ok (out ++ data)).
Proof.
  induction data as [|b data IH]; intros i byte_w out Hi Hlow.
  - cbn [length read_loop write_loop]. rewrite app_nil_r. split.
    + reflexivity.
    + intros _. exists byte_w, []. repeat split.
  - pose proof (Z.mod_pos_bound i 8 ltac:(lia)) as Hk.
    set (k := i mod 8) in *.
    set (byte' := if b then Z.lor byte_w (Z.shiftr 128 k) else byte_w).
    assert (Hbit : Z.testbit byte' (7 - k) = b).
    { unfold byte'. destruct b.
      - rewrite Z.lor_spec, shiftr_128, Z.pow2_bits_true by lia.
        apply orb_true_r.
      - apply Hlow. lia. }
    assert (Hkeep : forall j, 8 - k <= j -> Z.testbit byte' j = Z.testbit byte_w j).
    { intros j Hj. unfold byte'. destruct b; [|reflexivity].
      rewrite Z.lor_spec, shiftr_128, Z.pow2_bits_false by lia.
      apply orb_false_r. }
    assert (Hlow' : low_zero byte' (k + 1)).
    { intros j Hj. unfold byte'. destruct b; [|apply Hlow; lia].
      rewrite Z.lor_spec, shiftr_128, Z.pow2_bits_false by lia.
      rewrite Hlow by lia. reflexivity. }
    assert (Hnext : (i + 1) mod 8 = if k =? 7 then 0 else k + 1).
    { unfold k. destruct (Z.eqb_spec (i mod 8) 7); Z.div_mod_to_equations; lia. }
    assert (Hzero : low_zero 0 0) by (intros j _; apply Z.bits_0).
    cbn [length read_loop write_loop]. fold k. fold byte'.
    destruct (Z.eqb_spec k 7) as [H7|H7].
    + (* the byte is completed by this bit *)
      split; [intros H0; lia|]. intros _.
      rewrite write_loop_acc. cbn [app].
      exists byte', (write_loop data (i + 1) 0 false []).
      split; [reflexivity|]. split; [exact Hkeep|].
      destruct (Z.eqb_spec k 0) as [H0|_]; [lia|].
      rewrite shiftr_128, land_pow2_testbit, Hbit by lia.
      destruct (IH (i + 1) 0 (out ++ [b])) as [Hread _];
        [lia | rewrite Hnext; exact Hzero |].
      rewrite Hread by exact Hnext. rewrite <- app_assoc. reflexivity.
    + (* the byte stays open *)
      destruct (IH (i + 1) byte' (out ++ [b])) as [_ Hread];
        [lia | rewrite Hnext; exact Hlow' |].
      destruct Hread as (byte_f & file & Hw & Hsame & Hread);
        [rewrite Hnext; lia|].
      rewrite Hnext in Hsame.
      assert (Hbit_f : bool_of_int (Z.land byte_f (Z.shiftr 128 k)) = b).
      { rewrite shiftr_128, land_pow2_testbit by lia.
        rewrite Hsame by lia. exact Hbit. }
      split.
      * intros H0 byte_r. destruct (Z.eqb_spec k 0) as [_|]; [|lia].
        rewrite Hw, Hbit_f, Hread, <- app_assoc. reflexivity.
      * intros H0. exists byte_f, file. split; [exact Hw|]. split.
        -- intros j Hj. rewrite Hsame by lia. apply Hkeep. lia.
        -- destruct (Z.eqb_spec k 0) as [|_]; [lia|].
           rewrite Hbit_f, Hread, <- app_assoc. reflexivity.
Qed.

(** Past the end of the file the reader throws. *)
Lemma read_loop_eof (n : nat) :
  forall (i byte : Z) (in_file : list Z) (out : list bool),
    0 <= i ->
    (- i) mod 8 + 8 * Z.of_nat (length in_file) < Z.of_nat n ->
    read_loop n i byte in_file out = Throw eof_message.
Proof.
  induction n as [|n IH]; intros i byte in_file out Hi Hn.
  - pose proof (Z.mod_pos_bound (- i) 8 ltac:(lia)). lia.
  - cbn [read_loop]. destruct (Z.eqb_spec (i mod 8) 0) as [H0|H0].
    + destruct in_file as [|byte' in_file]; [reflexivity|].
      apply IH; [lia|]. cbn [length] in Hn.
      revert Hn. Z.div_mod_to_equations. lia.
    + apply IH; [lia|]. revert Hn. Z.div_mod_to_equations. lia.
Qed.

(** On a little-endian host [read_data] reads back what [write_data] wrote. *)
Theorem read_write_little_endian (data : list bool) :
  vec_size data < 2 ^ 64 ->
  read_data true (write_data true data) = Ok data.
Proof.
  intros Hsize. unfold write_data. rewrite to_bytes_le_bytes, write_loop_acc.
  rewrite firstn_all2 by (rewrite le_bytes_length; reflexivity).
  set (header := le_bytes (sizeof uint64_t) (vec_size data)).
  assert (Hlen : length header = sizeof uint64_t) by apply le_bytes_length.
  unfold read_data. rewrite length_app, Hlen.
  destruct (Nat.ltb_spec (sizeof uint64_t + length (write_loop data 0 0 false []))
              (sizeof uint64_t)) as [Hlt|_]; [lia|].
  rewrite take_app_length', drop_app_length' by (symmetry; exact Hlen).
  pose proof (from_bytes_reads true uint64_t [] header []) as Hread.
  cbn [app length] in Hread. change (Z.of_nat 0) with 0 in Hread.
  rewrite app_nil_r in Hread.
  rewrite Hread; [|unfold vec_size; rewrite Hlen; reflexivity|exact Hlen].
  run_bind. unfold object_value, header.
  rewrite le_value_le_bytes. unfold interpret. cbn [is_signed uint64_t andb].
  change (2 ^ (8 * Z.of_nat (sizeof uint64_t))) with (2 ^ 64).
  unfold vec_size in *. rewrite Z.mod_small by lia. rewrite Nat2Z.id.
  destruct (read_write_loops data 0 0 []) as [Hloop _].
  - lia.
  - intros j _. apply Z.bits_0.
  - apply Hloop. reflexivity.
Qed.

(** ** Bounds checks of [from_bytes] and [from_bits] *)

(** A start inside the vector with too little after it is reported. *)
Lemma from_bytes_throws (le : bool) (T : scalar) (data : list Z) (start : Z) :
  0 <= start <= vec_size data ->
  vec_size data < 2 ^ 64 ->
  vec_size data - start < Z.of_nat (sizeof T) ->
  from_bytes le T data start = Throw "from_bytes: input data too small.".
Proof.
  intros Hstart Hsize Hfew. unfold from_bytes.
  rewrite wrap64_small by lia.
  destruct (Z.ltb_spec (vec_size data - start) (Z.of_nat (sizeof T))); [reflexivity|lia].
Qed.

Lemma from_bits_throws (le : bool) (T : scalar) (data : list bool) (start : Z) :
  0 <= start <= vec_size data ->
  vec_size data < 2 ^ 64 ->
  vec_size data - start < Z.of_nat (sizeof T) * 8 ->
  from_bits le T data start = Throw "from_bits: input data too small.".
Proof.
  intros Hstart Hsize Hfew. unfold from_bits.
  rewrite wrap64_small by lia.
  destruct (Z.ltb_spec (vec_size data - start) (Z.of_nat (sizeof T) * 8));
    [reflexivity|lia].
Qed.

(** A stream that ends inside the symbol of a leaf is reported. *)
Lemma decode_truncated_leaf_throws (le : bool) (T : scalar) (bits : list bool) :
  vec_size (true :: bits) < 2 ^ 64 ->
  vec_size bits < Z.of_nat (sizeof T) * 8 ->
  decode le T (true :: bits) = Throw "from_bits: input data too small.".
Proof.
  intros Hsize Hfew. unfold decode. cbn [Node_parse length].
  change (vec_at (true :: bits) 0) with (Ok (A := bool) true).
  run_bind. change (wrap64 (0 + 1)) with 1.
  unfold vec_size in *. cbn [length] in Hsize.
  rewrite from_bits_throws; [reflexivity | | |];
    unfold vec_size; cbn [length]; lia.
Qed.

(** ** [encode] does not depend on the host *)

Lemma to_bits_host (le1 le2 : bool) (T : scalar) (v : Z) :
  to_bits le1 T v = to_bits le2 T v.
Proof. rewrite !to_bits_flat_map. reflexivity. Qed.

Lemma encode_tree_host (le1 le2 : bool) (T : scalar) :
  forall n : Enc.Node, encode_tree le1 T n = encode_tree le2 T n.
Proof.
  fix IH 1. intros [e vs f l r]. destruct e; cbn [encode_tree].
  - destruct (vec_at vs 0); run_bind; try reflexivity.
    rewrite (to_bits_host le1 le2). reflexivity.
  - destruct l as [l|]; [|reflexivity]. destruct r as [r|]; [|reflexivity].
    rewrite (IH l), (IH r). reflexivity.
Qed.

(** ** One distinct symbol *)

Lemma proper_values_nonempty (n : Enc.Node) : proper n -> Enc.values n <> [].
Proof.
  induction 1 as [v f | l r Hl IHl Hr IHr]; [discriminate|].
  cbn [Enc.values Enc.Node_merge]. intros H. apply app_eq_nil in H as [H _].
  contradiction.
Qed.

Lemma all_equal_leaf (n : Enc.Node) (v : Z) :
  proper n -> NoDup (Enc.values n) -> (forall x, x ∈ Enc.values n -> x = v) ->
  exists f, n = Enc.Node_leaf v f.
Proof.
  intros [w f | l r Hl Hr] Hnd Hall.
  - exists f. rewrite (Hall w); [reflexivity | left].
  - exfalso. cbn [Enc.values Enc.Node_merge] in *.
    apply NoDup_app in Hnd as (_ & Hdisj & _).
    pose proof (proper_values_nonempty l Hl) as Hnl.
    pose proof (proper_values_nonempty r Hr) as Hnr.
    destruct (Enc.values l) as [|x xs]; [contradiction|].
    destruct (Enc.values r) as [|y ys]; [contradiction|].
    apply (Hdisj x); [left|].
    rewrite (Hall x) by (apply elem_of_app; left; left).
    rewrite <- (Hall y) by (apply elem_of_app; right; left). left.
Qed.

(** ** The sort is stable, the table is in key order *)

Lemma reinsert_filter (f : Z) (x : Enc.Node) (l : list Enc.Node) :
  filter (fun n => Enc.freq n = f) (reinsert x l)
  = filter (fun n => Enc.freq n = f) (x :: l).
Proof.
  destruct (reinsert_split x l) as (pre & post & -> & -> & Hpre & _).
  rewrite filter_cons, !filter_app, filter_cons.
  destruct (decide (Enc.freq x = f)) as [Hf|Hf]; [|reflexivity].
  assert (Hnil : filter (fun n => Enc.freq n = f) pre = []).
  { clear -Hpre Hf. induction Hpre as [|y pre Hy _ IH]; [reflexivity|].
    rewrite filter_cons, IH. destruct (decide (Enc.freq y = f)); [lia|reflexivity]. }
  rewrite Hnil. reflexivity.
Qed.

(** Nodes of equal frequency leave the sort in the order they entered it:
    together with [list_sort_perm] and [list_sort_ordered] this determines
    the sorted list. *)
Lemma list_sort_stable (f : Z) (l : list Enc.Node) :
  filter (fun n => Enc.freq n = f)
    (list_sort (fun l r => Enc.freq r <? Enc.freq l) l)
  = filter (fun n => Enc.freq n = f) l.
Proof.
  unfold list_sort. induction l as [|x l IH]; cbn [foldr]; [reflexivity|].
  rewrite sort_insert_reinsert, reinsert_filter, !filter_cons, IH. reflexivity.
Qed.

(** An ordered list is determined by its classes of equal frequency: there
    is one ordered stable rearrangement of a list, the one [list_sort]
    returns. *)
Lemma ordered_stable_unique (l1 : list Enc.Node) :
  forall l2 : list Enc.Node,
    ordered l1 -> ordered l2 ->
    (forall f, filter (fun n => Enc.freq n = f) l1
               = filter (fun n => Enc.freq n = f) l2) ->
    l1 = l2.
Proof.
  induction l1 as [|x l1 IH]; intros l2 Ho1 Ho2 Hfil.
  - destruct l2 as [|y l2]; [reflexivity|].
    specialize (Hfil (Enc.freq y)). rewrite filter_cons in Hfil.
    destruct (decide (Enc.freq y = Enc.freq y)); [discriminate|contradiction].
  - destruct l2 as [|y l2].
    + specialize (Hfil (Enc.freq x)). rewrite filter_cons in Hfil.
      destruct (decide (Enc.freq x = Enc.freq x)); [discriminate|contradiction].
    + inversion Ho1 as [|? ? Ho1' Hall1]; subst.
      inversion Ho2 as [|? ? Ho2' Hall2]; subst.
      assert (Hxy : Enc.freq x = Enc.freq y).
      { assert (Hx : x ∈ y :: l2).
        { pose proof (Hfil (Enc.freq x)) as H. rewrite filter_cons in H.
          destruct (decide (Enc.freq x = Enc.freq x)); [|contradiction].
          assert (Hin : x ∈ filter (fun n => Enc.freq n = Enc.freq x) (y :: l2))
            by (rewrite <- H; left).
          apply list_elem_of_filter in Hin. apply Hin. }
        assert (Hy : y ∈ x :: l1).
        { pose proof (Hfil (Enc.freq y)) as H. rewrite (filter_cons _ y) in H.
          destruct (decide (Enc.freq y = Enc.freq y)); [|contradiction].
          assert (Hin : y ∈ filter (fun n => Enc.freq n = Enc.freq y) (x :: l1))
            by (rewrite H; left).
          apply list_elem_of_filter in Hin. apply Hin. }
        rewrite Forall_forall in Hall1, Hall2. unfold by_freq_desc in *.
        apply elem_of_cons in Hx as [->|Hx]; [reflexivity|].
        apply elem_of_cons in Hy as [->|Hy]; [reflexivity|].
        specialize (Hall1 y Hy). specialize (Hall2 x Hx). lia. }
      assert (x = y).
      { specialize (Hfil (Enc.freq x)). rewrite !filter_cons in Hfil.
        destruct (decide (Enc.freq x = Enc.freq x)); [|contradiction].
        destruct (decide (Enc.freq y = Enc.freq x)); [|congruence].
        congruence. }
      subst y. f_equal. apply IH; [assumption..|].
      intros f. specialize (Hfil f). rewrite !filter_cons in Hfil.
      destruct (decide (Enc.freq x = f)); congruence.
Qed.

Lemma list_sort_unique (l l' : list Enc.Node) :
  ordered l' ->
  (forall f, filter (fun n => Enc.freq n = f) l'
             = filter (fun n => Enc.freq n = f) l) ->
  l' = list_sort (fun l r => Enc.freq r <? Enc.freq l) l.
Proof.
  intros Ho Hfil. apply ordered_stable_unique.
  - exact Ho.
  - apply list_sort_ordered.
  - intros f. rewrite list_sort_stable. apply Hfil.
Qed.

(** ** Starts beyond the end of the input *)

Lemma rev_seq_S (n : nat) : rev (seq 0 (S n)) = n :: rev (seq 0 n).
Proof. rewrite seq_S, rev_app_distr. reflexivity. Qed.

Lemma vec_at_beyond {A : Type} (v : list A) (i : Z) :
  vec_size v <= i -> vec_at v i = Undefined OutOfBounds.
Proof.
  intros Hi. unfold vec_at, vec_size in *.
  rewrite lookup_ge_None_2 by lia. reflexivity.
Qed.

(** When [start] is beyond the end, the check of [from_bytes] passes and the
    first byte it copies is out of bounds. *)
Lemma from_bytes_beyond_end (le : bool) (T : scalar) (data : list Z) (start : Z) :
  (0 < sizeof T)%nat ->
  vec_size data < start ->
  start + Z.of_nat (sizeof T) <= 2 ^ 64 ->
  from_bytes le T data start = Undefined OutOfBounds.
Proof.
  intros Hsz Hstart Hmax. unfold from_bytes.
  assert (Hwrap : wrap64 (vec_size data - start) = vec_size data - start + 2 ^ 64).
  { unfold wrap64, vec_size in *. symmetry.
    apply (Z.mod_unique_pos _ _ (-1)); lia. }
  rewrite Hwrap.
  destruct (Z.ltb_spec (vec_size data - start + 2 ^ 64) (Z.of_nat (sizeof T)))
    as [Hlt|_]; [unfold vec_size in *; lia|].
  destruct (sizeof T) as [|n] eqn:Hn; [lia|].
  assert (Hbody : forall i, (i <= n)%nat ->
            from_bytes_body data start (replicate (S n) 0) i
            = Undefined OutOfBounds).
  { intros i Hi. unfold from_bytes_body.
    rewrite wrap64_small by (unfold vec_size in *; lia).
    rewrite vec_at_beyond by lia. reflexivity. }
  destruct le.
  - cbn [seq foldM]. rewrite Hbody by lia. reflexivity.
  - rewrite rev_seq_S. cbn [foldM]. rewrite Hbody by lia. reflexivity.
Qed.

(** The same for [from_bits]. *)
Lemma from_bits_beyond_end (le : bool) (T : scalar) (data : list bool) (start : Z) :
  (0 < sizeof T)%nat ->
  vec_size data < start ->
  start + Z.of_nat (sizeof T) * 8 <= 2 ^ 64 ->
  from_bits le T data start = Undefined OutOfBounds.
Proof.
  intros Hsz Hstart Hmax. unfold from_bits.
  assert (Hwrap : wrap64 (vec_size data - start) = vec_size data - start + 2 ^ 64).
  { unfold wrap64, vec_size in *. symmetry.
    apply (Z.mod_unique_pos _ _ (-1)); lia. }
  rewrite Hwrap.
  destruct (Z.ltb_spec (vec_size data - start + 2 ^ 64) (Z.of_nat (sizeof T) * 8))
    as [Hlt|_]; [unfold vec_size in *; lia|].
  destruct (sizeof T) as [|n] eqn:Hn; [lia|].
  assert (Hbit : forall k out j,
            from_bits_bit data k (out, start) j = Undefined OutOfBounds).
  { intros k out j. unfold from_bits_bit.
    rewrite vec_at_beyond by lia. reflexivity. }
  assert (Hbyte : forall out i,
            from_bits_byte le T data (out, start) i = Undefined OutOfBounds).
  { intros out i. unfold from_bits_byte. cbn [seq foldM].
    rewrite Hbit. reflexivity. }
  cbn [seq foldM]. rewrite Hbyte. reflexivity.
Qed.

(** ** Truncated trees *)

(** A serialized tree cut short is never read as a tree: the constructor
    either indexes past the end of the stream (cut where a tag bit is
    due) or lets [from_bits] throw (cut inside the bits of a symbol). *)
Lemma parse_truncated (le : bool) (T : scalar) (n : Enc.Node) :
  proper n ->
  Forall (in_range T) (Enc.values n) ->
  forall bits, encode_tree le T n = Ok bits ->
  forall (k : nat) (pre : list bool) (fuel : nat),
    (k < length bits)%nat ->
    (k < fuel)%nat ->
    vec_size (pre ++ take k bits) < 2 ^ 64 ->
    Node_parse le T fuel (pre ++ take k bits) (Z.of_nat (length pre))
    = Undefined OutOfBounds
    \/ Node_parse le T fuel (pre ++ take k bits) (Z.of_nat (length pre))
       = Throw "from_bits: input data too small.".
Proof.
  induction 1 as [v f | l r Hl IHl Hr IHr]; intros Hrange bits Hbits k pre fuel
    Hk Hfuel Hsize.
  - injection Hbits as <-. destruct fuel as [|fuel]; [lia|]. cbn [Node_parse].
    destruct k as [|k].
    + left. rewrite take_0, app_nil_r, vec_at_beyond by (unfold vec_size; lia).
      reflexivity.
    + right. cbn [app take]. rewrite vec_at_middle. run_bind.
      unfold vec_size in Hsize. rewrite length_app in Hsize.
      cbn [app take length] in Hsize, Hk.
      rewrite (wrap64_small (Z.of_nat (length pre) + 1)) by lia.
      assert (Hlen : length (to_bits le T v) = (8 * sizeof T)%nat)
        by (rewrite to_bits_flat_map, flat_map_byte_bits_length, le_bytes_length;
            reflexivity).
      rewrite from_bits_throws; [reflexivity | | |];
        unfold vec_size; rewrite length_app; cbn [length];
        rewrite ?length_take in *; lia.
  - cbn [Enc.values Enc.Node_merge] in Hrange.
    apply Forall_app in Hrange as [Hrl Hrr].
    destruct (parse_serialized le T l Hl Hrl) as (bl & Hbl & Hpl).
    destruct (parse_serialized le T r Hr Hrr) as (br & Hbr & _).
    unfold Enc.Node_merge in Hbits. cbn [encode_tree] in Hbits.
    rewrite Hbl, Hbr in Hbits. injection Hbits as <-.
    destruct fuel as [|fuel]; [lia|]. cbn [Node_parse].
    destruct k as [|k].
    + left. rewrite take_0, app_nil_r, vec_at_beyond by (unfold vec_size; lia).
      reflexivity.
    + cbn [app take length] in *. rewrite vec_at_middle. run_bind.
      unfold vec_size in Hsize. rewrite length_app in Hsize.
      cbn [length] in Hsize.
      assert (Hstart : wrap64 (Z.of_nat (length pre) + 1)
                       = Z.of_nat (length (pre ++ [false]))).
      { rewrite length_app. cbn [length]. rewrite wrap64_small; lia. }
      rewrite Hstart. rewrite take_app in *. rewrite length_app in Hk, Hsize.
      destruct (Nat.lt_ge_cases k (length bl)) as [Hkl|Hkl].
      * replace (k - length bl)%nat with 0%nat in * by lia.
        rewrite take_0, app_nil_r in *.
        replace (pre ++ false :: take k bl) with ((pre ++ [false]) ++ take k bl)
          by (rewrite <- app_assoc; reflexivity).
        destruct (IHl Hrl bl Hbl k (pre ++ [false]) fuel) as [-> | ->];
          [lia | lia | | left; reflexivity | right; reflexivity].
        unfold vec_size. rewrite !length_app. cbn [length]. lia.
      * rewrite (take_ge bl) in * by lia.
        rewrite length_take in Hsize.
        replace (pre ++ false :: bl ++ take (k - length bl) br)
          with ((pre ++ [false]) ++ bl ++ take (k - length bl) br)
          by (rewrite <- app_assoc; reflexivity).
        rewrite Hpl;
          [|unfold vec_size; rewrite !length_app, length_take; cbn [length]; lia
           |lia].
        run_bind.
        replace ((pre ++ [false]) ++ bl ++ take (k - length bl) br)
          with (((pre ++ [false]) ++ bl) ++ take (k - length bl) br)
          by (rewrite <- !app_assoc; reflexivity).
        rewrite <- length_app.
        destruct (IHr Hrr br Hbr (k - length bl)%nat ((pre ++ [false]) ++ bl) fuel)
          as [-> | ->];
          [lia | lia | | left; reflexivity | right; reflexivity].
        unfold vec_size. rewrite !length_app, length_take. cbn [length]. lia.
Qed.

(** [decode] of a serialized tree cut short never returns. *)
Lemma decode_truncated_tree (le : bool) (T : scalar) (n : Enc.Node)
    (bits : list bool) (k : nat) :
  proper n ->
  Forall (in_range T) (Enc.values n) ->
  encode_tree le T n = Ok bits ->
  (k < length bits)%nat ->
  vec_size (take k bits) < 2 ^ 64 ->
  decode le T (take k bits) = Undefined OutOfBounds
  \/ decode le T (take k bits) = Throw "from_bits: input data too small.".
Proof.
  intros Hn Hrange Hbits Hk Hsize. unfold decode.
  destruct (parse_truncated le T n Hn Hrange bits Hbits k []
              (S (length (take k bits)))) as [H | H];
    [exact Hk | rewrite length_take; lia | exact Hsize | |];
    cbn [app length] in H; change (Z.of_nat 0) with 0 in H; rewrite H;
    [left | right]; reflexivity.
Qed.

(** On a big-endian host [from_bytes] returns the value whose bytes are
    those of [v] in reverse order. *)
Lemma from_bytes_to_bytes_big_endian_swaps (T : scalar) (v : Z) :
  Z.of_nat (sizeof T) < 2 ^ 64 ->
  from_bytes false T (to_bytes false T v) 0
  = Ok (interpret T (le_value (rev (le_bytes (sizeof T) v)))).
Proof.
  intros Hw. rewrite to_bytes_le_bytes.
  pose proof (from_bytes_reads false T [] (le_bytes (sizeof T) v) []) as H.
  cbn [app length] in H. change (Z.of_nat 0) with 0 in H.
  rewrite app_nil_r in H. rewrite H; [reflexivity | | apply le_bytes_length].
  unfold vec_size. rewrite le_bytes_length. exact Hw.
Qed.

(** ** The fuel of the two recursions is enough

    [merge_loop] and [Node_parse] carry fuel, one unit per turn of the loop
    and per level of the constructor's recursion.  With the fuel [encode]
    and [decode] give them they never run out, so every outcome of the
    embedding is an outcome of the code. *)

Lemma foldM_fuel {S I : Type} (body : S -> I -> result S) :
  (forall s i, body s i <> OutOfFuel) ->
  forall (l : list I) (s : S), foldM body s l <> OutOfFuel.
Proof.
  intros Hbody. induction l as [|i l IH]; intros s; cbn [foldM]; [discriminate|].
  pose proof (Hbody s i) as Hb.
  destruct (body s i); run_bind;
    [apply IH | discriminate | discriminate | contradiction].
Qed.

Lemma vec_at_fuel {A : Type} (v : list A) (i : Z) : vec_at v i <> OutOfFuel.
Proof. unfold vec_at. destruct (v !! Z.to_nat i); discriminate. Qed.

Lemma from_bits_fuel (le : bool) (T : scalar) (data : list bool) (start : Z) :
  from_bits le T data start <> OutOfFuel.
Proof.
  unfold from_bits. destruct (_ <? _); [discriminate|].
  assert (Hbit : forall k st j, from_bits_bit data k st j <> OutOfFuel).
  { intros k [out s] j. unfold from_bits_bit.
    pose proof (vec_at_fuel data s) as Hv.
    destruct (vec_at data s); run_bind;
      [discriminate | discriminate | discriminate | contradiction]. }
  assert (Hbyte : forall st i, from_bits_byte le T data st i <> OutOfFuel).
  { intros st i. unfold from_bits_byte. apply foldM_fuel, Hbit. }
  pose proof (foldM_fuel _ Hbyte (seq 0 (sizeof T)) (replicate (sizeof T) 0, start))
    as Hrun.
  destruct (foldM _ _ _); run_bind;
    [discriminate | discriminate | discriminate | contradiction].
Qed.

Lemma from_bits_Ok_bound (le : bool) (T : scalar) (data : list bool)
    (start v : Z) :
  0 <= start <= vec_size data -> vec_size data < 2 ^ 64 ->
  from_bits le T data start = Ok v ->
  start + Z.of_nat (sizeof T) * 8 <= vec_size data.
Proof.
  intros Hstart Hsize. unfold from_bits. rewrite wrap64_small by lia.
  destruct (Z.ltb_spec (vec_size data - start) (Z.of_nat (sizeof T) * 8));
    [discriminate | lia].
Qed.

Lemma vec_at_Ok_bound {A : Type} (v : list A) (i : Z) (x : A) :
  0 <= i -> vec_at v i = Ok x -> i < vec_size v.
Proof.
  intros Hi. unfold vec_at, vec_size.
  destruct (v !! Z.to_nat i) eqn:Hl; [|discriminate]. intros _.
  apply lookup_lt_Some in Hl. lia.
Qed.

Lemma Node_parse_fuel (le : bool) (T : scalar) (data : list bool) :
  vec_size data < 2 ^ 64 ->
  forall (fuel : nat) (start : Z),
    0 <= start <= vec_size data ->
    vec_size data - start < Z.of_nat fuel ->
    Node_parse le T fuel data start <> OutOfFuel
    /\ forall n start',
         Node_parse le T fuel data start = Ok (n, start') ->
         start < start' <= vec_size data.
Proof.
  intros Hsize. induction fuel as [|fuel IH]; intros start Hstart Hfuel; [lia|].
  cbn [Node_parse].
  pose proof (vec_at_fuel data start) as Hv.
  destruct (vec_at data start) as [e| | |] eqn:He; run_bind;
    [|split; [discriminate | intros ? ? [=]]..|contradiction].
  apply vec_at_Ok_bound in He; [|lia].
  rewrite (wrap64_small (start + 1)) by lia.
  destruct e.
  - pose proof (from_bits_fuel le T data (start + 1)) as Hf.
    destruct (from_bits le T data (start + 1)) as [v| | |] eqn:Hv';
      run_bind;
      [|split; [discriminate | intros ? ? [=]]..|contradiction].
    apply from_bits_Ok_bound in Hv'; [|lia|exact Hsize].
    rewrite wrap64_small by lia.
    split; [discriminate|]. intros n start' [= <- <-]. lia.
  - destruct (IH (start + 1)) as [Hl Hlb]; [lia | lia |].
    destruct (Node_parse le T fuel data (start + 1)) as [[l s1]| | |];
      run_bind;
      [|split; [discriminate | intros ? ? [=]]..|contradiction].
    specialize (Hlb l s1 eq_refl).
    destruct (IH s1) as [Hr Hrb]; [lia | lia |].
    destruct (Node_parse le T fuel data s1) as [[r s2]| | |];
      run_bind;
      [|split; [discriminate | intros ? ? [=]]..|contradiction].
    specialize (Hrb r s2 eq_refl).
    split; [discriminate|]. intros n start' [= <- <-]. lia.
Qed.

Lemma decode_loop_fuel (tree : Dec.Node) (bits : list bool) :
  forall (cur : Dec.Node) (out : list Z),
    decode_loop tree cur bits out <> OutOfFuel.
Proof.
  induction bits as [|b bits IH]; intros cur out; cbn [decode_loop];
    [discriminate|].
  destruct (if b then Dec.second cur else Dec.first cur) as [next|];
    [|discriminate].
  destruct (Dec.end_ next); [|apply IH].
  pose proof (vec_at_fuel (Dec.values next) 0) as Hv.
  destruct (vec_at (Dec.values next) 0); run_bind;
    [apply IH | discriminate | discriminate | contradiction].
Qed.

(** [decode] never runs out of fuel. *)
Lemma decode_fuel (le : bool) (T : scalar) (data : list bool) :
  vec_size data < 2 ^ 64 -> decode le T data <> OutOfFuel.
Proof.
  intros Hsize. unfold decode.
  destruct (Node_parse_fuel le T data Hsize (S (length data)) 0) as [Hp _];
    [unfold vec_size; lia | unfold vec_size; lia |].
  destruct (Node_parse le T (S (length data)) data 0) as [[tree start]| | |];
    run_bind;
    [apply decode_loop_fuel | discriminate | discriminate | contradiction].
Qed.

Lemma merge_loop_fuel (fuel : nat) :
  forall (nodes : list Enc.Node) (lut : gmap Z (list bool)),
    (length nodes < fuel)%nat -> merge_loop fuel nodes lut <> OutOfFuel.
Proof.
  induction fuel as [|fuel IH]; intros nodes lut Hfuel; [lia|].
  cbn [merge_loop].
  destruct (merge_step nodes lut) as [[[nodes' lut']|]| | |] eqn:Hstep;
    run_bind; try discriminate.
  - destruct (merge_step_inv _ _ _ _ Hstep) as (rest & r & l & -> & -> & _).
    apply IH. rewrite <- (Permutation_length (reinsert_perm _ rest)).
    rewrite length_app in Hfuel. cbn [length] in *. lia.
  - unfold merge_step in Hstep.
    destruct (pop_back nodes) as [[rest1 l]|]; [|discriminate].
    destruct (pop_back rest1) as [[rest r]|]; discriminate.
Qed.

Lemma encode_tree_fuel (le : bool) (T : scalar) :
  forall n : Enc.Node, encode_tree le T n <> OutOfFuel.
Proof.
  fix IH 1. intros [e vs f l r]. destruct e; cbn [encode_tree].
  - pose proof (vec_at_fuel vs 0) as Hv.
    destruct (vec_at vs 0); run_bind;
      [discriminate | discriminate | discriminate | contradiction].
  - destruct l as [l|]; [|discriminate]. destruct r as [r|]; [|discriminate].
    pose proof (IH l) as Hl. pose proof (IH r) as Hr.
    destruct (encode_tree le T l); run_bind;
      [|discriminate | discriminate | contradiction].
    destruct (encode_tree le T r); run_bind;
      [discriminate | discriminate | discriminate | contradiction].
Qed.

(** [encode] never runs out of fuel. *)
Lemma encode_fuel (le : bool) (T : scalar) (data : list Z) :
  encode le T data <> OutOfFuel.
Proof.
  unfold encode, build.
  pose proof (merge_loop_fuel (S (length (initial_nodes data)))
                (initial_nodes data) ∅ ltac:(lia)) as Hm.
  destruct (merge_loop _ _ _) as [[nodes lut]| | |];
    run_bind; [|discriminate | discriminate | contradiction].
  destruct nodes as [|tree nodes]; run_bind; [discriminate|].
  pose proof (encode_tree_fuel le T tree) as Ht.
  destruct (encode_tree le T tree); run_bind;
    [discriminate | discriminate | discriminate | contradiction].
Qed.

(** * The claims *)

(** C1 (the code departs from the claim).  The round trip
    [decode(encode(S)) == S] is claimed for every input, inputs with one
    distinct symbol included.  For an input made of one symbol [v] repeated,
    [encode] returns the serialized leaf and an empty payload, and [decode]
    of that output returns the empty sequence, not the input. *)
Theorem decode_encode_single_symbol (le : bool) (T : scalar) (v : Z) (n : nat) :
  in_range T v ->
  bits_of_type T + 1 < 2 ^ 64 ->
  encode le T (replicate (S n) v) = Ok ([true] ++ to_bits le T v)
  /\ decode le T ([true] ++ to_bits le T v) = Ok [].
Proof.
  intros Hv Hw. set (data := replicate (S n) v).
  assert (Hne : data <> []) by discriminate.
  assert (Hrange : Forall (in_range T) data) by (apply Forall_replicate; exact Hv).
  destruct (encode_ok le T data Hne Hrange)
    as (tree & lut & bits & Hbuild & Hinv & Hvals & Hbits & Henc & Hparse).
  assert (Hall : forall x, x ∈ data -> x = v).
  { intros x Hx. apply elem_of_replicate in Hx. tauto. }
  assert (Hproper : proper tree).
  { pose proof (inv_proper _ _ Hinv) as H. inversion H; assumption. }
  pose proof (inv_nodup _ _ Hinv) as Hnd.
  cbn [flat_map] in Hnd. rewrite app_nil_r in Hnd.
  destruct (all_equal_leaf tree v Hproper Hnd) as [f ->].
  { intros x Hx. apply Hall, Hvals, Hx. }
  assert (Hcode : code lut v = []).
  { pose proof (inv_codes _ _ Hinv (Enc.Node_leaf v f) v) as H.
    destruct (leads_to_leaf _ _ _ (H ltac:(left) ltac:(left)) eq_refl) as [-> _].
    reflexivity. }
  assert (Hpayload : concat (map (code lut) data) = []).
  { unfold data. generalize (S n). intros k.
    induction k as [|k IH]; [reflexivity|].
    cbn [replicate map concat]. rewrite Hcode, IH. reflexivity. }
  injection Hbits as <-.
  rewrite Hpayload, app_nil_r in Henc. split; [exact Henc|].
  unfold decode.
  specialize (Hparse [] [] (S (length ([true] ++ to_bits le T v)))).
  rewrite app_nil_r in Hparse.
  cbn [app length Nat.add] in Hparse. change (Z.of_nat 0) with 0 in Hparse.
  assert (Hlen : length (to_bits le T v) = (8 * sizeof T)%nat)
    by (rewrite to_bits_flat_map, flat_map_byte_bits_length, le_bytes_length;
        reflexivity).
  cbn [app length]. rewrite Hparse.
  - run_bind. rewrite Nat2Z.id.
    change (drop (S (length (to_bits le T v))) (true :: to_bits le T v))
      with (drop (length (to_bits le T v)) (to_bits le T v)).
    rewrite drop_all. reflexivity.
  - unfold vec_size. cbn [length]. rewrite Hlen.
    unfold bits_of_type in Hw. lia.
  - lia.
Qed.

Lemma decode_encode_single_symbol_witness :
  encode true char (replicate 4 97) = Ok ([true] ++ to_bits true char 97)
  /\ decode true char ([true] ++ to_bits true char 97) = Ok [].
Proof.
  apply (decode_encode_single_symbol true char 97 3).
  - vm_compute. split; [discriminate | reflexivity].
  - reflexivity.
Defined.

(** C2 (the code departs from the claim).  A stream that ends before the tree
    is complete is claimed to give a reported error, never an out-of-bounds
    access.  The node constructor reads [data[start++]] unchecked: on the
    empty stream, and on a stream that ends after the tag of an internal
    node, [decode] indexes past the end of the vector. *)
Theorem decode_truncated_tree_out_of_bounds (le : bool) (T : scalar) :
  decode le T [] = Undefined OutOfBounds
  /\ decode le T [false] = Undefined OutOfBounds.
Proof. split; reflexivity. Qed.

(** C3 (the code departs from the claim).  Encoding the empty sequence is
    claimed to be defined, with an empty output.  With no node in the list,
    [std::prev(nodes.end())] steps before [begin()]: the call has undefined
    behaviour and returns nothing. *)
Theorem encode_empty_undefined (le : bool) (T : scalar) :
  encode le T [] = Undefined BadIterator.
Proof. reflexivity. Qed.

(** C4, as claimed: a payload that ends at an internal node makes [decode]
    fail.  It does not: on the tree of "aabc" followed by the code of "a" and
    one bit that stops at an internal node, [decode] returns "a". *)
Lemma decode_dangling_counterexample :
  Node_parse true char (S (length dangling_stream)) dangling_stream 0
  = Ok (aabc_tree, 29)
  /\ drop 29 dangling_stream = [false] ++ [true]
  /\ decodes_to aabc_tree [false] 97
  /\ dangling aabc_tree [true]
  /\ decode true char dangling_stream = Ok [97].
Proof.
  split; [vm_compute; reflexivity|]. split; [reflexivity|]. split; [|split].
  - eexists _, _. split; [|split]; [apply descends_one| |]; reflexivity.
  - eexists. split; [apply descends_one|]; reflexivity.
  - vm_compute. reflexivity.
Qed.

(** C4, amended: when the payload is a sequence of complete codes followed
    by a dangling partial code (bits that stop at an internal node),
    [decode] reports nothing and returns the symbols of the complete codes;
    the caller has no way to opt in or out. *)
Theorem decode_accepts_dangling (le : bool) (T : scalar) (data : list bool)
    (tree : Dec.Node) (k : Z) (codes : list (list bool)) (syms : list Z)
    (d : list bool) :
  Node_parse le T (S (length data)) data 0 = Ok (tree, k) ->
  drop (Z.to_nat k) data = concat codes ++ d ->
  Forall2 (decodes_to tree) codes syms ->
  dangling tree d ->
  decode le T data = Ok syms.
Proof.
  intros Hparse Hdrop Hcodes (m & Hd & Hm). unfold decode.
  rewrite Hparse. run_bind. rewrite Hdrop.
  rewrite (decode_loop_codes tree codes syms Hcodes).
  apply (decode_loop_dangling tree tree m d); assumption.
Qed.

Lemma decode_accepts_dangling_witness :
  decode true char dangling_stream = Ok [97].
Proof.
  apply (decode_accepts_dangling true char dangling_stream aabc_tree 29
           [[false]] [97] [true]).
  - vm_compute. reflexivity.
  - reflexivity.
  - constructor; [|constructor].
    eexists _, _. split; [|split]; [apply descends_one| |]; reflexivity.
  - eexists. split; [apply descends_one|]; reflexivity.
Defined.

(** C5, as claimed: after a merge the new node sits after the earlier nodes
    of equal frequency.  It does not: for "aabc" the first merge makes a node
    of frequency 2 out of "c" and "b", and the loop puts it in front of the
    leaf of "a", whose frequency is 2 as well. *)
Lemma merge_step_tie_counterexample :
  initial_nodes aabc = [leaf_a; leaf_b; leaf_c]
  /\ (exists lut',
        merge_step (initial_nodes aabc) ∅
        = Ok (Some ([Enc.Node_merge leaf_c leaf_b; leaf_a], lut')))
  /\ ~ placed_after_ties (Enc.Node_merge leaf_c leaf_b)
         [Enc.Node_merge leaf_c leaf_b; leaf_a].
Proof.
  split; [vm_compute; reflexivity|]. split.
  - eexists. vm_compute. reflexivity.
  - intros (pre & post & Heq & Hpre & Hpost).
    destruct pre as [|x pre].
    + injection Heq as <-. inversion Hpost as [|? ? Hlt _]; subst.
      vm_compute in Hlt. discriminate.
    + injection Heq as <- Heq. destruct pre as [|y pre].
      * injection Heq as Heq _. discriminate.
      * injection Heq as _ Heq. destruct pre; discriminate.
Qed.

(** C5, amended: one turn of the merge loop on an ordered collection takes
    the last two nodes, and puts their parent after every node of greater
    frequency and before every node of smaller or equal frequency (so before
    the earlier nodes of equal frequency); the collection stays ordered by
    frequency, descending. *)
Theorem merge_step_places_before_ties (nodes nodes' : list Enc.Node)
    (lut lut' : gmap Z (list bool)) :
  ordered nodes ->
  merge_step nodes lut = Ok (Some (nodes', lut')) ->
  exists rest r l,
    nodes = rest ++ [r; l]
    /\ nodes' ≡ₚ Enc.Node_merge l r :: rest
    /\ placed_before_ties (Enc.Node_merge l r) nodes'
    /\ ordered nodes'.
Proof.
  intros Hord Hstep.
  destruct (merge_step_inv _ _ _ _ Hstep) as (rest & r & l & -> & -> & _).
  exists rest, r, l. split; [reflexivity|].
  split; [symmetry; apply reinsert_perm|].
  apply reinsert_ordered. apply ordered_app_inv in Hord. apply Hord.
Qed.

Lemma merge_step_places_before_ties_witness :
  exists rest r l,
    [leaf_a; leaf_b; leaf_c] = rest ++ [r; l]
    /\ [Enc.Node_merge leaf_c leaf_b; leaf_a] ≡ₚ Enc.Node_merge l r :: rest
    /\ placed_before_ties (Enc.Node_merge l r)
         [Enc.Node_merge leaf_c leaf_b; leaf_a]
    /\ ordered [Enc.Node_merge leaf_c leaf_b; leaf_a].
Proof.
  apply (merge_step_places_before_ties [leaf_a; leaf_b; leaf_c] _ ∅
           (fold_left (lut_push true) [98] (fold_left (lut_push false) [99] ∅))).
  - repeat constructor; vm_compute; discriminate.
  - reflexivity.
Defined.

(** C6.  For every non-empty input, [encode] builds a tree in which every
    internal node has its two children, the code of each input symbol in the
    table is the path from the root to the leaf of that symbol, and no
    symbol's code is a prefix of another symbol's code. *)
Theorem build_full_prefix_free (data : list Z) :
  data <> [] ->
  exists tree lut,
    build data = Ok (tree, lut)
    /\ full tree
    /\ (forall x, x ∈ data -> leads_to tree (code lut x) x)
    /\ (forall x y, x ∈ data -> y ∈ data -> x <> y ->
                    ~ code lut x `prefix_of` code lut y).
Proof.
  intros Hne.
  destruct (build_ok data Hne) as (tree & lut & Hbuild & Hinv & Hvals).
  assert (Hpath : forall x, x ∈ data -> leads_to tree (code lut x) x).
  { intros x Hx. apply (inv_codes _ _ Hinv); [left | apply Hvals; exact Hx]. }
  exists tree, lut. split; [exact Hbuild|]. split; [|split; [exact Hpath|]].
  - apply proper_full. pose proof (inv_proper _ _ Hinv) as H.
    inversion H; assumption.
  - intros x y Hx Hy Hxy [q Hq].
    pose proof (Hpath x Hx) as Hpx. pose proof (Hpath y Hy) as Hpy.
    rewrite Hq in Hpy. destruct (leads_to_prefix _ _ _ _ _ Hpx Hpy) as [_ Heq].
    contradiction.
Qed.

Lemma build_full_prefix_free_witness :
  aabc <> []
  /\ exists tree lut,
       build aabc = Ok (tree, lut)
       /\ full tree
       /\ (forall x, x ∈ aabc -> leads_to tree (code lut x) x)
       /\ (forall x y, x ∈ aabc -> y ∈ aabc -> x <> y ->
                       ~ code lut x `prefix_of` code lut y).
Proof.
  split; [discriminate|]. apply (build_full_prefix_free aabc). discriminate.
Defined.

(** C7 (the code departs from the claim).  Reading back a written frame is
    claimed to return the bits written.  On a big-endian host [read_data]
    takes the count through [from_bytes], which there reads the
    little-endian count bytes in the wrong order: the frame of the single
    bit [1] announces, to the reader, 2^56 bits, and the reader throws at
    the end of the file.  (On a little-endian host the claim holds:
    [read_write_little_endian].) *)
Theorem read_write_big_endian :
  write_data false [true] = [1; 0; 0; 0; 0; 0; 0; 0; 128]
  /\ from_bytes false uint64_t [1; 0; 0; 0; 0; 0; 0; 0] 0 = Ok (2 ^ 56)
  /\ read_data false (write_data false [true]) = Throw eof_message.
Proof.
  assert (Hw : write_data false [true] = [1; 0; 0; 0; 0; 0; 0; 0; 128])
    by (vm_compute; reflexivity).
  assert (Hf : from_bytes false uint64_t [1; 0; 0; 0; 0; 0; 0; 0] 0 = Ok (2 ^ 56))
    by (vm_compute; reflexivity).
  split; [exact Hw|]. split; [exact Hf|].
  rewrite Hw. unfold read_data.
  change (take (sizeof uint64_t) [1; 0; 0; 0; 0; 0; 0; 0; 128])
    with [1; 0; 0; 0; 0; 0; 0; 0].
  change (drop (sizeof uint64_t) [1; 0; 0; 0; 0; 0; 0; 0; 128]) with [128].
  change (length [1; 0; 0; 0; 0; 0; 0; 0; 128] <? sizeof uint64_t)%nat with false.
  rewrite Hf. run_bind.
  apply read_loop_eof; [lia|].
  rewrite Z2Nat.id by lia. change ((- 0) mod 8) with 0. cbn [length]. lia.
Qed.

(** C8 (the code departs from the claim).  [from_bytes] is claimed to invert
    [to_bytes] for every type, whatever the host byte order.  On a
    big-endian host [to_bytes] writes the 16-bit value 0x0102 as the bytes
    02 01, and [from_bytes] copies them into the object without reversing
    them and returns 0x0201.  (Bits round-trip on either host,
    [from_bits_to_bits]; bytes round-trip on a little-endian host,
    [from_bytes_to_bytes_little_endian].) *)
Theorem from_bytes_to_bytes_big_endian :
  to_bytes false uint16_t 258 = [2; 1]
  /\ from_bytes false uint16_t (to_bytes false uint16_t 258) 0 = Ok 513.
Proof. split; vm_compute; reflexivity. Qed.

(** C9 (the code departs from the claim).  [from_bytes] and [from_bits] are
    claimed to report a start beyond the end of the input.  The check
    computes [data.size() - start] in [size_t]: for a start beyond the end
    the difference wraps to a huge number, the check passes and the loop
    indexes past the end of the vector.  (A start within the vector is
    checked as claimed: [from_bytes_throws], [from_bits_throws].) *)
Theorem from_bytes_past_end (le : bool) :
  from_bytes le uint8_t [7] 2 = Undefined OutOfBounds
  /\ from_bits le uint8_t [true] 2 = Undefined OutOfBounds.
Proof. destruct le; split; vm_compute; reflexivity. Qed.

(** * Further properties of the primitive conversions *)

Lemma le_bytes_range (n : nat) (v : Z) :
  Forall (fun b => 0 <= b < 256) (le_bytes n v).
Proof.
  apply Stdlib.Lists.List.Forall_forall. intros b Hb.
  eapply le_bytes_bounded. exact Hb.
Qed.

Lemma to_bits_length (le : bool) (T : scalar) (v : Z) :
  length (to_bits le T v) = (8 * sizeof T)%nat.
Proof.
  rewrite to_bits_flat_map, flat_map_byte_bits_length, le_bytes_length.
  reflexivity.
Qed.

(** X1.  On either host [to_bytes] emits [sizeof T] bytes, byte [i] being
    bits [8i .. 8i+7] of the value: the wire format is little-endian and
    does not depend on the host. *)
Theorem to_bytes_wire_format (le : bool) (T : scalar) (v : Z) :
  to_bytes le T v = le_bytes (sizeof T) v
  /\ length (to_bytes le T v) = sizeof T
  /\ Forall (fun b => 0 <= b < 256) (to_bytes le T v).
Proof.
  rewrite to_bytes_le_bytes. split; [reflexivity|].
  split; [apply le_bytes_length | apply le_bytes_range].
Qed.

(** X2.  [to_bits] emits [8 * sizeof T] bits: the bytes [to_bytes] emits,
    in the same order, each spelled most significant bit first; the hosts
    that run the two functions need not be the same. *)
Theorem to_bits_of_to_bytes (le le' : bool) (T : scalar) (v : Z) :
  to_bits le T v = flat_map byte_bits (to_bytes le' T v)
  /\ length (to_bits le T v) = (8 * sizeof T)%nat.
Proof.
  split; [|apply to_bits_length].
  rewrite to_bits_flat_map, to_bytes_le_bytes. reflexivity.
Qed.

(** X3.  [from_bits] reads back, at any offset of a longer stream, the value
    [to_bits] wrote there, also when writer and reader run on hosts of
    different byte order. *)
Theorem from_bits_to_bits_at (le le' : bool) (T : scalar) (v : Z)
    (pre post : list bool) :
  in_range T v ->
  vec_size (pre ++ to_bits le T v ++ post) < 2 ^ 64 ->
  from_bits le' T (pre ++ to_bits le T v ++ post) (Z.of_nat (length pre)) = Ok v.
Proof.
  intros Hv Hsize. rewrite to_bits_flat_map in *.
  rewrite from_bits_decodes.
  - rewrite le_value_le_bytes. f_equal. apply interpret_mod. exact Hv.
  - exact Hsize.
  - apply le_bytes_length.
  - apply le_bytes_range.
Qed.

Lemma from_bits_to_bits_at_witness :
  from_bits false char ([true; false] ++ to_bits true char (-3) ++ [true])
    (Z.of_nat (length [true; false])) = Ok (-3).
Proof.
  apply (from_bits_to_bits_at true false char (-3) [true; false] [true]).
  - vm_compute. split; [discriminate | reflexivity].
  - reflexivity.
Defined.

(** X4.  On a little-endian host [from_bytes] reads back, at any offset of a
    longer vector, the value [to_bytes] wrote there on either host. *)
Theorem from_bytes_to_bytes_at (le : bool) (T : scalar) (v : Z)
    (pre post : list Z) :
  in_range T v ->
  vec_size (pre ++ to_bytes le T v ++ post) < 2 ^ 64 ->
  from_bytes true T (pre ++ to_bytes le T v ++ post) (Z.of_nat (length pre)) = Ok v.
Proof.
  intros Hv Hsize. rewrite to_bytes_le_bytes in *.
  rewrite from_bytes_reads.
  - unfold object_value. rewrite le_value_le_bytes. f_equal.
    apply interpret_mod. exact Hv.
  - exact Hsize.
  - apply le_bytes_length.
Qed.

Lemma from_bytes_to_bytes_at_witness :
  from_bytes true uint16_t ([9] ++ to_bytes false uint16_t 258 ++ [7; 7])
    (Z.of_nat (length [9])) = Ok 258.
Proof.
  apply (from_bytes_to_bytes_at false uint16_t 258 [9] [7; 7]).
  - vm_compute. split; [discriminate | reflexivity].
  - reflexivity.
Defined.

Lemma split_at {A : Type} (data : list A) (s n : nat) :
  (s + n <= length data)%nat ->
  data = take s data ++ take n (drop s data) ++ drop n (drop s data)
  /\ length (take s data) = s
  /\ length (take n (drop s data)) = n.
Proof.
  intros H. rewrite !take_drop. rewrite !length_take, length_drop.
  repeat split; lia.
Qed.

(** X5.  For a start inside the vector, [from_bytes] throws exactly when
    fewer than [sizeof T] bytes are left, and otherwise returns the value of
    the object made of the [sizeof T] bytes at [start], whatever else the
    vector holds. *)
Theorem from_bytes_checked (le : bool) (T : scalar) (data : list Z) (start : Z) :
  0 <= start <= vec_size data ->
  vec_size data < 2 ^ 64 ->
  (vec_size data - start < Z.of_nat (sizeof T) ->
   from_bytes le T data start = Throw "from_bytes: input data too small.")
  /\ (Z.of_nat (sizeof T) <= vec_size data - start ->
      from_bytes le T data start
      = Ok (object_value le T (take (sizeof T) (drop (Z.to_nat start) data)))).
Proof.
  intros Hstart Hsize. split.
  - apply from_bytes_throws; assumption.
  - intros Hfit. unfold vec_size in *.
    destruct (split_at data (Z.to_nat start) (sizeof T)) as (Hd & Hl1 & Hl2); [lia|].
    set (pre := take (Z.to_nat start) data) in *.
    set (bytes := take (sizeof T) (drop (Z.to_nat start) data)) in *.
    set (post := drop (sizeof T) (drop (Z.to_nat start) data)) in *.
    replace start with (Z.of_nat (length pre)) at 1 by lia.
    rewrite Hd at 1.
    apply from_bytes_reads; [|exact Hl2].
    rewrite <- Hd. exact Hsize.
Qed.

Lemma from_bytes_checked_witness :
  (vec_size [1; 2; 3] - 2 < Z.of_nat (sizeof uint16_t) ->
   from_bytes false uint16_t [1; 2; 3] 2
   = Throw "from_bytes: input data too small.")
  /\ (Z.of_nat (sizeof uint16_t) <= vec_size [1; 2; 3] - 2 ->
      from_bytes false uint16_t [1; 2; 3] 2
      = Ok (object_value false uint16_t
              (take (sizeof uint16_t) (drop (Z.to_nat 2) [1; 2; 3])))).
Proof.
  apply (from_bytes_checked false uint16_t [1; 2; 3] 2).
  - vm_compute. split; discriminate.
  - reflexivity.
Defined.

Lemma byte_bits_surj (bs : list bool) :
  length bs = 8%nat -> exists B, 0 <= B < 256 /\ byte_bits B = bs.
Proof.
  intros Hlen.
  do 8 (destruct bs as [|? bs]; [discriminate|]).
  destruct bs; [|discriminate].
  exists (set_bits 0 (seq 0 8) [b; b0; b1; b2; b3; b4; b5; b6]).
  destruct b, b0, b1, b2, b3, b4, b5, b6; vm_compute;
    (split; [split; [discriminate | reflexivity] | reflexivity]).
Qed.

Lemma bits_as_bytes (n : nat) :
  forall bs : list bool,
    length bs = (8 * n)%nat ->
    exists bytes,
      length bytes = n
      /\ Forall (fun B => 0 <= B < 256) bytes
      /\ flat_map byte_bits bytes = bs.
Proof.
  induction n as [|n IH]; intros bs Hlen.
  - exists []. destruct bs; [|discriminate]. repeat split. constructor.
  - destruct (byte_bits_surj (take 8 bs)) as (B & HB & Hbits).
    { rewrite length_take. lia. }
    destruct (IH (drop 8 bs)) as (bytes & Hl & Hr & Hf).
    { rewrite length_drop. lia. }
    exists (B :: bytes). split; [cbn [length]; lia|].
    split; [constructor; assumption|].
    cbn [flat_map]. rewrite Hbits, Hf. apply take_drop.
Qed.

Lemma le_value_range (bytes : list Z) :
  Forall (fun B => 0 <= B < 256) bytes ->
  0 <= le_value bytes < 2 ^ (8 * Z.of_nat (length bytes)).
Proof.
  induction 1 as [|B bytes HB _ IH]; cbn [le_value length].
  - cbn. lia.
  - replace (8 * Z.of_nat (S (length bytes)))
      with (8 + 8 * Z.of_nat (length bytes)) by lia.
    rewrite Z.pow_add_r by lia. change (2 ^ 8) with 256. nia.
Qed.

Lemma interpret_in_range (T : scalar) (u : Z) :
  (0 < sizeof T)%nat ->
  0 <= u < 2 ^ bits_of_type T -> in_range T (interpret T u).
Proof.
  intros Hsz Hu. unfold in_range, interpret, bits_of_type in *.
  set (w := 8 * Z.of_nat (sizeof T)) in *.
  assert (Hw : 2 ^ w = 2 * 2 ^ (w - 1)).
  { rewrite <- Z.pow_succ_r by lia. f_equal. lia. }
  destruct (is_signed T); cbn [andb]; [|exact Hu].
  destruct (Z.leb_spec (2 ^ (w - 1)) u); lia.
Qed.

(** X6.  For a start inside the vector, [from_bits] throws exactly when
    fewer than [8 * sizeof T] bits are left; otherwise it returns a value of
    type [T], the one spelled (least significant byte first, each byte most
    significant bit first) by the [8 * sizeof T] bits at [start], on either
    host. *)
Theorem from_bits_checked (le : bool) (T : scalar) (data : list bool) (start : Z) :
  (0 < sizeof T)%nat ->
  0 <= start <= vec_size data ->
  vec_size data < 2 ^ 64 ->
  (vec_size data - start < Z.of_nat (sizeof T) * 8 ->
   from_bits le T data start = Throw "from_bits: input data too small.")
  /\ (Z.of_nat (sizeof T) * 8 <= vec_size data - start ->
      exists bytes,
        length bytes = sizeof T
        /\ Forall (fun B => 0 <= B < 256) bytes
        /\ flat_map byte_bits bytes
           = take (8 * sizeof T) (drop (Z.to_nat start) data)
        /\ from_bits le T data start = Ok (interpret T (le_value bytes))
        /\ in_range T (interpret T (le_value bytes))).
Proof.
  intros Hsz Hstart Hsize. split.
  - apply from_bits_throws; assumption.
  - intros Hfit. unfold vec_size in *.
    destruct (split_at data (Z.to_nat start) (8 * sizeof T))
      as (Hd & Hl1 & Hl2); [lia|].
    destruct (bits_as_bytes (sizeof T) _ Hl2) as (bytes & Hlen & Hrange & Hbits).
    exists bytes. split; [exact Hlen|]. split; [exact Hrange|].
    split; [exact Hbits|]. split.
    + rewrite <- Hbits in Hd.
      replace start with (Z.of_nat (length (take (Z.to_nat start) data))) at 1
        by lia.
      rewrite Hd at 1. apply from_bits_decodes; [|exact Hlen|exact Hrange].
      rewrite <- Hd. exact Hsize.
    + apply interpret_in_range; [exact Hsz|].
      pose proof (le_value_range bytes Hrange) as H. rewrite Hlen in H. exact H.
Qed.

Lemma from_bits_checked_witness :
  (vec_size [true; true; true; true; true; true; true; false; true] - 1
   < Z.of_nat (sizeof char) * 8 ->
   from_bits true char [true; true; true; true; true; true; true; false; true] 1
   = Throw "from_bits: input data too small.")
  /\ (Z.of_nat (sizeof char) * 8
      <= vec_size [true; true; true; true; true; true; true; false; true] - 1 ->
      exists bytes,
        length bytes = sizeof char
        /\ Forall (fun B => 0 <= B < 256) bytes
        /\ flat_map byte_bits bytes
           = take (8 * sizeof char)
               (drop (Z.to_nat 1)
                  [true; true; true; true; true; true; true; false; true])
        /\ from_bits true char
             [true; true; true; true; true; true; true; false; true] 1
           = Ok (interpret char (le_value bytes))
        /\ in_range char (interpret char (le_value bytes))).
Proof.
  apply (from_bits_checked true char
           [true; true; true; true; true; true; true; false; true] 1).
  - vm_compute. constructor.
  - vm_compute. split; discriminate.
  - reflexivity.
Defined.

(** * Further properties of the framing *)

Lemma write_bit_bits (byte_w : Z) (k : nat) (b : bool) :
  0 <= byte_w < 256 ->
  (k < 8)%nat ->
  drop k (byte_bits byte_w) = replicate (8 - k) false ->
  let byte' := if b then Z.lor byte_w (Z.shiftr 128 (Z.of_nat k)) else byte_w in
  byte_bits byte' = take k (byte_bits byte_w) ++ b :: replicate (7 - k) false
  /\ 0 <= byte' < 256.
Proof.
  intros Hw Hk Hdrop. destruct b; cbn zeta.
  - assert (Hall : forallb
              (fun n => forallb
                 (fun k =>
                    let w := Z.of_nat n in
                    let w' := Z.lor w (Z.shiftr 128 (Z.of_nat k)) in
                    if bool_decide (drop k (byte_bits w) = replicate (8 - k) false)
                    then bool_decide
                           (byte_bits w'
                            = take k (byte_bits w) ++ true :: replicate (7 - k) false)
                         && (w' <? 256)
                    else true)
                 (seq 0 8))
              (seq 0 256) = true) by (vm_compute; reflexivity).
    rewrite forallb_forall in Hall.
    specialize (Hall (Z.to_nat byte_w) ltac:(apply in_seq; lia)).
    rewrite forallb_forall in Hall.
    specialize (Hall k ltac:(apply in_seq; lia)). cbn zeta in Hall.
    rewrite Z2Nat.id in Hall by lia.
    rewrite (bool_decide_eq_true_2 _ Hdrop) in Hall.
    apply andb_true_iff in Hall as [H1 H2].
    apply bool_decide_eq_true_1 in H1. apply Z.ltb_lt in H2.
    split; [exact H1|]. split; [|exact H2].
    apply Z.lor_nonneg. split; [lia|]. apply Z.shiftr_nonneg. lia.
  - split; [|exact Hw].
    rewrite <- (take_drop k (byte_bits byte_w)) at 1. rewrite Hdrop.
    replace (8 - k)%nat with (S (7 - k)) by lia. reflexivity.
Qed.

(** What [write_data]'s loop writes from a state where [prev] are the bits
    already in the open byte. *)
Lemma write_loop_bits (data : list bool) :
  forall (i byte_w : Z) (prev : list bool),
    0 <= i ->
    Z.of_nat (length prev) = i mod 8 ->
    0 <= byte_w < 256 ->
    byte_bits byte_w = prev ++ replicate (8 - length prev) false ->
    flat_map byte_bits (write_loop data i byte_w (negb (i mod 8 =? 0)) [])
    = prev ++ data
      ++ replicate ((8 - (length prev + length data) mod 8) mod 8)%nat false
    /\ Forall (fun B => 0 <= B < 256)
         (write_loop data i byte_w (negb (i mod 8 =? 0)) []).
Proof.
  induction data as [|b data IH]; intros i byte_w prev Hi Hprev Hw Hbits.
  - pose proof (Z.mod_pos_bound i 8 ltac:(lia)) as Hk.
    cbn [write_loop length]. rewrite Nat.add_0_r.
    destruct (Z.eqb_spec (i mod 8) 0) as [H0|H0]; cbn [negb].
    + destruct prev; [|cbn [length] in Hprev; lia]. split; [reflexivity|constructor].
    + cbn [flat_map app]. rewrite app_nil_r, Hbits. split.
      * do 2 f_equal.
        rewrite (Nat.mod_small (length prev)) by lia.
        rewrite Nat.mod_small by lia. reflexivity.
      * repeat constructor; lia.
  - pose proof (Z.mod_pos_bound i 8 ltac:(lia)) as Hk.
    assert (Hlt : (length prev < 8)%nat) by lia.
    assert (Hdrop : drop (length prev) (byte_bits byte_w)
                    = replicate (8 - length prev) false)
      by (rewrite Hbits; apply drop_app_length).
    assert (Htake : take (length prev) (byte_bits byte_w) = prev)
      by (rewrite Hbits; apply take_app_length).
    destruct (write_bit_bits byte_w (length prev) b Hw Hlt Hdrop) as [Hb' Hw'].
    rewrite Htake in Hb'. rewrite Hprev in Hb', Hw'.
    cbn [write_loop].
    set (byte' := if b then Z.lor byte_w (Z.shiftr 128 (i mod 8)) else byte_w) in *.
    assert (Hnext : (i + 1) mod 8 = if i mod 8 =? 7 then 0 else i mod 8 + 1).
    { destruct (Z.eqb_spec (i mod 8) 7); Z.div_mod_to_equations; lia. }
    destruct (Z.eqb_spec (i mod 8) 7) as [H7|H7].
    + rewrite write_loop_acc. cbn [app flat_map].
      destruct (IH (i + 1) 0 []) as [IHb IHr];
        [lia | rewrite Hnext; reflexivity | lia | reflexivity |].
      rewrite Hnext in IHb, IHr. cbn [negb Z.eqb] in IHb, IHr.
      rewrite IHb, Hb'. split; [|constructor; assumption].
      replace (7 - length prev)%nat with 0%nat by lia.
      cbn [replicate length app Nat.add]. rewrite <- app_assoc. cbn [app].
      do 3 f_equal. f_equal.
      replace (length prev + S (length data))%nat
        with (length data + 1 * 8)%nat by lia.
      rewrite Nat.Div0.mod_add. reflexivity.
    + destruct (IH (i + 1) byte' (prev ++ [b])) as [IHb IHr].
      * lia.
      * rewrite Hnext, length_app. cbn [length]. lia.
      * exact Hw'.
      * rewrite Hb', length_app, <- app_assoc. cbn [length app].
        replace (8 - (length prev + 1))%nat with (7 - length prev)%nat by lia.
        reflexivity.
      * rewrite Hnext in IHb, IHr.
        destruct (Z.eqb_spec (i mod 8 + 1) 0) as [|_]; [lia|].
        cbn [negb] in IHb, IHr. split; [|exact IHr].
        rewrite IHb, length_app, <- app_assoc. cbn [length app].
        replace (length prev + 1 + length data)%nat
          with (length prev + S (length data))%nat by lia.
        reflexivity.
Qed.

Lemma write_data_split (le : bool) (data : list bool) :
  write_data le data
  = le_bytes (sizeof uint64_t) (vec_size data) ++ write_loop data 0 0 false [].
Proof.
  unfold write_data. rewrite to_bytes_le_bytes, write_loop_acc.
  rewrite firstn_all2 by (rewrite le_bytes_length; reflexivity). reflexivity.
Qed.

Lemma payload_bits (data : list bool) :
  flat_map byte_bits (write_loop data 0 0 false [])
  = data ++ replicate ((8 - length data mod 8) mod 8)%nat false
  /\ Forall (fun B => 0 <= B < 256) (write_loop data 0 0 false [])
  /\ length (write_loop data 0 0 false []) = ((length data + 7) / 8)%nat.
Proof.
  destruct (write_loop_bits data 0 0 []) as [Hb Hr];
    [lia | reflexivity | lia | reflexivity |].
  change (negb (0 mod 8 =? 0)) with false in Hb, Hr.
  cbn [app length Nat.add] in Hb. split; [exact Hb|]. split; [exact Hr|].
  apply (f_equal (@length bool)) in Hb.
  rewrite flat_map_byte_bits_length, length_app, length_replicate in Hb.
  revert Hb. generalize (length (write_loop data 0 0 false [])).
  generalize (length data). intros n m Hb.
  zify. Z.div_mod_to_equations. lia.
Qed.

(** X7.  The file [write_data] writes, on either host: the bit count as
    eight little-endian bytes, then [ceil(n/8)] bytes which, spelled most
    significant bit first, are the data followed by zero bits up to the next
    byte boundary.  Every byte written is in [0, 256). *)
Theorem write_data_layout (le : bool) (data : list bool) :
  exists payload,
    write_data le data = le_bytes 8 (vec_size data) ++ payload
    /\ flat_map byte_bits payload
       = data ++ replicate ((8 - length data mod 8) mod 8)%nat false
    /\ length payload = ((length data + 7) / 8)%nat
    /\ Forall (fun B => 0 <= B < 256) (write_data le data).
Proof.
  destruct (payload_bits data) as (Hb & Hr & Hl).
  exists (write_loop data 0 0 false []).
  split; [apply write_data_split|]. split; [exact Hb|]. split; [exact Hl|].
  rewrite write_data_split. apply Forall_app. split; [apply le_bytes_range|exact Hr].
Qed.

Lemma read_loop_more (extra : list Z) (n : nat) :
  forall (i byte : Z) (in_file : list Z) (out r : list bool),
    read_loop n i byte in_file out = Ok r ->
    read_loop n i byte (in_file ++ extra) out = Ok r.
Proof.
  induction n as [|n IH]; intros i byte in_file out r; cbn [read_loop];
    [trivial|].
  destruct (i mod 8 =? 0).
  - destruct in_file as [|byte' in_file]; [discriminate|]. cbn [app]. apply IH.
  - apply IH.
Qed.

Lemma read_data_header (le : bool) (data : list bool) (rest : list Z) :
  vec_size data < 2 ^ 64 ->
  read_data true (le_bytes (sizeof uint64_t) (vec_size data) ++ rest)
  = read_loop (length data) 0 0 rest [].
Proof.
  intros Hsize.
  set (header := le_bytes (sizeof uint64_t) (vec_size data)).
  assert (Hlen : length header = sizeof uint64_t) by apply le_bytes_length.
  unfold read_data. rewrite length_app, Hlen.
  destruct (Nat.ltb_spec (sizeof uint64_t + length rest) (sizeof uint64_t))
    as [Hlt|_]; [lia|].
  rewrite take_app_length', drop_app_length' by (symmetry; exact Hlen).
  pose proof (from_bytes_reads true uint64_t [] header []) as Hread.
  cbn [app length] in Hread. change (Z.of_nat 0) with 0 in Hread.
  rewrite app_nil_r in Hread.
  rewrite Hread; [|unfold vec_size; rewrite Hlen; reflexivity|exact Hlen].
  run_bind. unfold object_value, header.
  rewrite le_value_le_bytes. unfold interpret. cbn [is_signed uint64_t andb].
  change (2 ^ (8 * Z.of_nat (sizeof uint64_t))) with (2 ^ 64).
  unfold vec_size in *. rewrite Z.mod_small by lia. rewrite Nat2Z.id.
  reflexivity.
Qed.

(** X8.  On a little-endian host [read_data] returns the bits of a frame
    written by [write_data] on either host, and does not look at what
    follows the frame in the file. *)
Theorem read_data_ignores_trailing (le : bool) (data : list bool)
    (extra : list Z) :
  vec_size data < 2 ^ 64 ->
  read_data true (write_data le data ++ extra) = Ok data.
Proof.
  intros Hsize. rewrite write_data_split, <- app_assoc.
  rewrite (read_data_header le) by exact Hsize.
  apply read_loop_more.
  destruct (read_write_loops data 0 0 []) as [Hloop _].
  - lia.
  - intros j _. apply Z.bits_0.
  - apply Hloop. reflexivity.
Qed.

Lemma read_data_ignores_trailing_witness :
  read_data true (write_data false [true; false; true] ++ [255; 1]) 
  = Ok [true; false; true].
Proof.
  apply (read_data_ignores_trailing false [true; false; true] [255; 1]).
  reflexivity.
Defined.

Lemma read_data_prefix (le : bool) (data : list bool) (k : nat) :
  vec_size data < 2 ^ 64 ->
  (k < length (write_data le data))%nat ->
  read_data true (take k (write_data le data)) = Throw eof_message.
Proof.
  intros Hsize Hk. rewrite write_data_split in *.
  destruct (payload_bits data) as (_ & _ & Hl).
  rewrite length_app, le_bytes_length in Hk.
  destruct (Nat.lt_ge_cases k (sizeof uint64_t)) as [Hshort|Hlong].
  - unfold read_data. rewrite length_take, length_app, le_bytes_length.
    destruct (Nat.ltb_spec (k `min` (sizeof uint64_t
                 + length (write_loop data 0 0 false []))) (sizeof uint64_t));
      [reflexivity | lia].
  - rewrite take_app, le_bytes_length.
    rewrite take_ge by (rewrite le_bytes_length; exact Hlong).
    rewrite (read_data_header le) by exact Hsize.
    apply read_loop_eof; [lia|].
    change ((- 0) mod 8) with 0. rewrite length_take.
    change (sizeof uint64_t) with 8%nat in *.
    revert Hk Hl. generalize (length (write_loop data 0 0 false [])).
    generalize (length data). intros n m Hk Hl. subst m.
    zify. Z.div_mod_to_equations. lia.
Qed.

(** X9.  A frame cut short by at least one byte is rejected: on a
    little-endian host [read_data] throws "premature end of file" on every
    proper prefix of a written frame. *)
Theorem read_data_truncated (le : bool) (data : list bool) (k : nat) :
  vec_size data < 2 ^ 64 ->
  (k < length (write_data le data))%nat ->
  read_data true (take k (write_data le data)) = Throw eof_message.
Proof. apply read_data_prefix. Qed.

Lemma read_data_truncated_witness :
  read_data true (take 9 (write_data true [true; false; true; true; false;
                                           false; false; false; true]))
  = Throw eof_message.
Proof.
  apply (read_data_truncated true
           [true; false; true; true; false; false; false; false; true] 9).
  - reflexivity.
  - vm_compute. repeat constructor.
Defined.

(** * Further properties of [encode] *)

Lemma table_get_absent (m : list (Z * Z)) (x : Z) :
  ~ In x (map fst m) -> table_get m x = 0.
Proof.
  induction m as [|[k c] m IH]; cbn [table_get map fst In]; [reflexivity|].
  intros H. destruct (Z.eqb_spec x k) as [->|_]; [tauto|].
  apply IH. tauto.
Qed.

Lemma sorted_head_absent (k x : Z) (m : list (Z * Z)) :
  StronglySorted Z.lt (k :: map fst m) -> x <= k -> ~ In x (map fst m).
Proof.
  intros Hs Hx Hin. inversion Hs as [|? ? _ Hall]; subst.
  rewrite Stdlib.Lists.List.Forall_forall in Hall. specialize (Hall x Hin). lia.
Qed.

Lemma map_incr_get (k x : Z) (m : list (Z * Z)) :
  StronglySorted Z.lt (map fst m) ->
  table_get (map_incr k m) x
  = if x =? k then wrap64 (table_get m k + 1) else table_get m x.
Proof.
  induction m as [|[k' c] m IH]; cbn [map_incr map fst]; intros Hs.
  - cbn [table_get]. destruct (x =? k); reflexivity.
  - destruct (Z.ltb_spec k k') as [Hlt|Hge].
    + cbn [table_get]. destruct (Z.eqb_spec x k) as [->|Hne]; [|reflexivity].
      destruct (Z.eqb_spec k k') as [|_]; [lia|].
      rewrite table_get_absent; [reflexivity|].
      eapply sorted_head_absent; [exact Hs | lia].
    + inversion Hs as [|? ? Hs' _]; subst.
      destruct (Z.ltb_spec k' k) as [Hlt'|Hge'].
      * cbn [table_get]. rewrite (IH Hs').
        destruct (Z.eqb_spec x k) as [->|Hne].
        -- destruct (Z.eqb_spec k k') as [|_]; [lia | reflexivity].
        -- reflexivity.
      * assert (k = k') by lia. subst k'. cbn [table_get].
        rewrite Z.eqb_refl. destruct (Z.eqb_spec x k); reflexivity.
Qed.

Lemma wrap64_succ (a : Z) : wrap64 (wrap64 a + 1) = wrap64 (a + 1).
Proof. unfold wrap64. apply Z.add_mod_idemp_l. lia. Qed.

Lemma freq_table_get_from (data : list Z) (x : Z) :
  forall m : list (Z * Z),
    StronglySorted Z.lt (map fst m) ->
    wrap64 (table_get (fold_left (fun m x => map_incr x m) data m) x)
    = wrap64 (table_get m x + Z.of_nat (count_occ Z.eq_dec data x)).
Proof.
  induction data as [|d data IH]; intros m Hs; cbn [fold_left count_occ].
  - rewrite Z.add_0_r. reflexivity.
  - rewrite IH by (apply map_incr_keys; exact Hs).
    rewrite map_incr_get by exact Hs.
    destruct (Z.eq_dec d x) as [->|Hne].
    + rewrite Z.eqb_refl. unfold wrap64.
      rewrite Z.add_mod_idemp_l, <- Z.add_mod_idemp_l by lia.
      rewrite Z.add_mod_idemp_l by lia.
      rewrite <- (Z.add_mod_idemp_l (table_get m x + 1)) by lia.
      rewrite Z.add_mod_idemp_l by lia. f_equal. lia.
    + destruct (Z.eqb_spec x d) as [|_]; [congruence | reflexivity].
Qed.

Lemma table_values_wrapped_incr (k : Z) (m : list (Z * Z)) :
  Forall (fun p => p.2 = wrap64 p.2) m ->
  Forall (fun p => p.2 = wrap64 p.2) (map_incr k m).
Proof.
  assert (Hw : forall a, wrap64 a = wrap64 (wrap64 a)).
  { intros a. unfold wrap64. rewrite Z.mod_mod by lia. reflexivity. }
  induction 1 as [|[k' c] m Hc Hm IH]; cbn [map_incr].
  - constructor; [apply Hw | constructor].
  - destruct (k <? k').
    + constructor; [apply Hw|]. constructor; assumption.
    + destruct (k' <? k); constructor; try assumption. apply Hw.
Qed.

Lemma freq_table_values_wrapped (data : list Z) :
  Forall (fun p => p.2 = wrap64 p.2) (freq_table data).
Proof.
  unfold freq_table.
  assert (H : forall m, Forall (fun p : Z * Z => p.2 = wrap64 p.2) m ->
              Forall (fun p : Z * Z => p.2 = wrap64 p.2)
                (fold_left (fun m x => map_incr x m) data m)).
  { induction data as [|d data IH]; intros m Hm; cbn [fold_left]; [exact Hm|].
    apply IH, table_values_wrapped_incr, Hm. }
  apply H. constructor.
Qed.

Lemma table_get_entry (m : list (Z * Z)) (x c : Z) :
  StronglySorted Z.lt (map fst m) ->
  (x, c) ∈ m <-> In x (map fst m) /\ c = table_get m x.
Proof.
  induction m as [|[k c'] m IH]; cbn [map fst table_get In]; intros Hs.
  - split; [intros H; inversion H | tauto].
  - inversion Hs as [|? ? Hs' Hall]; subst. rewrite elem_of_cons, (IH Hs').
    destruct (Z.eqb_spec x k) as [->|Hne].
    + assert (Hk : ~ In k (map fst m))
        by (eapply sorted_head_absent; [exact Hs | lia]).
      split.
      * intros [[= ->]|[Hin _]]; [tauto | contradiction].
      * intros [_ ->]. left. reflexivity.
    + split.
      * intros [[= -> _]|H]; [contradiction | tauto].
      * intros [[->|Hin] Hc]; [contradiction | tauto].
Qed.

(** The table holds, for each symbol of the input and for nothing else, the
    number of its occurrences. *)
Lemma freq_table_entries (data : list Z) (x c : Z) :
  (x, c) ∈ freq_table data
  <-> In x data /\ c = wrap64 (Z.of_nat (count_occ Z.eq_dec data x)).
Proof.
  destruct (freq_table_keys data) as [Hs Hin].
  rewrite (table_get_entry _ _ _ Hs), Hin.
  assert (Hget : In x data ->
            table_get (freq_table data) x
            = wrap64 (Z.of_nat (count_occ Z.eq_dec data x))).
  { intros Hx.
    pose proof (freq_table_get_from data x [] ltac:(constructor)) as Hget.
    fold (freq_table data) in Hget. cbn [table_get] in Hget.
    rewrite Z.add_0_l in Hget. rewrite <- Hget.
    assert (Hmem : (x, table_get (freq_table data) x) ∈ freq_table data).
    { apply (table_get_entry _ _ _ Hs). split; [apply Hin; exact Hx | reflexivity]. }
    pose proof (freq_table_values_wrapped data) as Hw.
    rewrite Forall_forall in Hw. apply (Hw _ Hmem). }
  split; intros [Hx Hc]; (split; [exact Hx|]); rewrite Hc.
  - apply Hget, Hx.
  - symmetry. apply Hget, Hx.
Qed.

Lemma sorted_entries_ext (m1 : list (Z * Z)) :
  forall m2 : list (Z * Z),
    StronglySorted Z.lt (map fst m1) ->
    StronglySorted Z.lt (map fst m2) ->
    (forall p, p ∈ m1 <-> p ∈ m2) ->
    m1 = m2.
Proof.
  induction m1 as [|p m1 IH]; intros m2 Hs1 Hs2 Hext.
  - destruct m2 as [|q m2]; [reflexivity|].
    assert (H : q ∈ ([] : list (Z * Z))) by (apply Hext; left). inversion H.
  - destruct m2 as [|q m2].
    { assert (H : p ∈ ([] : list (Z * Z))) by (apply Hext; left). inversion H. }
    cbn [map] in Hs1, Hs2.
    inversion Hs1 as [|? ? Hs1' Hall1]; subst.
    inversion Hs2 as [|? ? Hs2' Hall2]; subst.
    rewrite Stdlib.Lists.List.Forall_forall in Hall1, Hall2.
    assert (Hin1 : forall r, r ∈ m1 -> fst p < fst r).
    { intros r Hr. apply Hall1, in_map, list_elem_of_In, Hr. }
    assert (Hin2 : forall r, r ∈ m2 -> fst q < fst r).
    { intros r Hr. apply Hall2, in_map, list_elem_of_In, Hr. }
    assert (Hpq : p = q).
    { assert (Hp : p ∈ q :: m2) by (apply Hext; left).
      assert (Hq : q ∈ p :: m1) by (apply Hext; left).
      apply elem_of_cons in Hp as [Hp|Hp]; [exact Hp|].
      apply elem_of_cons in Hq as [Hq|Hq]; [symmetry; exact Hq|].
      specialize (Hin1 q Hq). specialize (Hin2 p Hp). lia. }
    subst q. f_equal. apply IH; [assumption..|].
    intros r. split; intros Hr.
    + assert (H : r ∈ p :: m2) by (apply Hext; right; exact Hr).
      apply elem_of_cons in H as [->|H]; [|exact H].
      specialize (Hin1 p Hr). lia.
    + assert (H : r ∈ p :: m1) by (apply Hext; right; exact Hr).
      apply elem_of_cons in H as [->|H]; [|exact H].
      specialize (Hin2 p Hr). lia.
Qed.

Lemma freq_table_perm (data data' : list Z) :
  data ≡ₚ data' -> freq_table data = freq_table data'.
Proof.
  intros Hp. apply sorted_entries_ext; try apply freq_table_keys.
  intros [x c]. rewrite !freq_table_entries.
  rewrite (proj1 (Permutation_count_occ Z.eq_dec data data') Hp x).
  split; intros [Hx Hc]; (split; [|exact Hc]).
  - eapply Permutation_in; [exact Hp | exact Hx].
  - eapply Permutation_in; [symmetry; exact Hp | exact Hx].
Qed.

(** X10.  The tree and the code table depend on how often each symbol
    occurs and not on where: inputs that are rearrangements of one another
    get the same tree and the same table. *)
Theorem build_permutation (data data' : list Z) :
  data ≡ₚ data' -> build data = build data'.
Proof.
  intros Hp. unfold build, initial_nodes.
  rewrite (freq_table_perm data data' Hp). reflexivity.
Qed.

Lemma build_permutation_witness : build [97; 98; 97; 99] = build aabc.
Proof.
  apply (build_permutation [97; 98; 97; 99] aabc).
  apply perm_skip, perm_swap.
Defined.

(** X11.  The collection the merge loop starts with holds one leaf per
    distinct symbol of the input, carrying the number of its occurrences
    (as a [size_t]), and nothing else; it is ordered by frequency,
    descending. *)
Theorem initial_nodes_leaves (data : list Z) (n : Enc.Node) :
  (n ∈ initial_nodes data
   <-> exists x, In x data
                 /\ n = Enc.Node_leaf x
                          (wrap64 (Z.of_nat (count_occ Z.eq_dec data x))))
  /\ NoDup (initial_nodes data)
  /\ ordered (initial_nodes data).
Proof.
  split; [|split; [|apply list_sort_ordered]].
  - unfold initial_nodes. rewrite <- (list_sort_perm _).
    rewrite list_elem_of_In, in_map_iff. split.
    + intros ([x c] & <- & Hin). apply list_elem_of_In, freq_table_entries in Hin.
      destruct Hin as [Hx ->]. exists x. split; [exact Hx | reflexivity].
    + intros (x & Hx & ->).
      exists (x, wrap64 (Z.of_nat (count_occ Z.eq_dec data x))).
      split; [reflexivity|].
      apply list_elem_of_In, freq_table_entries. split; [exact Hx | reflexivity].
  - unfold initial_nodes. rewrite <- (list_sort_perm _).
    apply (NoDup_fmap_1 (fun n => Enc.values n)).
    pose proof (flat_map_values_leaves (freq_table data)) as Hv.
    assert (Heq : (fun n => Enc.values n)
                  <$> map (fun it => Enc.Node_leaf it.1 it.2) (freq_table data)
                  = (fun k => [k]) <$> map fst (freq_table data)).
    { clear. induction (freq_table data) as [|[k c] m IH]; [reflexivity|].
      cbn. f_equal. exact IH. }
    rewrite Heq. apply NoDup_fmap_2; [intros a b [=]; assumption|].
    apply sorted_lt_NoDup, freq_table_keys.
Qed.

Lemma loop_state_ordered (data : list Z) (nodes : list Enc.Node)
    (lut : gmap Z (list bool)) :
  loop_state data nodes lut -> ordered nodes.
Proof.
  induction 1 as [|nodes lut nodes' lut' _ IH Hstep].
  - apply list_sort_ordered.
  - destruct (merge_step_inv _ _ _ _ Hstep) as (rest & r & l & -> & -> & _).
    apply reinsert_ordered. apply ordered_app_inv in IH. apply IH.
Qed.

Lemma merge_loop_states (data : list Z) (fuel : nat) :
  forall (nodes nodes' : list Enc.Node) (lut lut' : gmap Z (list bool)),
    loop_state data nodes lut ->
    merge_loop fuel nodes lut = Ok (nodes', lut') ->
    loop_state data nodes' lut' /\ merge_step nodes' lut' = Ok None.
Proof.
  induction fuel as [|fuel IH]; intros nodes nodes' lut lut' Hst; cbn [merge_loop];
    [discriminate|].
  destruct (merge_step nodes lut) as [[[n1 l1]|]| | |] eqn:Hstep; run_bind;
    try discriminate.
  - apply IH. eapply loop_turn; [exact Hst | exact Hstep].
  - intros [= <- <-]. split; [exact Hst | exact Hstep].
Qed.

Lemma ordered_app_least (l1 l2 : list Enc.Node) :
  ordered (l1 ++ l2) ->
  forall x y, x ∈ l1 -> y ∈ l2 -> Enc.freq y <= Enc.freq x.
Proof.
  unfold ordered. induction l1 as [|a l1 IH]; cbn [app]; intros Hs x y Hx Hy.
  - inversion Hx.
  - inversion Hs as [|? ? Hs' Hall]; subst.
    apply elem_of_cons in Hx as [->|Hx].
    + rewrite Forall_forall in Hall. apply (Hall y).
      apply elem_of_app. right. exact Hy.
    + apply (IH Hs' x y Hx Hy).
Qed.

(** X12.  The tree [encode] builds is reached by turns of the merge loop
    from the sorted leaves, and at every turn the collection is ordered by
    frequency: the two nodes merged are the two of least frequency, [l] the
    lesser. *)
Theorem merge_takes_least (data : list Z) :
  (forall tree lut, build data = Ok (tree, lut) -> loop_state data [tree] lut)
  /\ forall nodes lut nodes' lut',
       loop_state data nodes lut ->
       merge_step nodes lut = Ok (Some (nodes', lut')) ->
       exists rest r l,
         nodes = rest ++ [r; l]
         /\ nodes' ≡ₚ Enc.Node_merge l r :: rest
         /\ Enc.freq l <= Enc.freq r
         /\ Forall (fun n => Enc.freq r <= Enc.freq n) rest.
Proof.
  split.
  - intros tree lut. unfold build.
    destruct (merge_loop _ _ _) as [[nodes lut0]| | |] eqn:Hrun; run_bind;
      try discriminate.
    destruct (merge_loop_states data _ _ _ _ _ (loop_start data) Hrun)
      as [Hst Hbreak].
    destruct (merge_step_break _ _ Hbreak) as [root ->].
    intros [= <- <-]. exact Hst.
  - intros nodes lut nodes' lut' Hst Hstep.
    pose proof (loop_state_ordered _ _ _ Hst) as Hord.
    destruct (merge_step_inv _ _ _ _ Hstep) as (rest & r & l & -> & -> & _).
    exists rest, r, l. split; [reflexivity|].
    split; [symmetry; apply reinsert_perm|]. split.
    + change (rest ++ [r; l]) with (rest ++ [r] ++ [l]) in Hord.
      rewrite app_assoc in Hord.
      apply (ordered_app_least _ _ Hord r l).
      * apply elem_of_app. right. left.
      * left.
    + apply Forall_forall. intros n Hn.
      apply (ordered_app_least _ _ Hord n r Hn). left.
Qed.

(** ** Size of the output *)

Lemma encode_tree_size (le : bool) (T : scalar) (n : Enc.Node) :
  proper n ->
  exists bits,
    encode_tree le T n = Ok bits
    /\ (length bits + 1 = length (Enc.values n) * (8 * sizeof T + 2))%nat.
Proof.
  induction 1 as [v f | l r Hl (bl & Hbl & Hll) Hr (br & Hbr & Hlr)].
  - exists ([true] ++ to_bits le T v). split; [reflexivity|].
    cbn [app length Enc.values Enc.Node_leaf]. rewrite to_bits_length. lia.
  - exists ([false] ++ bl ++ br). split.
    + unfold Enc.Node_merge. cbn [encode_tree]. rewrite Hbl, Hbr. reflexivity.
    + cbn [app length Enc.values Enc.Node_merge]. rewrite !length_app. lia.
Qed.

Lemma leads_to_depth (n : Enc.Node) :
  proper n ->
  forall p v, leads_to n p v -> (length p < length (Enc.values n))%nat.
Proof.
  induction 1 as [w f | l r Hl IHl Hr IHr]; intros p v Hp.
  - inversion Hp; subst. cbn. lia.
  - pose proof (proper_values_nonempty l Hl) as Hnl.
    pose proof (proper_values_nonempty r Hr) as Hnr.
    unfold Enc.Node_merge in *. cbn [Enc.values]. rewrite length_app.
    destruct (Enc.values l) as [|? ?] eqn:El; [contradiction|].
    destruct (Enc.values r) as [|? ?] eqn:Er; [contradiction|].
    inversion Hp; subst; cbn [length].
    + match goal with H : leads_to l _ _ |- _ => specialize (IHl _ _ H) end.
      cbn [length] in *. lia.
    + match goal with H : leads_to r _ _ |- _ => specialize (IHr _ _ H) end.
      cbn [length] in *. lia.
Qed.

Lemma values_distinct_count (data : list Z) (tree : Enc.Node)
    (lut : gmap Z (list bool)) :
  merge_inv [tree] lut ->
  (forall x, x ∈ Enc.values tree <-> x ∈ data) ->
  length (Enc.values tree) = length (remove_dups data).
Proof.
  intros Hinv Hvals. apply Permutation_length, NoDup_Permutation.
  - pose proof (inv_nodup _ _ Hinv) as Hnd. cbn [flat_map] in Hnd.
    rewrite app_nil_r in Hnd. exact Hnd.
  - apply NoDup_remove_dups.
  - intros x. rewrite elem_of_remove_dups. apply Hvals.
Qed.

Lemma build_Ok_inv (data : list Z) (tree : Enc.Node) (lut : gmap Z (list bool)) :
  build data = Ok (tree, lut) ->
  data <> []
  /\ merge_inv [tree] lut
  /\ (forall x, x ∈ Enc.values tree <-> x ∈ data).
Proof.
  intros Hb. assert (Hne : data <> []) by (intros ->; discriminate).
  destruct (build_ok data Hne) as (tree' & lut' & Hb' & Hinv & Hvals).
  rewrite Hb in Hb'. injection Hb' as <- <-.
  split; [exact Hne|]. split; [exact Hinv | exact Hvals].
Qed.

Lemma codes_length_bound (lut : gmap Z (list bool)) (k : nat) (data : list Z) :
  (forall x, x ∈ data -> (length (code lut x) <= k)%nat) ->
  (length (concat (map (code lut) data)) <= length data * k)%nat.
Proof.
  induction data as [|d data IH]; intros H; cbn [map concat length]; [lia|].
  rewrite length_app.
  pose proof (H d ltac:(left)).
  pose proof (IH (fun x Hx => H x ltac:(right; exact Hx))). lia.
Qed.

Lemma encode_layout (le : bool) (T : scalar) (data : list Z)
    (out : list bool) :
  encode le T data = Ok out ->
  exists tree lut bits,
    build data = Ok (tree, lut)
    /\ encode_tree le T tree = Ok bits
    /\ out = bits ++ concat (map (code lut) data)
    /\ (length bits + 1
        = length (remove_dups data) * (8 * sizeof T + 2))%nat
    /\ (length out + 1
        <= length (remove_dups data) * (8 * sizeof T + 2)
           + length data * (length (remove_dups data) - 1))%nat.
Proof.
  intros Henc. unfold encode in Henc.
  destruct (build data) as [[tree lut]| | |] eqn:Hb; try discriminate.
  revert Henc. run_bind. intros Henc.
  destruct (build_Ok_inv _ _ _ Hb) as (Hne & Hinv & Hvals).
  assert (Hproper : proper tree).
  { pose proof (inv_proper _ _ Hinv) as H. inversion H; assumption. }
  destruct (encode_tree_size le T tree Hproper) as (bits & Hbits & Hlen).
  rewrite Hbits in Henc. revert Henc. run_bind. rewrite fold_emit.
  intros [= <-].
  rewrite (values_distinct_count data tree lut Hinv Hvals) in Hlen.
  exists tree, lut, bits. repeat split; try assumption.
  rewrite length_app.
  assert (Hcodes : (length (concat (map (code lut) data))
                    <= length data * (length (remove_dups data) - 1))%nat).
  { apply codes_length_bound. intros x Hx.
    pose proof (leads_to_depth tree Hproper (code lut x) x) as Hd.
    rewrite (values_distinct_count data tree lut Hinv Hvals) in Hd.
    assert (leads_to tree (code lut x) x)
      by (apply (inv_codes _ _ Hinv); [left | apply Hvals; exact Hx]).
    specialize (Hd ltac:(assumption)). lia. }
  lia.
Qed.

(** X13.  What [encode] returns is the serialized tree followed by the codes
    of the symbols in input order.  With [k] distinct symbols the tree
    takes exactly [k * (8 * sizeof T + 2) - 1] bits, and the whole output at
    most [length data * (k - 1)] bits more. *)
Theorem encode_output_layout (le : bool) (T : scalar) (data : list Z)
    (out : list bool) :
  encode le T data = Ok out ->
  exists tree lut bits,
    build data = Ok (tree, lut)
    /\ encode_tree le T tree = Ok bits
    /\ out = bits ++ concat (map (code lut) data)
    /\ (length bits + 1
        = length (remove_dups data) * (8 * sizeof T + 2))%nat
    /\ (length out + 1
        <= length (remove_dups data) * (8 * sizeof T + 2)
           + length data * (length (remove_dups data) - 1))%nat.
Proof. apply encode_layout. Qed.

Lemma encode_output_layout_witness :
  exists tree lut bits,
    build aabc = Ok (tree, lut)
    /\ encode_tree true char tree = Ok bits
    /\ aabc_tree_bits ++ [false; false; true; true; true; false]
       = bits ++ concat (map (code lut) aabc)
    /\ (length bits + 1 = length (remove_dups aabc) * (8 * sizeof char + 2))%nat
    /\ (length (aabc_tree_bits ++ [false; false; true; true; true; false]) + 1
        <= length (remove_dups aabc) * (8 * sizeof char + 2)
           + length aabc * (length (remove_dups aabc) - 1))%nat.
Proof.
  apply (encode_output_layout true char aabc).
  vm_compute. reflexivity.
Defined.

Lemma build_code_lengths (data : list Z) (tree : Enc.Node)
    (lut : gmap Z (list bool)) (x : Z) :
  build data = Ok (tree, lut) ->
  x ∈ data ->
  (length (code lut x) < length (remove_dups data))%nat
  /\ ((exists y, y ∈ data /\ y <> x) -> code lut x <> []).
Proof.
  intros Hb Hx. destruct (build_Ok_inv _ _ _ Hb) as (Hne & Hinv & Hvals).
  assert (Hproper : proper tree).
  { pose proof (inv_proper _ _ Hinv) as H. inversion H; assumption. }
  assert (Hpath : leads_to tree (code lut x) x)
    by (apply (inv_codes _ _ Hinv); [left | apply Hvals; exact Hx]).
  split.
  - rewrite <- (values_distinct_count data tree lut Hinv Hvals).
    apply (leads_to_depth tree Hproper _ x Hpath).
  - intros (y & Hy & Hne') Hnil. rewrite Hnil in Hpath.
    inversion Hpath as [v vs f l r Htree| |]; subst.
    destruct (proper_leaf_values _ Hproper eq_refl) as [w Hw].
    cbn [Enc.values] in Hw. injection Hw as -> ->.
    apply Hvals in Hy. cbn [Enc.values] in Hy.
    apply list_elem_of_singleton in Hy. contradiction.
Qed.

(** X14.  For every symbol of the input, the merge loop ends with a tree
    and a code table, and with [k] distinct symbols in the input the code of
    the symbol has fewer than [k] bits, and at least one bit as soon as the
    input holds another symbol. *)
Theorem code_lengths (data : list Z) (x : Z) :
  x ∈ data ->
  exists tree lut,
    build data = Ok (tree, lut)
    /\ (length (code lut x) < length (remove_dups data))%nat
    /\ ((exists y, y ∈ data /\ y <> x) -> code lut x <> []).
Proof.
  intros Hx.
  assert (Hne : data <> []) by (intros ->; inversion Hx).
  destruct (build_ok data Hne) as (tree & lut & Hb & _).
  exists tree, lut. split; [exact Hb|].
  exact (build_code_lengths data tree lut x Hb Hx).
Qed.

Lemma code_lengths_witness :
  exists tree lut,
    build ab = Ok (tree, lut)
    /\ (length (code lut 97) < length (remove_dups ab))%nat
    /\ ((exists y, y ∈ ab /\ y <> 97) -> code lut 97 <> []).
Proof.
  apply (code_lengths ab 97).
  left.
Defined.

(** ** Round trip across hosts *)

Lemma encode_host (le le' : bool) (T : scalar) (data : list Z) :
  encode le T data = encode le' T data.
Proof.
  unfold encode. destruct (build data) as [[tree lut]| | |]; run_bind;
    try reflexivity.
  rewrite (encode_tree_host le le'). reflexivity.
Qed.

Lemma round_trip (le le' : bool) (T : scalar) (data : list Z) :
  Forall (in_range T) data ->
  (exists x y, x ∈ data /\ y ∈ data /\ x <> y) ->
  Z.of_nat (length (remove_dups data)) * (bits_of_type T + 2)
  + Z.of_nat (length data) * (Z.of_nat (length (remove_dups data)) - 1)
  <= 2 ^ 64 ->
  exists out, encode le T data = Ok out /\ decode le' T out = Ok data.
Proof.
  intros Hrange Hxy Hsize.
  destruct (decode_encode_two_symbols le' T data Hrange Hxy) as (out & Henc & Hdec).
  exists out. rewrite (encode_host le le'). split; [exact Henc|].
  apply Hdec.
  destruct (encode_layout le' T data out Henc) as (_ & _ & _ & _ & _ & _ & _ & Hb).
  unfold vec_size, bits_of_type in *.
  assert (Hk : (1 <= length (remove_dups data))%nat).
  { destruct Hxy as (x & _ & Hx & _).
    apply elem_of_remove_dups in Hx.
    destruct (remove_dups data); [inversion Hx | cbn [length]; lia]. }
  nia.
Qed.

(** X15.  For every input with at least two distinct symbols whose encoding
    fits a vector, [decode] returns the input from what [encode] returned,
    also when the two run on hosts of different byte order. *)
Theorem decode_encode_across_hosts (le le' : bool) (T : scalar) (data : list Z) :
  Forall (in_range T) data ->
  (exists x y, x ∈ data /\ y ∈ data /\ x <> y) ->
  Z.of_nat (length (remove_dups data)) * (bits_of_type T + 2)
  + Z.of_nat (length data) * (Z.of_nat (length (remove_dups data)) - 1)
  <= 2 ^ 64 ->
  exists out, encode le T data = Ok out /\ decode le' T out = Ok data.
Proof. apply round_trip. Qed.

Lemma decode_encode_across_hosts_witness :
  exists out, encode false char aabc = Ok out /\ decode true char out = Ok aabc.
Proof.
  apply (decode_encode_across_hosts false true char aabc).
  - repeat constructor; vm_compute; try discriminate; split; discriminate.
  - exists 97, 98. split; [left|]. split; [right; right; left | discriminate].
  - vm_compute. discriminate.
Defined.

(** * Further properties of [decode] *)

(** X16.  Cutting an encoded stream anywhere inside its tree part makes
    [decode] fail: it indexes past the end of the stream or throws
    "from_bits: input data too small."; it never returns symbols. *)
Theorem decode_cut_inside_tree (le : bool) (T : scalar) (data : list Z)
    (out : list bool) (k : nat) :
  Forall (in_range T) data ->
  encode le T data = Ok out ->
  (k + 1 < length (remove_dups data) * (8 * sizeof T + 2))%nat ->
  Z.of_nat k < 2 ^ 64 ->
  decode le T (take k out) = Undefined OutOfBounds
  \/ decode le T (take k out) = Throw "from_bits: input data too small.".
Proof.
  intros Hrange Henc Hk Hsize.
  destruct (encode_layout le T data out Henc)
    as (tree & lut & bits & Hb & Hbits & -> & Hlen & _).
  destruct (build_Ok_inv _ _ _ Hb) as (_ & Hinv & Hvals).
  rewrite take_app_le by lia.
  apply (decode_truncated_tree le T tree bits k).
  - pose proof (inv_proper _ _ Hinv) as H. inversion H; assumption.
  - apply Forall_forall. intros x Hx. rewrite Forall_forall in Hrange.
    apply Hrange, Hvals, Hx.
  - exact Hbits.
  - lia.
  - unfold vec_size. rewrite length_take. lia.
Qed.

Lemma decode_cut_inside_tree_witness :
  decode true char
    (take 12 (aabc_tree_bits ++ [false; false; true; true; true; false]))
  = Undefined OutOfBounds
  \/ decode true char
       (take 12 (aabc_tree_bits ++ [false; false; true; true; true; false]))
     = Throw "from_bits: input data too small.".
Proof.
  apply (decode_cut_inside_tree true char aabc).
  - repeat constructor; vm_compute; try discriminate; split; discriminate.
  - vm_compute. reflexivity.
  - vm_compute. repeat constructor.
  - reflexivity.
Defined.

Lemma decode_loop_length (tree : Dec.Node) (bits : list bool) :
  forall (cur : Dec.Node) (out r : list Z),
    decode_loop tree cur bits out = Ok r ->
    (length r <= length out + length bits)%nat.
Proof.
  induction bits as [|b bits IH]; intros cur out r; cbn [decode_loop length].
  - intros [= <-]. lia.
  - destruct (if b then Dec.second cur else Dec.first cur) as [next|];
      [|discriminate].
    destruct (Dec.end_ next).
    + destruct (vec_at (Dec.values next) 0); run_bind; try discriminate.
      intros H. apply IH in H. rewrite length_app in H. cbn [length] in H. lia.
    + intros H. apply IH in H. lia.
Qed.

(** A node that is read takes at least a tag bit and the bits of one
    symbol. *)
Lemma Node_parse_consumes (le : bool) (T : scalar) (data : list bool) :
  vec_size data < 2 ^ 64 ->
  forall (fuel : nat) (start : Z) (n : Dec.Node) (start' : Z),
    0 <= start <= vec_size data ->
    vec_size data - start < Z.of_nat fuel ->
    Node_parse le T fuel data start = Ok (n, start') ->
    start + 1 + Z.of_nat (sizeof T) * 8 <= start' <= vec_size data.
Proof.
  intros Hsize. induction fuel as [|fuel IH]; intros start n start' Hstart Hfuel;
    [lia|].
  cbn [Node_parse].
  destruct (vec_at data start) as [e| | |] eqn:He; run_bind; try discriminate.
  apply vec_at_Ok_bound in He; [|lia].
  rewrite (wrap64_small (start + 1)) by lia.
  destruct e.
  - destruct (from_bits le T data (start + 1)) as [v| | |] eqn:Hv; run_bind;
      try discriminate.
    apply from_bits_Ok_bound in Hv; [|lia|exact Hsize].
    rewrite wrap64_small by lia. intros [= <- <-]. lia.
  - destruct (Node_parse le T fuel data (start + 1)) as [[l s1]| | |] eqn:Hl;
      run_bind; try discriminate.
    apply IH in Hl; [|lia|lia].
    destruct (Node_parse_fuel le T data Hsize fuel s1) as [_ Hrb]; [lia|lia|].
    destruct (Node_parse le T fuel data s1) as [[r s2]| | |] eqn:Hr;
      run_bind; try discriminate.
    specialize (Hrb r s2 eq_refl). intros [= <- <-]. lia.
Qed.

(** X17.  [decode] returns at most one symbol per payload bit: the symbols
    it returns, the tag bit and the bits of one symbol together never
    outnumber the bits of the stream. *)
Theorem decode_output_bound (le : bool) (T : scalar) (data : list bool)
    (out : list Z) :
  vec_size data < 2 ^ 64 ->
  decode le T data = Ok out ->
  (length out + 1 + 8 * sizeof T <= length data)%nat.
Proof.
  intros Hsize. unfold decode.
  destruct (Node_parse le T (S (length data)) data 0) as [[tree start]| | |]
    eqn:Hp; run_bind; try discriminate.
  apply Node_parse_consumes in Hp; [|exact Hsize|unfold vec_size; lia..].
  intros Hloop. apply decode_loop_length in Hloop.
  rewrite length_drop in Hloop. cbn [length] in Hloop.
  unfold vec_size in *. lia.
Qed.

Lemma decode_output_bound_witness :
  (length [97] + 1 + 8 * sizeof char <= length dangling_stream)%nat.
Proof.
  apply (decode_output_bound true char dangling_stream [97]).
  - reflexivity.
  - vm_compute. reflexivity.
Defined.

(** X18.  A stream whose tree is a single leaf has no use for payload bits:
    at the first one [decode] follows a null child pointer of the leaf. *)
Theorem decode_leaf_payload (le : bool) (T : scalar) (v : Z) (b : bool)
    (payload : list bool) :
  in_range T v ->
  vec_size ([true] ++ to_bits le T v ++ b :: payload) < 2 ^ 64 ->
  decode le T ([true] ++ to_bits le T v ++ b :: payload) = Undefined NullDeref.
Proof.
  intros Hv Hsize. unfold decode.
  destruct (parse_serialized le T (Enc.Node_leaf v 0)) as (bits & Hbits & Hparse).
  { constructor. }
  { constructor; [exact Hv | constructor]. }
  injection Hbits as <-.
  specialize (Hparse [] (b :: payload)
                (S (length ([true] ++ to_bits le T v ++ b :: payload)))).
  cbn [app length Nat.add] in Hparse. change (Z.of_nat 0) with 0 in Hparse.
  cbn [app length]. rewrite Hparse.
  - run_bind. rewrite Nat2Z.id.
    change (drop (S (length (to_bits le T v)))
              (true :: to_bits le T v ++ b :: payload))
      with (drop (length (to_bits le T v)) (to_bits le T v ++ b :: payload)).
    rewrite drop_app_length. cbn. destruct b; reflexivity.
  - exact Hsize.
  - rewrite length_app. cbn [length]. lia.
Qed.

Lemma decode_leaf_payload_witness :
  decode true char ([true] ++ to_bits true char 97 ++ false :: [true])
  = Undefined NullDeref.
Proof.
  apply (decode_leaf_payload true char 97 false [true]).
  - vm_compute. split; [discriminate | reflexivity].
  - reflexivity.
Defined.

(** * Properties of the driver *)

(** [0.95f] is 0x3F733333. *)
Lemma f32_0_95_bits : f32_0_95 = Finite 15938355 (-24).
Proof. reflexivity. Qed.

Lemma parse_arg_plain (o : options) (arg : string) :
  arg ∉ flags ->
  parse_arg o arg
  = {| input_filename := if expect o =? 1 then arg else input_filename o;
       output_filename := if expect o =? 2 then arg else output_filename o;
       expect := 0; operation := operation o |}.
Proof.
  intros H. unfold parse_arg, flags, encode_flags, decode_flags in *.
  cbn [app] in H. rewrite !not_elem_of_cons in H.
  destruct H as (H1 & H2 & H3 & H4 & H5 & H6 & _).
  destruct (String.eqb_spec arg "-i"); [contradiction|].
  destruct (String.eqb_spec arg "-o"); [contradiction|].
  destruct (String.eqb_spec arg "-e"); [contradiction|].
  destruct (String.eqb_spec arg "--encode"); [contradiction|].
  destruct (String.eqb_spec arg "-d"); [contradiction|].
  destruct (String.eqb_spec arg "--decode"); [contradiction|].
  reflexivity.
Qed.

Lemma parse_arg_operation (o : options) (arg : string) :
  operation (parse_arg o arg)
  = if bool_decide (arg ∈ encode_flags) then 1
    else if bool_decide (arg ∈ decode_flags) then 2
    else operation o.
Proof.
  unfold parse_arg, encode_flags, decode_flags.
  destruct (String.eqb_spec arg "-i") as [->|]; [reflexivity|].
  destruct (String.eqb_spec arg "-o") as [->|]; [reflexivity|].
  destruct (String.eqb_spec arg "-e") as [->|]; [reflexivity|].
  destruct (String.eqb_spec arg "--encode") as [->|]; [reflexivity|].
  rewrite bool_decide_eq_false_2
    by (rewrite !not_elem_of_cons; repeat split; try assumption; apply not_elem_of_nil).
  destruct (String.eqb_spec arg "-d") as [->|]; [reflexivity|].
  destruct (String.eqb_spec arg "--decode") as [->|]; [reflexivity|].
  rewrite bool_decide_eq_false_2
    by (rewrite !not_elem_of_cons; repeat split; try assumption; apply not_elem_of_nil).
  reflexivity.
Qed.

Lemma parse_operation_kept (args : list string) :
  forall o : options,
    Forall (fun a => a ∉ encode_flags ++ decode_flags) args ->
    operation (fold_left parse_arg args o) = operation o.
Proof.
  induction args as [|a args IH]; intros o Hall; cbn [fold_left]; [reflexivity|].
  inversion Hall as [|? ? Ha Hall']; subst.
  rewrite IH by exact Hall'. rewrite parse_arg_operation.
  rewrite not_elem_of_app in Ha. destruct Ha as [He Hd].
  rewrite !bool_decide_eq_false_2 by assumption. reflexivity.
Qed.

(** X19.  Without any of [-e], [--encode], [-d], [--decode] among its
    arguments, [main] prints "Error: no operation specified.", exits with
    status 1 and leaves every file as it was. *)
Theorem main_no_operation (le cs : bool) (can_write : string -> bool)
    (args : list string) (fs : gmap string (list Z)) :
  Forall (fun a => a ∉ encode_flags ++ decode_flags) args ->
  main le cs can_write args fs
  = Ok (1, [Text ("Error: no operation specified." ++ endl)], fs).
Proof.
  intros Hall. unfold main, parse_args.
  rewrite (parse_operation_kept args no_options Hall). reflexivity.
Qed.

Lemma main_no_operation_witness :
  main true true all_writable ["-i"; "in.txt"; "-o"; "out.hf"] ∅
  = Ok (1, [Text ("Error: no operation specified." ++ endl)], ∅).
Proof.
  apply (main_no_operation true true all_writable
           ["-i"; "in.txt"; "-o"; "out.hf"] ∅).
  repeat constructor; vm_compute; intros H;
    repeat (apply elem_of_cons in H as [H|H]; [discriminate|]); inversion H.
Defined.

(** X20.  The operation is chosen by the last of the arguments [-e],
    [--encode], [-d], [--decode]: 1 (encode) for the first two, 2 (decode)
    for the others. *)
Theorem last_operation_wins (pre post : list string) (f : string) :
  f ∈ encode_flags ++ decode_flags ->
  Forall (fun a => a ∉ encode_flags ++ decode_flags) post ->
  operation (parse_args (pre ++ f :: post))
  = if bool_decide (f ∈ encode_flags) then 1 else 2.
Proof.
  intros Hf Hpost. unfold parse_args. rewrite fold_left_app. cbn [fold_left].
  rewrite parse_operation_kept by exact Hpost.
  rewrite parse_arg_operation.
  destruct (bool_decide (f ∈ encode_flags)) eqn:He; [reflexivity|].
  apply bool_decide_eq_false_1 in He.
  apply elem_of_app in Hf as [Hf|Hf]; [contradiction|].
  rewrite bool_decide_eq_true_2 by exact Hf. reflexivity.
Qed.

Lemma last_operation_wins_witness :
  operation (parse_args (["-e"; "-i"; "x"] ++ "--decode" :: ["-o"; "y"]))
  = if bool_decide ("--decode" ∈ encode_flags) then 1 else 2.
Proof.
  apply (last_operation_wins ["-e"; "-i"; "x"] ["-o"; "y"] "--decode").
  - vm_compute. do 3 right. left.
  - repeat constructor; vm_compute; intros H;
      repeat (apply elem_of_cons in H as [H|H]; [discriminate|]); inversion H.
Defined.

Lemma parse_arg_input_kept (o : options) (arg : string) :
  expect o <> 1 -> arg <> "-i"%string ->
  input_filename (parse_arg o arg) = input_filename o
  /\ expect (parse_arg o arg) <> 1.
Proof.
  intros He Ha. unfold parse_arg.
  destruct (String.eqb_spec arg "-i"); [contradiction|].
  destruct (arg =? "-o")%string; [split; [reflexivity | cbn; lia]|].
  destruct ((arg =? "-e")%string || (arg =? "--encode")%string);
    [split; [reflexivity | exact He]|].
  destruct ((arg =? "-d")%string || (arg =? "--decode")%string);
    [split; [reflexivity | exact He]|].
  cbn [input_filename expect].
  destruct (Z.eqb_spec (expect o) 1); [contradiction|].
  split; [reflexivity | lia].
Qed.

Lemma parse_arg_output_kept (o : options) (arg : string) :
  expect o <> 2 -> arg <> "-o"%string ->
  output_filename (parse_arg o arg) = output_filename o
  /\ expect (parse_arg o arg) <> 2.
Proof.
  intros He Ha. unfold parse_arg.
  destruct (arg =? "-i")%string; [split; [reflexivity | cbn; lia]|].
  destruct (String.eqb_spec arg "-o"); [contradiction|].
  destruct ((arg =? "-e")%string || (arg =? "--encode")%string);
    [split; [reflexivity | exact He]|].
  destruct ((arg =? "-d")%string || (arg =? "--decode")%string);
    [split; [reflexivity | exact He]|].
  cbn [output_filename expect].
  destruct (Z.eqb_spec (expect o) 2); [contradiction|].
  split; [reflexivity | lia].
Qed.

Lemma parse_input_kept (args : list string) :
  forall o : options,
    expect o <> 1 -> "-i"%string ∉ args ->
    input_filename (fold_left parse_arg args o) = input_filename o.
Proof.
  induction args as [|a args IH]; intros o He Hno; cbn [fold_left]; [reflexivity|].
  apply not_elem_of_cons in Hno as [Ha Hno].
  destruct (parse_arg_input_kept o a He) as [Hin He']; [congruence|].
  rewrite IH by assumption. exact Hin.
Qed.

Lemma parse_output_kept (args : list string) :
  forall o : options,
    expect o <> 2 -> "-o"%string ∉ args ->
    output_filename (fold_left parse_arg args o) = output_filename o.
Proof.
  induction args as [|a args IH]; intros o He Hno; cbn [fold_left]; [reflexivity|].
  apply not_elem_of_cons in Hno as [Ha Hno].
  destruct (parse_arg_output_kept o a He) as [Hin He']; [congruence|].
  rewrite IH by assumption. exact Hin.
Qed.

(** X21.  The input file is the argument after the last [-i]: when [-i] is
    followed by an argument that is not an option and no [-i] comes later,
    that argument is the input file name, whatever else the command line
    holds. *)
Theorem input_file_follows_flag (pre post : list string) (name : string) :
  name ∉ flags ->
  "-i"%string ∉ post ->
  input_filename (parse_args (pre ++ "-i"%string :: name :: post)) = name.
Proof.
  intros Hname Hpost. unfold parse_args. rewrite fold_left_app.
  cbn [fold_left]. set (o := fold_left parse_arg pre no_options).
  rewrite parse_input_kept; [| |exact Hpost].
  - rewrite parse_arg_plain by exact Hname. reflexivity.
  - rewrite parse_arg_plain by exact Hname. cbn [expect]. lia.
Qed.

Lemma input_file_follows_flag_witness :
  input_filename
    (parse_args (["-i"; "old"; "-d"] ++ "-i"%string :: "in.hf"%string
                 :: ["-o"; "out.txt"; "stray"]))
  = "in.hf"%string.
Proof.
  apply (input_file_follows_flag ["-i"; "old"; "-d"] ["-o"; "out.txt"; "stray"]
           "in.hf").
  - vm_compute. intros H.
    repeat (apply elem_of_cons in H as [H|H]; [discriminate|]). inversion H.
  - intros H.
    repeat (apply elem_of_cons in H as [H|H]; [discriminate|]). inversion H.
Defined.

(** X22.  The output file is the argument after the last [-o]: when [-o] is
    followed by an argument that is not an option and no [-o] comes later,
    that argument is the output file name. *)
Theorem output_file_follows_flag (pre post : list string) (name : string) :
  name ∉ flags ->
  "-o"%string ∉ post ->
  output_filename (parse_args (pre ++ "-o"%string :: name :: post)) = name.
Proof.
  intros Hname Hpost. unfold parse_args. rewrite fold_left_app.
  cbn [fold_left]. set (o := fold_left parse_arg pre no_options).
  rewrite parse_output_kept; [| |exact Hpost].
  - rewrite parse_arg_plain by exact Hname. reflexivity.
  - rewrite parse_arg_plain by exact Hname. cbn [expect]. lia.
Qed.

Lemma output_file_follows_flag_witness :
  output_filename
    (parse_args (["-o"; "old"; "-e"] ++ "-o"%string :: "out.hf"%string
                 :: ["-i"; "in.txt"; "stray"]))
  = "out.hf"%string.
Proof.
  apply (output_file_follows_flag ["-o"; "old"; "-e"] ["-i"; "in.txt"; "stray"]
           "out.hf").
  - vm_compute. intros H.
    repeat (apply elem_of_cons in H as [H|H]; [discriminate|]). inversion H.
  - intros H.
    repeat (apply elem_of_cons in H as [H|H]; [discriminate|]). inversion H.
Defined.

Lemma parse_output_source (args : list string) :
  forall o : options,
    output_filename (fold_left parse_arg args o) = output_filename o
    \/ output_filename (fold_left parse_arg args o) ∈ args.
Proof.
  induction args as [|a args IH]; intros o; cbn [fold_left]; [left; reflexivity|].
  destruct (IH (parse_arg o a)) as [H|H]; [|right; right; exact H].
  rewrite H. unfold parse_arg.
  destruct (a =? "-i")%string; [left; reflexivity|].
  destruct (a =? "-o")%string; [left; reflexivity|].
  destruct ((a =? "-e")%string || (a =? "--encode")%string); [left; reflexivity|].
  destruct ((a =? "-d")%string || (a =? "--decode")%string); [left; reflexivity|].
  cbn [output_filename]. destruct (expect o =? 2); [right; left | left; reflexivity].
Qed.

(** X23.  What [main] does to the files: it exits with status 0 or 1; with
    status 1 every file is as it was; and a file whose name is not among the
    arguments is never changed. *)
Theorem main_changes_only_named (le cs : bool) (can_write : string -> bool)
    (args : list string) (fs fs' : gmap string (list Z)) (status : Z)
    (printed : list output) :
  main le cs can_write args fs = Ok (status, printed, fs') ->
  (status = 0 \/ status = 1)
  /\ (status = 1 -> fs' = fs)
  /\ (forall name, name ∉ args -> fs' !! name = fs !! name).
Proof.
  unfold main.
  assert (Hout : forall name content, name ∉ args ->
            (output_filename (parse_args args) =? "")%string = false ->
            write_file can_write fs (output_filename (parse_args args)) content
              !! name
            = fs !! name).
  { intros name content Hname Hne. unfold write_file.
    destruct (can_write (output_filename (parse_args args))); [|reflexivity].
    apply lookup_insert_ne.
    intros <-. unfold parse_args in *.
    destruct (parse_output_source args no_options) as [H|H]; [|contradiction].
    rewrite H in Hne. discriminate. }
  revert Hout. generalize (parse_args args). intros o Hout.
  destruct (operation o =? 0);
    [intros [= <- <- <-]; split; [right; reflexivity | split; reflexivity]|].
  destruct (operation o =? 1).
  - destruct (output_filename o =? "")%string eqn:Hname;
      [intros [= <- <- <-]; split; [right; reflexivity | split; reflexivity]|].
    destruct (open_in fs (input_filename o)) as [bytes|];
      [|intros [= <- <- <-]; split; [right; reflexivity | split; reflexivity]].
    destruct (encode le (char_t cs) (chars_of_bytes cs bytes)); run_bind;
      try discriminate.
    intros [= <- <- <-]. split; [left; reflexivity|].
    split; [discriminate|]. intros name Hn. apply Hout; [exact Hn | reflexivity].
  - destruct (operation o =? 2);
      [|intros [= <- <- <-]; split; [left; reflexivity | split; [discriminate | reflexivity]]].
    destruct (open_in fs (input_filename o)) as [bytes|];
      [|intros [= <- <- <-]; split; [right; reflexivity | split; reflexivity]].
    destruct (read_data le bytes) as [input_data| | |]; try discriminate;
      [|intros [= <- <- <-]; split; [right; reflexivity | split; reflexivity]].
    destruct (decode le (char_t cs) input_data); run_bind; try discriminate.
    destruct (output_filename o =? "")%string eqn:Hname.
    + intros [= <- <- <-]. split; [left; reflexivity|].
      split; [discriminate | reflexivity].
    + intros [= <- <- <-]. split; [left; reflexivity|].
      split; [discriminate|]. intros name Hn. apply Hout; [exact Hn | reflexivity].
Qed.

Lemma main_changes_only_named_witness :
  (0 = 0 \/ 0 = 1)
  /\ (0 = 1 -> <["out" := ab_frame]> ab_files = ab_files)
  /\ (forall name, name ∉ ab_encode_args ->
        <["out" := ab_frame]> ab_files !! name = ab_files !! name).
Proof.
  apply (main_changes_only_named true true all_writable ab_encode_args
           ab_files (<["out" := ab_frame]> ab_files) 0
           [Report 16 21; Text warning_text]).
  vm_compute. reflexivity.
Defined.

(** ** Files through the codec *)

Lemma interpret_byte (cs : bool) (b : Z) :
  is_byte b -> interpret (char_t cs) b mod 256 = b.
Proof.
  unfold is_byte, interpret, bits_of_type. intros Hb.
  destruct cs; cbn [char_t is_signed sizeof andb].
  - change (2 ^ (8 * Z.of_nat 1 - 1)) with 128.
    change (2 ^ (8 * Z.of_nat 1)) with 256.
    destruct (Z.leb_spec 128 b).
    + symmetry. apply (Z.mod_unique _ _ (-1)); lia.
    + apply Z.mod_small. lia.
  - apply Z.mod_small. lia.
Qed.

Lemma bytes_of_chars_of_bytes (cs : bool) (bytes : list Z) :
  Forall is_byte bytes -> bytes_of_chars (chars_of_bytes cs bytes) = bytes.
Proof.
  induction 1 as [|b bytes Hb _ IH]; [reflexivity|].
  unfold bytes_of_chars, chars_of_bytes in *. cbn [map].
  rewrite IH, interpret_byte by exact Hb. reflexivity.
Qed.

Lemma chars_in_range (cs : bool) (bytes : list Z) :
  Forall is_byte bytes -> Forall (in_range (char_t cs)) (chars_of_bytes cs bytes).
Proof.
  induction 1 as [|b bytes Hb _ IH]; [constructor|].
  unfold chars_of_bytes in *. cbn [map]. constructor; [|exact IH].
  apply interpret_in_range; [cbn; lia|]. exact Hb.
Qed.

Lemma chars_distinct (cs : bool) (bytes : list Z) :
  Forall is_byte bytes ->
  (exists x y, x ∈ bytes /\ y ∈ bytes /\ x <> y) ->
  exists x y, x ∈ chars_of_bytes cs bytes /\ y ∈ chars_of_bytes cs bytes /\ x <> y.
Proof.
  intros Hall (x & y & Hx & Hy & Hxy).
  exists (interpret (char_t cs) x), (interpret (char_t cs) y).
  unfold chars_of_bytes.
  split; [apply list_elem_of_In, in_map, list_elem_of_In; exact Hx|].
  split; [apply list_elem_of_In, in_map, list_elem_of_In; exact Hy|].
  intros Heq. apply Hxy.
  rewrite <- (interpret_byte cs x), <- (interpret_byte cs y), Heq.
  - reflexivity.
  - rewrite Forall_forall in Hall. apply Hall. exact Hy.
  - rewrite Forall_forall in Hall. apply Hall. exact Hx.
Qed.

(** A file has at most 256 distinct [char]s. *)
Lemma chars_count (cs : bool) (bytes : list Z) :
  Forall is_byte bytes ->
  (length (remove_dups (chars_of_bytes cs bytes)) <= 256)%nat.
Proof.
  intros Hall.
  change 256%nat with (length (map (interpret (char_t cs)) (seqZ 0 256))).
  apply submseteq_length, NoDup_submseteq; [apply NoDup_remove_dups|].
  intros c Hc. rewrite elem_of_remove_dups in Hc.
  unfold chars_of_bytes in Hc.
  apply list_elem_of_In, in_map_iff in Hc as (b & <- & Hb).
  apply list_elem_of_In, in_map, list_elem_of_In, elem_of_seqZ.
  rewrite Forall_forall in Hall. apply list_elem_of_In, Hall in Hb.
  unfold is_byte in Hb. lia.
Qed.

Lemma file_round_trip (le cs : bool) (bytes : list Z) :
  Forall is_byte bytes ->
  (exists x y, x ∈ bytes /\ y ∈ bytes /\ x <> y) ->
  2560 + 255 * Z.of_nat (length bytes) <= 2 ^ 64 ->
  exists packed,
    encode le (char_t cs) (chars_of_bytes cs bytes) = Ok packed
    /\ vec_size packed < 2 ^ 64
    /\ decode true (char_t cs) packed = Ok (chars_of_bytes cs bytes).
Proof.
  intros Hall Hxy Hsize.
  pose proof (chars_count cs bytes Hall) as Hk.
  assert (Hn : length (chars_of_bytes cs bytes) = length bytes)
    by apply length_map.
  assert (Hbound :
    Z.of_nat (length (remove_dups (chars_of_bytes cs bytes)))
      * (bits_of_type (char_t cs) + 2)
    + Z.of_nat (length (chars_of_bytes cs bytes))
      * (Z.of_nat (length (remove_dups (chars_of_bytes cs bytes))) - 1)
    <= 2 ^ 64).
  { rewrite Hn. unfold bits_of_type. cbn [char_t sizeof].
    change (8 * Z.of_nat 1 + 2) with 10. nia. }
  destruct (round_trip le true (char_t cs) (chars_of_bytes cs bytes)
              (chars_in_range cs bytes Hall) (chars_distinct cs bytes Hall Hxy)
              Hbound) as (packed & Henc & Hdec).
  exists packed. split; [exact Henc|]. split; [|exact Hdec].
  destruct (encode_layout le (char_t cs) _ packed Henc)
    as (_ & _ & _ & _ & _ & _ & _ & Hb).
  rewrite Hn in Hb. cbn [char_t sizeof] in Hb. unfold vec_size. nia.
Qed.

Lemma open_in_found (fs : gmap string (list Z)) (name : string)
    (bytes : list Z) :
  name <> ""%string -> fs !! name = Some bytes -> open_in fs name = Some bytes.
Proof.
  intros Hname Hfs. unfold open_in.
  destruct (String.eqb_spec name ""); [contradiction | exact Hfs].
Qed.


Lemma main_decodes (le cs : bool) (can_write : string -> bool)
    (args : list string) (fs : gmap string (list Z)) (bytes : list Z)
    (packed : list bool) :
  operation (parse_args args) = 2 ->
  input_filename (parse_args args) <> ""%string ->
  fs !! input_filename (parse_args args) = Some (write_data le packed) ->
  vec_size packed < 2 ^ 64 ->
  Forall is_byte bytes ->
  decode true (char_t cs) packed = Ok (chars_of_bytes cs bytes) ->
  main true cs can_write args fs
  = if (output_filename (parse_args args) =? "")%string
    then Ok (0, [Chars bytes; Text endl], fs)
    else Ok (0, [Report (vec_size packed) (wrap64 (8 * vec_size bytes))],
             write_file can_write fs (output_filename (parse_args args)) bytes).
Proof.
  intros Hop Hin Hfs Hsize Hall Hdec. unfold main. rewrite Hop.
  change (2 =? 0) with false. change (2 =? 1) with false.
  change (2 =? 2) with true. cbv iota.
  rewrite (open_in_found fs _ _ Hin Hfs).
  rewrite (write_data_split le), <- (write_data_split true).
  rewrite read_write_little_endian by exact Hsize.
  rewrite Hdec. run_bind.
  rewrite bytes_of_chars_of_bytes by exact Hall.
  unfold vec_size, chars_of_bytes. rewrite length_map.
  rewrite (Z.mul_comm 8). reflexivity.
Qed.



(** X25.  Decoding to the terminal: when the arguments select decoding and
    name no output file, and the input file holds the frame of the encoding
    of a byte sequence (with at least two distinct bytes, compressed on a
    host of either byte order), [main] on a little-endian host prints
    exactly those bytes and a newline, exits with status 0 and changes no
    file. *)
Theorem main_decode_prints (le cs : bool) (can_write : string -> bool)
    (args : list string) (fs : gmap string (list Z)) (bytes : list Z)
    (bits : list bool) :
  operation (parse_args args) = 2 ->
  input_filename (parse_args args) <> ""%string ->
  output_filename (parse_args args) = ""%string ->
  Forall is_byte bytes ->
  (exists x y, x ∈ bytes /\ y ∈ bytes /\ x <> y) ->
  2560 + 255 * Z.of_nat (length bytes) <= 2 ^ 64 ->
  encode le (char_t cs) (chars_of_bytes cs bytes) = Ok bits ->
  fs !! input_filename (parse_args args) = Some (write_data le bits) ->
  main true cs can_write args fs = Ok (0, [Chars bytes; Text endl], fs).
Proof.
  intros Hop Hin Hout Hall Hxy Hsize Henc Hfs.
  destruct (file_round_trip le cs bytes Hall Hxy Hsize)
    as (bits' & Henc' & Hlen & Hdec).
  rewrite Henc in Henc'. injection Henc' as <-.
  rewrite (main_decodes le cs can_write args fs bytes bits), Hout;
    [reflexivity | exact Hop | exact Hin | exact Hfs | exact Hlen | exact Hall
    | exact Hdec].
Qed.

Lemma main_decode_prints_witness :
  main true false all_writable ["--decode"; "-i"; "out"]
    {[ "out"%string := ab_frame ]}
  = Ok (0, [Chars ab; Text endl], {[ "out"%string := ab_frame ]}).
Proof.
  apply (main_decode_prints true false all_writable ["--decode"; "-i"; "out"]
           {[ "out"%string := ab_frame ]} ab
           [false; true; false; true; true; false; false; false; true; false;
            true; false; true; true; false; false; false; false; true;
            true; false]).
  - reflexivity.
  - discriminate.
  - reflexivity.
  - repeat constructor; vm_compute; discriminate.
  - exists 97, 98. split; [left|]. split; [right; left | discriminate].
  - vm_compute. discriminate.
  - vm_compute. reflexivity.
  - vm_compute. reflexivity.
Defined.

(** X26.  A compressed file cut short is reported, not decoded: when the
    arguments select decoding and the input file holds a proper prefix of a
    written frame, [main] on a little-endian host prints "Error: failed to
    read input data (read_data: premature end of file.).", exits with
    status 1 and changes no file. *)
Theorem main_rejects_truncated (le cs : bool) (can_write : string -> bool)
    (args : list string) (fs : gmap string (list Z)) (bits : list bool)
    (k : nat) :
  operation (parse_args args) = 2 ->
  input_filename (parse_args args) <> ""%string ->
  vec_size bits < 2 ^ 64 ->
  (k < length (write_data le bits))%nat ->
  fs !! input_filename (parse_args args) = Some (take k (write_data le bits)) ->
  main true cs can_write args fs
  = Ok (1, [Text ("Error: failed to read input data (" ++ eof_message ++ ")."
                  ++ endl)], fs).
Proof.
  intros Hop Hin Hsize Hk Hfs. unfold main. rewrite Hop.
  change (2 =? 0) with false. change (2 =? 1) with false.
  change (2 =? 2) with true. cbv iota.
  rewrite (open_in_found fs _ _ Hin Hfs).
  rewrite (read_data_prefix le bits k Hsize Hk). reflexivity.
Qed.

Lemma main_rejects_truncated_witness :
  main true true all_writable ab_decode_args
    {[ "out"%string := take 10 ab_frame ]}
  = Ok (1, [Text ("Error: failed to read input data (" ++ eof_message ++ ")."
                  ++ endl)], {[ "out"%string := take 10 ab_frame ]}).
Proof.
  apply (main_rejects_truncated true true all_writable ab_decode_args
           {[ "out"%string := take 10 ab_frame ]}
           [false; true; false; true; true; false; false; false; true; false;
            true; false; true; true; false; false; false; false; true;
            true; false] 10).
  - reflexivity.
  - discriminate.
  - reflexivity.
  - vm_compute. repeat constructor.
  - vm_compute. reflexivity.
Defined.

(** X27.  Encoding needs [-o]: when the arguments select encoding and [-o]
    is not among them, [main] prints "Error: no output file specified.",
    exits with status 1 and changes no file, whatever the input file
    holds. *)
Theorem main_encode_needs_output (le cs : bool) (can_write : string -> bool)
    (args : list string) (fs : gmap string (list Z)) :
  operation (parse_args args) = 1 ->
  "-o"%string ∉ args ->
  main le cs can_write args fs
  = Ok (1, [Text ("Error: no output file specified." ++ endl)], fs).
Proof.
  intros Hop Hno. unfold main. rewrite Hop.
  change (1 =? 0) with false. change (1 =? 1) with true. cbv iota.
  unfold parse_args.
  rewrite (parse_output_kept args no_options); [reflexivity | discriminate
                                               | exact Hno].
Qed.

Lemma main_encode_needs_output_witness :
  main true true all_writable ["-i"; "in"; "--encode"; "out"] ab_files
  = Ok (1, [Text ("Error: no output file specified." ++ endl)], ab_files).
Proof.
  apply (main_encode_needs_output true true all_writable
           ["-i"; "in"; "--encode"; "out"] ab_files).
  - reflexivity.
  - intros H.
    repeat (apply elem_of_cons in H as [H|H]; [discriminate|]). inversion H.
Defined.

(** * Determinism of [encode] *)

Lemma freq_table_key_ordered (data : list Z) :
  key_ordered_table data (freq_table data).
Proof.
  split; [apply freq_table_keys|]. intros x c. apply freq_table_entries.
Qed.

Lemma key_ordered_table_unique (data : list Z) (table : list (Z * Z)) :
  key_ordered_table data table -> table = freq_table data.
Proof.
  intros [Hsorted Hentries].
  apply sorted_entries_ext; [exact Hsorted | apply freq_table_keys|].
  intros [x c]. rewrite Hentries, freq_table_entries. reflexivity.
Qed.

Lemma list_sort_stable_sort (l : list Enc.Node) :
  stable_sort_of l (list_sort (fun l r => Enc.freq r <? Enc.freq l) l).
Proof.
  split; [apply list_sort_ordered|]. intros f. apply list_sort_stable.
Qed.

Lemma stable_sort_unique (l sorted : list Enc.Node) :
  stable_sort_of l sorted ->
  sorted = list_sort (fun l r => Enc.freq r <? Enc.freq l) l.
Proof. intros [Hord Hstable]. apply list_sort_unique; assumption. Qed.

Lemma reinsert_reinserted (parent : Enc.Node) (nodes : list Enc.Node) :
  reinserted parent nodes (reinsert parent nodes).
Proof.
  destruct (reinsert_split parent nodes) as (pre & post & H1 & H2 & H3 & H4).
  exists pre, post. repeat split; assumption.
Qed.

Lemma reinserted_unique (parent : Enc.Node) (nodes nodes' : list Enc.Node) :
  reinserted parent nodes nodes' -> nodes' = reinsert parent nodes.
Proof.
  intros (pre & post & -> & -> & Hpre & Hpost).
  induction Hpre as [|n pre Hn _ IH]; cbn [app reinsert].
  - destruct post as [|it post]; [reflexivity|]. cbn [reinsert].
    destruct (Z.leb_spec (Enc.freq it) (Enc.freq parent)); [reflexivity | lia].
  - destruct (Z.leb_spec (Enc.freq n) (Enc.freq parent)); [lia|].
    rewrite IH. reflexivity.
Qed.

Lemma merges_loop (nodes : list Enc.Node) (lut : gmap Z (list bool))
    (tree : Enc.Node) (lut' : gmap Z (list bool)) :
  merges nodes lut tree lut' ->
  forall fuel : nat,
    (length nodes <= fuel)%nat ->
    merge_loop fuel nodes lut = Ok ([tree], lut').
Proof.
  induction 1 as [tree lut|rest r l lut nodes' tree lut' Hplace _ IH];
    intros fuel Hfuel.
  - destruct fuel as [|fuel]; [cbn [length] in Hfuel; lia|]. reflexivity.
  - destruct fuel as [|fuel];
      [rewrite length_app in Hfuel; cbn [length] in Hfuel; lia|].
    cbn [merge_loop]. rewrite merge_step_merges. run_bind.
    rewrite <- (reinserted_unique _ _ _ Hplace). apply IH.
    destruct Hplace as (pre & post & -> & -> & _).
    rewrite !length_app in *. cbn [length] in *. lia.
Qed.

Lemma loop_merges (fuel : nat) :
  forall (nodes nodes' : list Enc.Node) (lut lut' : gmap Z (list bool)),
    merge_loop fuel nodes lut = Ok (nodes', lut') ->
    exists tree, nodes' = [tree] /\ merges nodes lut tree lut'.
Proof.
  induction fuel as [|fuel IH]; intros nodes nodes' lut lut' Hloop;
    [discriminate|].
  cbn [merge_loop] in Hloop. unfold merge_step in Hloop.
  destruct (pop_back nodes) as [[rest l]|] eqn:Hl; [|discriminate].
  apply pop_back_Some in Hl. subst nodes.
  destruct (pop_back rest) as [[rest' r]|] eqn:Hr.
  - apply pop_back_Some in Hr. subst rest. revert Hloop. run_bind.
    intros Hloop. destruct (IH _ _ _ _ Hloop) as (tree & -> & Hm).
    exists tree. split; [reflexivity|].
    rewrite <- app_assoc. cbn [app].
    eapply merges_turn; [apply reinsert_reinserted | exact Hm].
  - apply pop_back_None in Hr. subst rest. revert Hloop. run_bind.
    intros [= <- <-]. exists l. split; [reflexivity | constructor].
Qed.

Lemma evaluation_encode (le : bool) (T : scalar) (data : list Z)
    (out : list bool) :
  evaluation le T data out -> encode le T data = Ok out.
Proof.
  intros (table & sorted & tree & lut & bits & Htable & Hsort & Hm & Hbits & ->).
  apply key_ordered_table_unique in Htable. subst table.
  apply stable_sort_unique in Hsort. fold (initial_nodes data) in Hsort.
  subst sorted. unfold encode, build.
  rewrite (merges_loop _ _ _ _ Hm) by lia. run_bind.
  rewrite Hbits. run_bind. rewrite fold_emit. reflexivity.
Qed.

Lemma encode_evaluation (le : bool) (T : scalar) (data : list Z)
    (out : list bool) :
  encode le T data = Ok out -> evaluation le T data out.
Proof.
  unfold encode, build.
  destruct (merge_loop (S (length (initial_nodes data))) (initial_nodes data) ∅)
    as [[nodes lut]| | |] eqn:Hloop; run_bind; try discriminate.
  destruct (loop_merges _ _ _ _ _ Hloop) as (tree & -> & Hm). run_bind.
  destruct (encode_tree le T tree) as [bits| | |] eqn:Hbits; run_bind;
    try discriminate.
  rewrite fold_emit. intros [= <-].
  exists (freq_table data), (initial_nodes data), tree, lut, bits.
  split; [apply freq_table_key_ordered|].
  split; [apply list_sort_stable_sort|].
  split; [exact Hm|]. split; [exact Hbits | reflexivity].
Qed.

Lemma encode_returns (le : bool) (T : scalar) (data : list Z) :
  data <> [] -> exists out, encode le T data = Ok out.
Proof.
  intros Hne. destruct (build_ok data Hne) as (tree & lut & Hb & Hinv & _).
  assert (Hproper : proper tree).
  { pose proof (inv_proper _ _ Hinv) as H. inversion H; assumption. }
  destruct (encode_tree_size le T tree Hproper) as (bits & Hbits & _).
  exists (fold_left (emit lut) data bits).
  unfold encode. rewrite Hb. run_bind. rewrite Hbits. reflexivity.
Qed.

(** C10 (the code departs from the claim).  Two evaluations of [encode] on
    one sequence are claimed to return the same bits, for every sequence.
    On every sequence but the empty one they do: [encode] returns, on either
    host, one and the same output, and that output is the only one an
    evaluation can return whose table is iterated in key order, whose sort
    is stable and whose merge loop re-inserts in front of the first node of
    smaller or equal frequency.  On the empty sequence [encode] has
    undefined behaviour and no evaluation returns anything: there are no bits
    to compare. *)
Theorem encode_determined_unless_empty (T : scalar) (data : list Z) :
  (data = []
   /\ (forall le, encode le T data = Undefined BadIterator)
   /\ (forall le out, ~ evaluation le T data out))
  \/ (exists out,
        (forall le, encode le T data = Ok out)
        /\ (forall le, evaluation le T data out)
        /\ (forall le out', evaluation le T data out' -> out' = out)).
Proof.
  destruct data as [|x data].
  - left. split; [reflexivity|]. split; [reflexivity|].
    intros le out Hev. apply evaluation_encode in Hev. discriminate.
  - right.
    destruct (encode_returns true T (x :: data)) as [out Hout]; [discriminate|].
    assert (Hall : forall le, encode le T (x :: data) = Ok out).
    { intros le. rewrite (encode_host le true). exact Hout. }
    exists out. split; [exact Hall|].
    split; [intros le; apply encode_evaluation, Hall|].
    intros le out' Hev. apply evaluation_encode in Hev.
    rewrite Hall in Hev. congruence.
Qed.
